(** * pytype: the declared-type AST (pytd.py) and the abstract matcher (matcher.py)

    A shallow embedding of [pytype/pytd/pytd.py] and [pytype/matcher.py],
    with the properties of their specification stated and proved over it. *)

From stdpp Require Import gmap strings list.
From Stdlib Require Import ZArith Lia Permutation.

Local Open Scope string_scope.
Local Open Scope list_scope.
Set Warnings "-register-all".

(** ** Python outcomes: a returned value or a raised exception *)

Inductive exn : Type :=
| AssertionError
| KeyError
| TypeError
| AttributeError
| ValueError
| NotImplementedError
| DuplicateName (name : string)   (* AttributeError('Duplicate name ...') *)
| RecursionLimit.   (* RuntimeError: the bound on nested calls is exhausted *)

Inductive outcome (A : Type) : Type :=
| Ret (a : A)
| Raise (e : exn).
Arguments Ret {A} a.
Arguments Raise {A} e.

(** * Part I: pytd.py *)

Module Pytd.

(** Every class of pytd.py is a [node.Node(...)] named tuple: a Python class
    together with a tuple of fields.  A field holds a node, a string, [None],
    a bool or a tuple of such values. *)
Inductive NodeClass : Type :=
| cTypeDeclUnit | cConstant | cAlias | cClass | cFunction | cExternalFunction
| cSignature | cParameter | cTypeParameter | cTemplateItem
| cNamedType | cClassType | cFunctionType | cAnythingType | cNothingType
| cUnionType | cGenericType | cHomogeneousContainerType | cTupleType.

#[global] Instance NodeClass_eq_dec : EqDecision NodeClass.
Proof. solve_decision. Defined.

Inductive Node : Type :=
| PyNone
| PyStr (s : string)
| PyBool (b : bool)
| PyTuple (items : list Node)
| Obj (cls : NodeClass) (fields : list Node).

(** The field names of each class, as given to [node.Node].  [ClassType.cls]
    is an attribute set outside the tuple: it is no field. *)
Definition _fields (c : NodeClass) : list string :=
  match c with
  | cTypeDeclUnit =>
      ["name"; "constants"; "type_params"; "classes"; "functions"; "aliases"]
  | cConstant => ["name"; "type"]
  | cAlias => ["name"; "type"]
  | cClass =>
      ["name"; "metaclass"; "parents"; "methods"; "constants"; "template"]
  | cFunction | cExternalFunction => ["name"; "signatures"; "kind"]
  | cSignature =>
      ["params"; "starargs"; "starstarargs"; "return_type"; "exceptions";
       "template"]
  | cParameter => ["name"; "type"; "kwonly"; "optional"; "mutated_type"]
  | cTypeParameter => ["name"; "scope"]
  | cTemplateItem => ["type_param"]
  | cNamedType => ["name"]
  | cClassType => ["name"]
  | cFunctionType => ["name"; "function"]
  | cAnythingType | cNothingType => []
  | cUnionType => ["type_list"]
  | cGenericType | cHomogeneousContainerType | cTupleType =>
      ["base_type"; "parameters"]
  end.

Fixpoint index_of (f : string) (fs : list string) : option nat :=
  match fs with
  | [] => None
  | g :: fs' => if String.eqb f g then Some 0 else S <$> index_of f fs'
  end.

(** Attribute access on a named tuple: the field at the position of its name. *)
Definition getattr (n : Node) (f : string) : option Node :=
  match n with
  | Obj c fields => i ← index_of f (_fields c); fields !! i
  | _ => None
  end.

Definition tuple_items (n : Node) : list Node :=
  match n with
  | PyTuple l => l
  | _ => []
  end.

Definition isinstance (n : Node) (c : NodeClass) : bool :=
  match n with
  | Obj d _ => bool_decide (d = c)
  | _ => false
  end.

(** [t.type_list if isinstance(t, UnionType) else [t]] *)
Definition type_list_or_self (t : Node) : list Node :=
  match t with
  | Obj cUnionType [PyTuple l] => l
  | _ => [t]
  end.

(** [self.type_list] of a union (empty for any other node). *)
Definition type_list (t : Node) : list Node :=
  match t with
  | Obj cUnionType [PyTuple l] => l
  | _ => []
  end.

Section Equality.

Variable eqb : Node → Node → bool.

(** Element-wise comparison of two tuples. *)
Fixpoint tuple_eqb (xs ys : list Node) : bool :=
  match xs, ys with
  | [], [] => true
  | x :: xs', y :: ys' => eqb x y && tuple_eqb xs' ys'
  | _, _ => false
  end.

(** [frozenset(xs) == frozenset(ys)]: each has every member of the other. *)
Definition frozenset_eqb (xs ys : list Node) : bool :=
  forallb (fun x => existsb (fun y => eqb x y) ys) xs
  && forallb (fun y => existsb (fun x => eqb x y) xs) ys.

End Equality.

(** [__eq__]: two nodes are equal when they have the same class and equal
    fields; [UnionType.__eq__] compares the members as frozensets. *)
Fixpoint eqb (a b : Node) {struct a} : bool :=
  match a, b with
  | PyNone, PyNone => true
  | PyStr s, PyStr t => String.eqb s t
  | PyBool x, PyBool y => Bool.eqb x y
  | PyTuple xs, PyTuple ys => tuple_eqb eqb xs ys
  | Obj c fs, Obj d gs =>
      bool_decide (c = d)
      && match c, fs, gs with
         | cUnionType, [PyTuple xs], [PyTuple ys] => frozenset_eqb eqb xs ys
         | _, _, _ => tuple_eqb eqb fs gs
         end
  | _, _ => false
  end.

(** [collections.OrderedDict.fromkeys]: the keys in the order of their first
    occurrence; a key equal to one already present is not added again. *)
Fixpoint fromkeys_acc (keys : list Node) (l : list Node) : list Node :=
  match l with
  | [] => keys
  | x :: l' =>
      if existsb (fun k => eqb k x) keys then fromkeys_acc keys l'
      else fromkeys_acc (keys ++ [x]) l'
  end.

Definition fromkeys (l : list Node) : list Node := fromkeys_acc [] l.

(** [UnionType.__new__] *)
Definition UnionType_new (type_list : list Node) : outcome Node :=
  match type_list with
  | [] => Raise AssertionError
  | _ =>
      let flattened := flat_map type_list_or_self type_list in
      let unique := fromkeys flattened in
      Ret (Obj cUnionType [PyTuple unique])
  end.

(** The members of a union node, when [c] and [fs] are those of one. *)
Definition union_members (c : NodeClass) (fs : list Node) : option (list Node) :=
  match c, fs with
  | cUnionType, [PyTuple xs] => Some xs
  | _, _ => None
  end.

(** *** Hashing *)

Section Hash.

(** The hash of [None], the hash of a string, the hash of a tuple from the
    hashes of its items, and the two bit-mixing steps of the hash of a
    frozenset (of an entry, and of the number of entries with the combined
    entries) are those of the interpreter; they are parameters here. *)
Variable hash_none : Z.
Variable hash_str : string → Z.
Variable hash_tuple : list Z → Z.
Variable shuffle : Z → Z.
Variable finish : nat → Z → Z.

(** The entries of [frozenset(l)] with their hashes: the first of every
    group of equal members. *)
Fixpoint frozenset_entries (seen : list Node) (l : list (Node * Z))
    : list (Node * Z) :=
  match l with
  | [] => []
  | (x, h) :: l' =>
      if existsb (fun k => eqb k x) seen then frozenset_entries seen l'
      else (x, h) :: frozenset_entries (seen ++ [x]) l'
  end.

(** [hash(frozenset(...))]: the shuffled hashes of the entries are combined
    with xor, so that their order does not matter. *)
Definition frozenset_hash (l : list (Node * Z)) : Z :=
  let entries := frozenset_entries [] l in
  finish (length entries)
    (fold_right Z.lxor 0%Z ((fun e => shuffle e.2) <$> entries)).

(** [__hash__]: the hash of the tuple of fields; [UnionType.__hash__] is
    [hash(frozenset(self.type_list))]. *)
Fixpoint hash (n : Node) : Z :=
  match n with
  | PyNone => hash_none
  | PyStr s => hash_str s
  | PyBool b => if b then 1%Z else 0%Z
  | PyTuple l => hash_tuple (map hash l)
  | Obj c fs =>
      match c, fs with
      | cUnionType, [PyTuple xs] =>
          frozenset_hash (map (fun x => (x, hash x)) xs)
      | _, _ => hash_tuple (map hash fs)
      end
  end.

End Hash.

(** *** Unions as the constructor builds them *)

(** [t] is not a union, or it is a union that has a member and no union
    among its members. *)
Definition flat (t : Node) : Prop :=
  match t with
  | Obj cUnionType [PyTuple ms] =>
      ms ≠ [] ∧ Forall (fun m => isinstance m cUnionType = false) ms
  | Obj cUnionType _ => False
  | _ => True
  end.

(** [x] is equal to a member of [l]. *)
Definition member (x : Node) (l : list Node) : Prop :=
  ∃ y, y ∈ l ∧ eqb y x = true.

(** No two members of [l] are equal: each differs from those after it. *)
Fixpoint distinct (l : list Node) : Prop :=
  match l with
  | [] => True
  | x :: l' => (∀ y, y ∈ l' → eqb x y = false) ∧ distinct l'
  end.

(** The keys that [fromkeys_acc keys l] adds to [keys]. *)
Fixpoint added (keys : list Node) (l : list Node) : list Node :=
  match l with
  | [] => []
  | x :: l' =>
      if existsb (fun k => eqb k x) keys then added keys l'
      else x :: added (keys ++ [x]) l'
  end.

(** The number of constructors of a node. *)
Fixpoint node_size (n : Node) : nat :=
  match n with
  | PyTuple l | Obj _ l => S (list_sum (map node_size l))
  | _ => 1
  end.

(** *** Name lookup on modules and classes *)

(** [x.name]: the field [name], or the property [TemplateItem.name], which
    is [self.type_param.name]. *)
Definition name_of (x : Node) : option string :=
  let named :=
    match x with
    | Obj cTemplateItem _ => getattr x "type_param"
    | _ => Some x
    end in
  match named ≫= fun y => getattr y "name" with
  | Some (PyStr n) => Some n
  | _ => None
  end.

(** [TypeParameter.full_name]:
    [('' if self.scope is None else self.scope + '.') + self.name] *)
Definition full_name (x : Node) : option string :=
  match x with
  | Obj cTypeParameter _ =>
      match getattr x "name", getattr x "scope" with
      | Some (PyStr n), Some PyNone => Some ("" +:+ n)
      | Some (PyStr n), Some (PyStr s) => Some ((s +:+ ".") +:+ n)
      | _, _ => None
      end
  | _ => None
  end.

(** The tuple held by a field, [self.f]. *)
Definition tuple_attr (self : Node) (f : string) : option (list Node) :=
  match getattr self f with
  | Some (PyTuple l) => Some l
  | _ => None
  end.

(** The lookup table [self._name2item] is an instance attribute: absent
    ([None]) until the first lookup creates it, and updated in place while it
    is filled.  Each loop returns the table as the loop left it, also when it
    raises. *)
Abbreviation table := (gmap string Node).

(** [for x in self.type_params: self._name2item[x.full_name] = x] *)
Fixpoint fill_type_params (xs : list Node) (d : table) : outcome unit * table :=
  match xs with
  | [] => (Ret tt, d)
  | x :: xs' =>
      match full_name x with
      | Some k => fill_type_params xs' (<[k:=x]> d)
      | None => (Raise AttributeError, d)
      end
  end.

(** [for x in ...: if x.name in self._name2item: raise AttributeError(...)
     self._name2item[x.name] = x] *)
Fixpoint fill_checked (xs : list Node) (d : table) : outcome unit * table :=
  match xs with
  | [] => (Ret tt, d)
  | x :: xs' =>
      match name_of x with
      | Some k =>
          match d !! k with
          | Some _ => (Raise (DuplicateName k), d)
          | None => fill_checked xs' (<[k:=x]> d)
          end
      | None => (Raise AttributeError, d)
      end
  end.

(** [for x in ...: self._name2item[x.name] = x] *)
Fixpoint fill_unchecked (xs : list Node) (d : table) : outcome unit * table :=
  match xs with
  | [] => (Ret tt, d)
  | x :: xs' =>
      match name_of x with
      | Some k => fill_unchecked xs' (<[k:=x]> d)
      | None => (Raise AttributeError, d)
      end
  end.

(** [self._name2item[name]] *)
Definition getitem (d : table) (name : string) : outcome Node :=
  match d !! name with
  | Some x => Ret x
  | None => Raise KeyError
  end.

(** [TypeDeclUnit.Lookup]; the second argument and the second component of
    the result are [self._name2item] before and after the call. *)
Definition TypeDeclUnit_Lookup (self : Node) (_name2item : option table)
    (name : string) : outcome Node * option table :=
  match _name2item with
  | Some d => (getitem d name, Some d)
  | None =>
      (* except AttributeError: *)
      let d := (∅ : table) in
      match tuple_attr self "type_params" with
      | None => (Raise AttributeError, Some d)
      | Some type_params =>
          match fill_type_params type_params d with
          | (Raise e, d) => (Raise e, Some d)
          | (Ret _, d) =>
              match tuple_attr self "constants", tuple_attr self "functions",
                    tuple_attr self "classes", tuple_attr self "aliases" with
              | Some constants, Some functions, Some classes, Some aliases =>
                  match fill_checked
                          (constants ++ functions ++ classes ++ aliases) d with
                  | (Raise e, d) => (Raise e, Some d)
                  | (Ret _, d) => (getitem d name, Some d)
                  end
              | _, _, _, _ => (Raise AttributeError, Some d)
              end
          end
      end
  end.

(** [Class.Lookup] *)
Definition Class_Lookup (self : Node) (_name2item : option table)
    (name : string) : outcome Node * option table :=
  match _name2item with
  | Some d => (getitem d name, Some d)
  | None =>
      let d := (∅ : table) in
      match tuple_attr self "methods", tuple_attr self "constants" with
      | Some methods, Some constants =>
          match fill_unchecked (methods ++ constants) d with
          | (Raise e, d) => (Raise e, Some d)
          | (Ret _, d) => (getitem d name, Some d)
          end
      | _, _ => (Raise AttributeError, Some d)
      end
  end.

(** Constructors of the nodes used below, with the fields in the order of
    their declaration. *)
Definition mkNamedType (name : string) : Node := Obj cNamedType [PyStr name].
Definition mkTypeParameter (name : string) (scope : Node) : Node :=
  Obj cTypeParameter [PyStr name; scope].
Definition mkConstant (name : string) (type : Node) : Node :=
  Obj cConstant [PyStr name; type].
Definition mkAlias (name : string) (type : Node) : Node :=
  Obj cAlias [PyStr name; type].
Definition mkFunction (name : string) (signatures : list Node) (kind : string)
    : Node :=
  Obj cFunction [PyStr name; PyTuple signatures; PyStr kind].
Definition mkClass (name : string) (metaclass : Node)
    (parents methods constants template : list Node) : Node :=
  Obj cClass [PyStr name; metaclass; PyTuple parents; PyTuple methods;
              PyTuple constants; PyTuple template].
Definition mkTypeDeclUnit (name : Node)
    (constants type_params classes functions aliases : list Node) : Node :=
  Obj cTypeDeclUnit [name; PyTuple constants; PyTuple type_params;
                     PyTuple classes; PyTuple functions; PyTuple aliases].

(** Two of the declarations [items] have the name [name]. *)
Definition declared_twice (name : string) (items : list Node) : Prop :=
  ∃ pre x mid y post,
    items = pre ++ x :: mid ++ y :: post
    ∧ name_of x = Some name ∧ name_of y = Some name.

(** The lookup found an item or found none: the table was built. *)
Definition table_built (r : outcome Node) : Prop :=
  (∃ x, r = Ret x) ∨ r = Raise KeyError.

(** [n] has no module in it.  A [TypeDeclUnit] is compared and hashed by
    its identity ([id(self)]), which the values here do not have; the
    properties of [==] and [__hash__] are stated for the other nodes. *)
Fixpoint no_module (n : Node) : bool :=
  match n with
  | PyTuple l => forallb no_module l
  | Obj c l => negb (bool_decide (c = cTypeDeclUnit)) && forallb no_module l
  | _ => true
  end.

(** [self._name2item[key(x)] = x], the step of the loops that fill the
    table. *)
Definition put (key : Node → option string) (d : table) (x : Node) : table :=
  match key x with
  | Some k => <[k:=x]> d
  | None => d
  end.

(** *** Comparing two modules *)

(** [self.f == other.f]; an object without the attribute [f] raises
    [AttributeError]. *)
Definition field_eq (self other : Node) (f : string) : outcome bool :=
  match getattr self f with
  | None => Raise AttributeError
  | Some x =>
      match getattr other f with
      | None => Raise AttributeError
      | Some y => Ret (eqb x y)
      end
  end.

(** [a and b], on comparisons: [b] is evaluated when [a] is true. *)
Definition and_then (a b : outcome bool) : outcome bool :=
  match a with
  | Ret true => b
  | _ => a
  end.

(** [TypeDeclUnit.ASTeq] *)
Definition ASTeq (self other : Node) : outcome bool :=
  and_then (field_eq self other "constants")
    (and_then (field_eq self other "type_params")
       (and_then (field_eq self other "classes")
          (and_then (field_eq self other "functions")
             (field_eq self other "aliases")))).

(** *** Containers *)

(** The class a class of nodes extends: [ExternalFunction(Function)],
    [HomogeneousContainerType(GenericType)] and [TupleType(GenericType)]. *)
Definition base_class (c : NodeClass) : option NodeClass :=
  match c with
  | cExternalFunction => Some cFunction
  | cHomogeneousContainerType | cTupleType => Some cGenericType
  | _ => None
  end.

(** [isinstance(n, c)], where an instance of a class that extends [c] is an
    instance of [c]. *)
Definition is_instance (n : Node) (c : NodeClass) : bool :=
  match n with
  | Obj d _ => bool_decide (d = c) || bool_decide (base_class d = Some c)
  | _ => false
  end.

(** The items a [for] loop over [n] visits: those of a tuple, the fields of a
    node (a named tuple), the characters of a string; [None] and a bool are
    not iterable. *)
Definition iter (n : Node) : option (list Node) :=
  match n with
  | PyTuple l | Obj _ l => Some l
  | PyStr s => Some ((fun a => PyStr (String a EmptyString)) 
                    <$> String.list_ascii_of_string s)
  | PyNone | PyBool _ => None
  end.

Section IsContainer.

(** The attribute [cls] of a [ClassType] is set outside its tuple and can
    point back into the tree.  The objects [IsContainer] visits are named by
    the way they are reached: [cls_at []] is the object of the first call
    and [cls_at (path ++ [i])] is [p.base_type.cls] for the parent [p] at
    index [i] of [cls_at path]. *)
Variable cls_at : list nat → Node.

(** [for p in t.parents: ...] from the parent at index [i] on, and the
    final [return False]; [rec i] is [IsContainer(base.cls)] for that
    parent. *)
Fixpoint parents_loop (rec : nat → outcome bool) (i : nat) (ps : list Node)
    : outcome bool :=
  match ps with
  | [] => Ret false
  | p :: ps' =>
      if is_instance p cGenericType then
        match getattr p "base_type" with
        | None => Raise AttributeError
        | Some base =>
            if is_instance base cClassType then
              match rec i with
              | Ret true => Ret true
              | Ret false => parents_loop rec (S i) ps'
              | Raise e => Raise e
              end
            else parents_loop rec (S i) ps'
        end
      else parents_loop rec (S i) ps'
  end.

(** [IsContainer(t)] for the object [t] reached by [path]; calls nest at
    most [depth] deep. *)
Fixpoint IsContainer (depth : nat) (path : list nat) : outcome bool :=
  match depth with
  | 0 => Raise RecursionLimit
  | S d =>
      let t := cls_at path in
      if negb (is_instance t cClass) then Raise AssertionError
      else
        match getattr t "name" with
        | None => Raise AttributeError
        | Some n =>
            if eqb n (PyStr "typing.Generic") then Ret true
            else
              match getattr t "parents" with
              | None => Raise AttributeError
              | Some parents =>
                  match iter parents with
                  | None => Raise TypeError
                  | Some ps =>
                      parents_loop (fun i => IsContainer d (path ++ [i])) 0 ps
                  end
              end
        end
  end.

(** The parent [p] is a generic type over a [ClassType]. *)
Definition generic_over_class (p : Node) : Prop :=
  is_instance p cGenericType = true
  ∧ ∃ base, getattr p "base_type" = Some base
            ∧ is_instance base cClassType = true.

(** The object reached by [path] is the class [typing.Generic], or a class
    one of whose parents is a generic type over a class of which the same
    holds. *)
Inductive container : list nat → Prop :=
| container_Generic path :
    is_instance (cls_at path) cClass = true →
    getattr (cls_at path) "name" = Some (PyStr "typing.Generic") →
    container path
| container_parent path parents ps i p :
    is_instance (cls_at path) cClass = true →
    getattr (cls_at path) "parents" = Some parents →
    iter parents = Some ps →
    ps !! i = Some p →
    generic_over_class p →
    container (path ++ [i]) →
    container path.

End IsContainer.

(** [t] is a class with the name [n] whose parents are the [ps]. *)
Definition class_with (t n : Node) (ps : list Node) : Prop :=
  is_instance t cClass = true ∧ getattr t "name" = Some n
  ∧ ∃ parents, getattr t "parents" = Some parents ∧ iter parents = Some ps.

(** The parent [p] is not a generic type. *)
Definition not_generic (p : Node) : Prop := is_instance p cGenericType = false.

(** The character of the string ["."]. *)
Definition dot : Ascii.ascii :=
  match "." with
  | String c _ => c
  | EmptyString => Ascii.zero
  end.

(** The string has no dot. *)
Fixpoint dot_free (s : string) : bool :=
  match s with
  | EmptyString => true
  | String c s' => negb (Ascii.eqb c dot) && dot_free s'
  end.

End Pytd.

(** * Part II: matcher.py *)

Module Matcher.

(** ** The abstract values the matcher consumes *)

(** A [cfg.Variable] is a mutable object; it is referred to by its identity
    and its bindings live in the heap below. *)
Abbreviation var := nat.

(** Keys of a class's [type_parameters]: a tuple slot or a parameter name. *)
Inductive pkey : Type :=
| KInt (i : Z)
| KStr (s : string).

#[global] Instance pkey_eq_dec : EqDecision pkey.
Proof. solve_decision. Defined.

(** Modelled from the spec: the module [abstract] is not part of the sources;
    its value kinds are those of section 3.2 of the specification, taken as a
    tagged union (section 9), each with the attributes the matcher reads.
    [aParameterizedClass] and [aTupleClass] are also instances of [Class],
    [aTupleClass] of [ParameterizedClass], [aTuple] of [SimpleAbstractValue];
    [id] stands for the identity of a class object ([is]). *)
Inductive Value : Type :=
| aEmpty
| aUnknown
| aUnsolvable
| aNothing
| aTypeParameter (name : string)
| aUnion (options : list Value)
| aClass (id : nat) (full_name : string) (mro : list Value) (cls : option var)
| aParameterizedClass (id : nat) (full_name : string) (mro : list Value)
    (cls : option var) (base_cls : Value)
    (type_parameters : list (pkey * Value)) (template : list string)
| aTupleClass (id : nat) (full_name : string) (mro : list Value)
    (cls : option var) (base_cls : Value)
    (type_parameters : list (pkey * Value)) (template : list string)
| aModule
| aSimpleAbstractValue (cls : option var) (type_parameters : list (string * var))
| aTuple (cls : option var) (type_parameters : list (string * var))
    (pyval : list var)
| aSuperInstance (super_cls super_obj : Value)
| aFunction
| aBoundFunction
| aClassMethod
| aStaticMethod
| aOther.

(** [isinstance] against the classes the matcher tests. *)
Definition is_Class (v : Value) : bool :=
  match v with
  | aClass _ _ _ _ | aParameterizedClass _ _ _ _ _ _ _
  | aTupleClass _ _ _ _ _ _ _ => true
  | _ => false
  end.

Definition is_ParameterizedClass (v : Value) : bool :=
  match v with
  | aParameterizedClass _ _ _ _ _ _ _ | aTupleClass _ _ _ _ _ _ _ => true
  | _ => false
  end.

Definition is_TupleClass (v : Value) : bool :=
  match v with aTupleClass _ _ _ _ _ _ _ => true | _ => false end.

Definition is_Union (v : Value) : bool :=
  match v with aUnion _ => true | _ => false end.

Definition is_TypeParameter (v : Value) : bool :=
  match v with aTypeParameter _ => true | _ => false end.

Definition is_Nothing (v : Value) : bool :=
  match v with aNothing => true | _ => false end.

Definition is_Empty (v : Value) : bool :=
  match v with aEmpty => true | _ => false end.

(** [isinstance(v, (abstract.Unknown, abstract.Unsolvable))] *)
Definition is_Unknown_or_Unsolvable (v : Value) : bool :=
  match v with aUnknown | aUnsolvable => true | _ => false end.

Definition is_Unsolvable (v : Value) : bool :=
  match v with aUnsolvable => true | _ => false end.

(** [abstract.AMBIGUOUS_OR_EMPTY] *)
Definition is_AMBIGUOUS_OR_EMPTY (v : Value) : bool :=
  match v with aUnknown | aUnsolvable | aEmpty => true | _ => false end.

Definition is_SimpleAbstractValue (v : Value) : bool :=
  match v with aSimpleAbstractValue _ _ | aTuple _ _ _ => true | _ => false end.

Definition is_Tuple (v : Value) : bool :=
  match v with aTuple _ _ _ => true | _ => false end.

Definition is_Module (v : Value) : bool :=
  match v with aModule => true | _ => false end.

Definition is_SuperInstance (v : Value) : bool :=
  match v with aSuperInstance _ _ => true | _ => false end.

(** [isinstance(v, (abstract.Function, abstract.BoundFunction))] *)
Definition is_Function_or_BoundFunction (v : Value) : bool :=
  match v with aFunction | aBoundFunction => true | _ => false end.

Definition is_ClassMethod (v : Value) : bool :=
  match v with aClassMethod => true | _ => false end.

Definition is_StaticMethod (v : Value) : bool :=
  match v with aStaticMethod => true | _ => false end.

(** Attributes; [None] where the value has no such attribute. *)
Definition name (v : Value) : option string :=
  match v with aTypeParameter n => Some n | _ => None end.

Definition options (v : Value) : option (list Value) :=
  match v with aUnion l => Some l | _ => None end.

Definition super_cls (v : Value) : option Value :=
  match v with aSuperInstance c _ => Some c | _ => None end.

Definition super_obj (v : Value) : option Value :=
  match v with aSuperInstance _ o => Some o | _ => None end.

(** Modelled from the spec: the module [abstract] is not part of the
    sources.  A class has the full name it was given; the bottom value
    [Nothing] is named [nothing], as the bottom type is in pytd. *)
Definition full_name (v : Value) : option string :=
  match v with
  | aClass _ n _ _ | aParameterizedClass _ n _ _ _ _ _
  | aTupleClass _ n _ _ _ _ _ => Some n
  | aNothing => Some "nothing"
  | _ => None
  end.

Definition mro (v : Value) : option (list Value) :=
  match v with
  | aClass _ _ m _ | aParameterizedClass _ _ m _ _ _ _
  | aTupleClass _ _ m _ _ _ _ => Some m
  | _ => None
  end.

Definition base_cls (v : Value) : option Value :=
  match v with
  | aParameterizedClass _ _ _ _ b _ _ | aTupleClass _ _ _ _ b _ _ => Some b
  | _ => None
  end.

Definition type_parameters (v : Value) : option (list (pkey * Value)) :=
  match v with
  | aParameterizedClass _ _ _ _ _ ps _ | aTupleClass _ _ _ _ _ ps _ => Some ps
  | _ => None
  end.

Definition template (v : Value) : option (list string) :=
  match v with
  | aParameterizedClass _ _ _ _ _ _ t | aTupleClass _ _ _ _ _ _ t => Some t
  | _ => None
  end.

(** [v.cls] and [v.get_class()]: the variable holding the classes of [v]. *)
Definition get_class (v : Value) : option var :=
  match v with
  | aClass _ _ _ c | aParameterizedClass _ _ _ c _ _ _
  | aTupleClass _ _ _ c _ _ _ => c
  | aSimpleAbstractValue c _ | aTuple c _ _ => c
  | _ => None
  end.

(** [instance.type_parameters], of an instance. *)
Definition instance_type_parameters (v : Value) : option (list (string * var)) :=
  match v with
  | aSimpleAbstractValue _ ps | aTuple _ ps _ => Some ps
  | _ => None
  end.

Definition pyval (v : Value) : option (list var) :=
  match v with aTuple _ _ l => Some l | _ => None end.

(** [a is b], on class objects. *)
Definition oid (v : Value) : option nat :=
  match v with
  | aClass i _ _ _ | aParameterizedClass i _ _ _ _ _ _
  | aTupleClass i _ _ _ _ _ _ => Some i
  | _ => None
  end.

Definition is_ (a b : Value) : bool :=
  match oid a, oid b with
  | Some i, Some j => Nat.eqb i j
  | _, _ => false
  end.

(** A dictionary lookup [d[k]] on an association list. *)
Fixpoint assoc {K V : Type} `{EqDecision K} (k : K) (d : list (K * V)) : option V :=
  match d with
  | [] => None
  | (k', v) :: d' => if decide (k = k') then Some v else assoc k d'
  end.

(** ** The store: variables, bindings and substitution dictionaries *)

(** A [cfg.Binding]: one candidate value of a variable.  [b_id] is the
    identity of the binding object, [sources] the bindings recorded as its
    justification. *)
Record Binding : Type := mkBinding {
  b_id : nat;
  variable : var;
  data : Value;
  sources : list nat
}.

Record Heap : Type := mkHeap {
  bindings_of : gmap var (list Binding);
  next_var : nat;
  next_binding : nat
}.

(** A view pins one binding per variable. *)
Abbreviation View := (gmap var Binding).

(** A substitution is a Python [dict] from parameter names to variables.  It
    is passed by reference: [dicts] holds the contents of every dictionary
    allocated so far, [next_dict] is the next free reference. *)
Record State : Type := mkState {
  heap : Heap;
  dicts : gmap nat (gmap string var);
  next_dict : nat;
  log : list string
}.

(** The value of a [subst] variable: [None] or a reference to a dictionary. *)
Abbreviation PySubst := (option nat).

(** Computations: they read and update the store and return or raise. *)
Definition M (A : Type) : Type := State → outcome A * State.

Definition ret {A} (a : A) : M A := fun st => (Ret a, st).
Definition raise {A} (e : exn) : M A := fun st => (Raise e, st).
Definition bind {A B} (m : M A) (k : A → M B) : M B :=
  fun st =>
    match m st with
    | (Ret a, st') => k a st'
    | (Raise e, st') => (Raise e, st')
    end.

Notation "x <- c1 ;; c2" := (bind c1 (fun x => c2))
  (at level 100, c1 at next level, right associativity).
Notation "c1 ;;; c2" := (bind c1 (fun _ => c2))
  (at level 100, right associativity).

(** [o] when the attribute or key exists, the exception [e] otherwise. *)
Definition get_or {A} (e : exn) (o : option A) : M A :=
  match o with
  | Some a => ret a
  | None => raise e
  end.

Definition assert (b : bool) : M unit :=
  if b then ret tt else raise AssertionError.

(** *** Dictionaries *)

(** [subst.copy()] *)
Definition dict_copy (subst : PySubst) : M PySubst :=
  match subst with
  | None => raise AttributeError
  | Some r => fun st =>
      (Ret (Some (next_dict st)),
       mkState (heap st) (<[next_dict st := dicts st !!! r]> (dicts st))
               (S (next_dict st)) (log st))
  end.

(** [name in subst] *)
Definition dict_contains (name : string) (subst : PySubst) : M bool :=
  match subst with
  | None => raise TypeError
  | Some r => fun st =>
      (Ret (bool_decide (is_Some ((dicts st !!! r : gmap string var) !! name))), st)
  end.

(** [subst[name]] *)
Definition dict_getitem (subst : PySubst) (name : string) : M var :=
  match subst with
  | None => raise TypeError
  | Some r => fun st =>
      match (dicts st !!! r : gmap string var) !! name with
      | Some v => (Ret v, st)
      | None => (Raise KeyError, st)
      end
  end.

(** [subst[name] = v] *)
Definition dict_setitem (subst : PySubst) (name : string) (v : var) : M unit :=
  match subst with
  | None => raise TypeError
  | Some r => fun st =>
      (Ret tt,
       mkState (heap st) (<[r := <[name := v]> (dicts st !!! r)]> (dicts st))
               (next_dict st) (log st))
  end.

(** [{}] *)
Definition dict_new : M PySubst := fun st =>
  (Ret (Some (next_dict st)),
   mkState (heap st) (<[next_dict st := ∅]> (dicts st)) (S (next_dict st))
           (log st)).

(** [utils.HashableDict(subst)]: a snapshot of the entries. *)
Definition HashableDict (subst : PySubst) : M (gmap string var) :=
  match subst with
  | None => raise TypeError
  | Some r => fun st => (Ret (dicts st !!! r), st)
  end.

(** [log.error(...)] *)
Definition log_error (msg : string) : M unit := fun st =>
  (Ret tt, mkState (heap st) (dicts st) (next_dict st) (log st ++ [msg])).

(** *** Variables *)

(** An operation of the value model: it works on the heap only. *)
Definition on_heap {A} (f : Heap → A * Heap) : M A := fun st =>
  let '(a, h) := f (heap st) in
  (Ret a, mkState h (dicts st) (next_dict st) (log st)).

(** [var.bindings] *)
Definition bindings (v : var) : M (list Binding) := fun st =>
  (Ret (bindings_of (heap st) !!! v), st).

(** Modelled from the spec: the module [cfg] is not part of the sources.
    [program.NewVariable()] creates a variable with no binding. *)
Definition NewVariable : M var :=
  on_heap (fun h =>
    (next_var h,
     mkHeap (<[next_var h := []]> (bindings_of h)) (S (next_var h))
            (next_binding h))).

(** Modelled from the spec: [v.AddBinding(data, source_set, node)] adds to
    the variable [v] a binding of [data] with the recorded justification
    set. *)
Definition AddBinding (v : var) (d : Value) (source_set : list nat) : M unit :=
  on_heap (fun h =>
    (tt,
     mkHeap (<[v := bindings_of h !!! v
                     ++ [mkBinding (next_binding h) v d source_set]]>
               (bindings_of h))
            (next_var h) (S (next_binding h)))).

Fixpoint add_all (new_var : var) (bs : list Binding) : M unit :=
  match bs with
  | [] => ret tt
  | b :: bs' => AddBinding new_var (data b) [b_id b] ;;; add_all new_var bs'
  end.

(** Modelled from the spec: [v.AssignToNewVariable(node)] on a variable
    assigns each of its values to a fresh variable. *)
Definition Variable_AssignToNewVariable (v : var) : M var :=
  bs <- bindings v ;;
  new_var <- NewVariable ;;
  add_all new_var bs ;;;
  ret new_var.

(** Modelled from the spec: [value.AssignToNewVariable(node)] on a binding
    assigns its value to a fresh variable. *)
Definition Binding_AssignToNewVariable (value : Binding) : M var :=
  new_var <- NewVariable ;;
  AddBinding new_var (data value) [b_id value] ;;;
  ret new_var.

(** [view[v]] *)
Definition view_getitem (view : View) (v : var) : M Binding :=
  get_or KeyError (view !! v).

(** The values a variable holds: the data of its bindings. *)
Definition values_of (st : State) (v : var) : list Value :=
  data <$> (bindings_of (heap st) !!! v).

(** From [st] to [st'] the values [ds] were added to the variable [v], and
    nothing else changed. *)
Definition appended (v : var) (ds : list Value) (st st' : State) : Prop :=
  dicts st' = dicts st ∧ next_dict st' = next_dict st ∧ log st' = log st
  ∧ next_var (heap st') = next_var (heap st)
  ∧ values_of st' v = values_of st v ++ ds
  ∧ ∀ u, u ≠ v → bindings_of (heap st') !!! u = bindings_of (heap st) !!! u.

(** From [st] to [st'] no dictionary was freed and the dictionaries with a
    reference below [b] have the entries they had. *)
Definition kept_below (b : nat) (st st' : State) : Prop :=
  (next_dict st ≤ next_dict st')%nat
  ∧ ∀ a, (a < b)%nat → dicts st' !! a = dicts st !! a.

(** Run from a store in which the references below [b] are allocated, the
    computation [m] keeps the dictionaries below [b], and a value it returns
    satisfies [Q]. *)
Definition keeps {A} (b : nat) (m : M A) (Q : A → Prop) : Prop :=
  ∀ st, (b ≤ next_dict st)%nat →
    kept_below b st (m st).2 ∧ ∀ a, (m st).1 = Ret a → Q a.

(** *** Runs of a loop *)

(** Each call [f x], for the [x] of the list in order, returns [None]; the
    last argument is the store the calls leave. *)
Inductive all_fail {A} (f : A → M PySubst) : list A → State → State → Prop :=
| all_fail_nil st : all_fail f [] st st
| all_fail_cons x l st st1 st' :
    f x st = (Ret None, st1) →
    all_fail f l st1 st' →
    all_fail f (x :: l) st st'.

(** Each call [f x subst], for the [x] of the list in order, returns a
    substitution, which is the one given to the next call. *)
Inductive all_match {A} (f : A → PySubst → M PySubst)
  : list A → PySubst → State → PySubst → State → Prop :=
| all_match_nil subst st : all_match f [] subst st subst st
| all_match_cons x l subst st r st1 subst' st' :
    f x subst st = (Ret (Some r), st1) →
    all_match f l (Some r) st1 subst' st' →
    all_match f (x :: l) subst st subst' st'.

(** ** The external collaborators *)

(** The operations of the value and view model that the matcher calls and
    the constants it reads; they are parameters of the matcher. *)
Record External : Type := mkExternal {
  TypeKey : Type;
  TypeKey_eq_dec : EqDecision TypeKey;
  CFGNode : Type;
  (* [left.formal] *)
  formal : Value → bool;
  (* [left.get_type_key()] *)
  get_type_key : Value → TypeKey;
  (* [left.instantiate(node)] *)
  instantiate : Value → CFGNode → Heap → var * Heap;
  (* [abstract.get_views(variables, node)] *)
  get_views : list var → CFGNode → Heap → list View * Heap;
  (* [instance.get_type_parameter(node, name)] *)
  get_type_parameter : Value → CFGNode → string → Heap → var * Heap;
  (* [pep484.COMPAT_MAP] *)
  COMPAT_MAP : gmap string string;
  (* [abstract.T] *)
  T : string
}.
#[global] Existing Instance TypeKey_eq_dec.

(** ** The matcher *)

Section AbstractMatcher.

Context (ext : External).

Abbreviation CFGNode := (CFGNode ext).

(** The methods of [AbstractMatcher] that call each other.  A method body
    below takes [self], the object its calls go to. *)
Record Methods : Type := mkMethods {
  match_var_against_type :
    var → Value → PySubst → CFGNode → View → M PySubst;
  _match_value_against_type :
    Binding → Value → PySubst → CFGNode → View → M PySubst;
  _match_type_against_type :
    Value → Value → PySubst → CFGNode → View → M PySubst;
  _instantiate_and_match :
    Value → Value → PySubst → CFGNode → View → M PySubst;
  _match_instance_against_type :
    Value → Value → PySubst → CFGNode → View → M PySubst;
  _match_instance :
    Value → Value → Value → PySubst → CFGNode → View → M PySubst;
  _match_maybe_parameterized_instance :
    Value → Value → Value → PySubst → CFGNode → View → M PySubst;
  _match_heterogeneous_tuple_instance :
    Value → Value → Value → PySubst → CFGNode → View → M PySubst;
  _match_class_and_instance_against_type :
    Value → Value → Value → PySubst → CFGNode → View → M PySubst
}.

(** [for x in l: new_subst = f(x); if new_subst is not None: return new_subst]
    and [None] when the loop ends. *)
Fixpoint first_match {A} (f : A → M PySubst) (l : list A) : M PySubst :=
  match l with
  | [] => ret None
  | x :: l' =>
      new_subst <- f x ;;
      match new_subst with
      | Some _ => ret new_subst
      | None => first_match f l'
      end
  end.

(** [for x in l: subst = f(x, subst); if subst is None: return None] and
    [subst] when the loop ends. *)
Fixpoint thread {A} (f : A → PySubst → M PySubst) (l : list A)
    (subst : PySubst) : M PySubst :=
  match l with
  | [] => ret subst
  | x :: l' =>
      subst <- f x subst ;;
      match subst with
      | None => ret None
      | Some _ => thread f l' subst
      end
  end.

Definition in_list (s : string) (l : list string) : bool := bool_decide (s ∈ l).

(** *** [match_var_against_type] *)

(** The loop over [right_side_options] of the empty variable. *)
Fixpoint match_nothing (right_side_options : list Value) (subst : PySubst)
    : M PySubst :=
  match right_side_options with
  | [] => ret subst
  | right_ :: rest =>
      if is_TypeParameter right_ then
        right_name <- get_or AttributeError (name right_) ;;
        bound <- dict_contains right_name subst ;;
        if negb bound then
          subst <- dict_copy subst ;;
          v <- NewVariable ;;
          dict_setitem subst right_name v ;;;
          match_nothing rest subst
        else match_nothing rest subst
      else match_nothing rest subst
  end.

Definition match_var_against_type_def (self : Methods)
    (v : var) (other_type : Value) (subst : PySubst) (node : CFGNode)
    (view : View) : M PySubst :=
  bs <- bindings v ;;
  match bs with
  | _ :: _ =>
      value <- view_getitem view v ;;
      _match_value_against_type self value other_type subst node view
  | [] =>
      (* Empty set of values. The "nothing" type. *)
      right_side_options <-
        (if is_Union other_type then get_or AttributeError (options other_type)
         else ret [other_type]) ;;
      match_nothing right_side_options subst
  end.

(** *** [_match_value_against_type] *)

(** [for other_value in value.variable.bindings: ...] *)
Fixpoint add_same_type_key (new_var : var) (value : Binding)
    (type_key : TypeKey ext) (others : list Binding) : M unit :=
  match others with
  | [] => ret tt
  | other_value :: rest =>
      (if negb (Nat.eqb (b_id other_value) (b_id value)) then
         if bool_decide (get_type_key ext (data other_value) = type_key) then
           AddBinding new_var (data other_value) [b_id other_value]
         else ret tt
       else ret tt) ;;;
      add_same_type_key new_var value type_key rest
  end.

Definition _match_value_against_type_def (self : Methods)
    (value : Binding) (other_type : Value) (subst : PySubst) (node : CFGNode)
    (view : View) : M PySubst :=
  let left := data value in
  assert (negb (formal ext left)) ;;;
  if is_Class other_type then
    _match_type_against_type self left other_type subst node view
  else if is_Union other_type then
    ts <- get_or AttributeError (options other_type) ;;
    first_match
      (fun t => _match_value_against_type self value t subst node view) ts
  else if is_TypeParameter other_type then
    other_name <- get_or AttributeError (name other_type) ;;
    bound <- dict_contains other_name subst ;;
    new <-
      (if bound then
         (* Merge the two variables. *)
         subst <- dict_copy subst ;;
         old_var <- dict_getitem subst other_name ;;
         new_var <- Variable_AssignToNewVariable old_var ;;
         AddBinding new_var left [] ;;;
         dict_setitem subst other_name new_var ;;;
         ret (subst, new_var)
       else
         subst <- dict_copy subst ;;
         new_var <- Binding_AssignToNewVariable value ;;
         dict_setitem subst other_name new_var ;;;
         ret (subst, new_var)) ;;
    let '(subst, new_var) := new in
    let type_key := get_type_key ext left in
    others <- bindings (variable value) ;;
    add_same_type_key new_var value type_key others ;;;
    ret subst
  else if is_Unknown_or_Unsolvable other_type
          || is_Unknown_or_Unsolvable left then
    assert (negb (is_ParameterizedClass other_type)) ;;;
    ret subst
  else if is_Nothing other_type then
    _match_type_against_type self left other_type subst node view
  else
    log_error "Invalid type" ;;;
    ret None.

(** *** [_match_type_against_type] *)

Definition _match_type_against_type_def (self : Methods)
    (left other_type : Value) (subst : PySubst) (node : CFGNode)
    (view : View) : M PySubst :=
  if is_Empty left && is_Nothing other_type then ret subst
  else if is_AMBIGUOUS_OR_EMPTY left then
    _match_instance self other_type left other_type subst node view
  else if is_Class left then
    other_name <- get_or AttributeError (full_name other_type) ;;
    if String.eqb other_name "__builtin__.type"
       && is_ParameterizedClass other_type then
      ps <- get_or AttributeError (type_parameters other_type) ;;
      other_type <- get_or KeyError (assoc (KStr (T ext)) ps) ;;
      _instantiate_and_match self left other_type subst node view
    else if in_list other_name
              ["__builtin__.type"; "__builtin__.object"; "typing.Callable"] then
      ret subst
    else if bool_decide (is_Some (get_class left)) then
      _match_instance_against_type self left other_type subst node view
    else ret None
  else if is_Module left then
    other_name <- get_or AttributeError (full_name other_type) ;;
    if in_list other_name
         ["__builtin__.module"; "__builtin__.object"; "types.ModuleType"] then
      ret subst
    else ret None
  else if is_SimpleAbstractValue left then
    _match_instance_against_type self left other_type subst node view
  else if is_SuperInstance left then
    c <- get_or AttributeError (super_cls left) ;;
    o <- get_or AttributeError (super_obj left) ;;
    _match_class_and_instance_against_type self c o other_type subst node view
  else if is_Function_or_BoundFunction left then
    other_name <- get_or AttributeError (full_name other_type) ;;
    if in_list other_name ["__builtin__.object"; "typing.Callable"] then
      ret subst
    else ret None
  else if is_ClassMethod left then
    other_name <- get_or AttributeError (full_name other_type) ;;
    if in_list other_name ["__builtin__.classmethod"; "__builtin__.object"] then
      ret subst
    else ret None
  else if is_StaticMethod left then
    other_name <- get_or AttributeError (full_name other_type) ;;
    if in_list other_name ["__builtin__.staticmethod"; "__builtin__.object"] then
      ret subst
    else ret None
  else if is_Nothing left then
    if is_Nothing other_type then ret subst else ret None
  else if is_Union left then
    os <- get_or AttributeError (options left) ;;
    first_match
      (fun o => _match_type_against_type self o other_type subst node view) os
  else raise NotImplementedError.

(** *** [_instantiate_and_match] *)

Definition _instantiate_and_match_def (self : Methods)
    (left other_type : Value) (subst : PySubst) (node : CFGNode)
    (view : View) : M PySubst :=
  instance <- on_heap (instantiate ext left node) ;;
  views <- on_heap (get_views ext [instance] node) ;;
  first_match
    (fun new_view : View =>
       (* new_view.update(view): the entries of the old view win. *)
       let new_view := view ∪ new_view in
       match_var_against_type self instance other_type subst node new_view)
    views.

(** *** [_match_instance_against_type] *)

Definition _match_instance_against_type_def (self : Methods)
    (left other_type : Value) (subst : PySubst) (node : CFGNode)
    (view : View) : M PySubst :=
  left_type <- get_or AssertionError (get_class left) ;;
  bs <- bindings left_type ;;
  first_match
    (fun left_cls =>
       _match_class_and_instance_against_type
         self left_cls left other_type subst node view)
    (data <$> bs).

(** *** [_match_instance] *)

Definition _match_instance_def (self : Methods)
    (left instance other_type : Value) (subst : PySubst) (node : CFGNode)
    (view : View) : M PySubst :=
  subst <-
    (if is_TupleClass left || is_Tuple instance || is_TupleClass other_type
     then _match_heterogeneous_tuple_instance
            self left instance other_type subst node view
     else ret subst) ;;
  _match_maybe_parameterized_instance
    self left instance other_type subst node view.

(** *** [_match_maybe_parameterized_instance] *)

(** [for type_param in left.template: ...]; the loop rebinds [subst] and
    [view]. *)
Fixpoint match_template (self : Methods) (left instance other_type : Value)
    (node : CFGNode) (names : list string) (subst : PySubst) (view : View)
    : M PySubst :=
  match names with
  | [] => ret subst
  | type_param_name :: rest =>
      ops <- get_or AttributeError (type_parameters other_type) ;;
      class_param <- get_or KeyError (assoc (KStr type_param_name) ops) ;;
      instance_param <-
        on_heap (get_type_parameter ext instance node type_param_name) ;;
      lps <- get_or AttributeError (type_parameters left) ;;
      instance_type_param <- get_or KeyError (assoc (KStr type_param_name) lps) ;;
      bs <- bindings instance_param ;;
      instance_param <-
        (if bool_decide (bs = [] :> list Binding)
            && is_TypeParameter instance_type_param
            && negb (bool_decide (name instance_type_param
                                  = Some type_param_name)) then
           (* This type parameter was renamed! *)
           renamed <- get_or AttributeError (name instance_type_param) ;;
           on_heap (get_type_parameter ext instance node renamed)
         else ret instance_param) ;;
      bs <- bindings instance_param ;;
      view <-
        (if negb (bool_decide (bs = [] :> list Binding))
            && negb (bool_decide (is_Some (view !! instance_param))) then
           binding <- match bs with
                      | [b] => ret b
                      | _ => raise ValueError
                      end ;;
           assert (is_Unsolvable (data binding)) ;;;
           ret (<[instance_param := binding]> view)
         else ret view) ;;
      subst <- match_var_against_type
                 self instance_param class_param subst node view ;;
      match subst with
      | None => ret None
      | Some _ =>
          match_template self left instance other_type node rest subst view
      end
  end.

Definition _match_maybe_parameterized_instance_def (self : Methods)
    (left instance other_type : Value) (subst : PySubst) (node : CFGNode)
    (view : View) : M PySubst :=
  if is_ParameterizedClass other_type then
    left <-
      (if is_ParameterizedClass left then
         lb <- get_or AttributeError (base_cls left) ;;
         ob <- get_or AttributeError (base_cls other_type) ;;
         assert (is_ lb ob) ;;;
         ret left
       else
         ob <- get_or AttributeError (base_cls other_type) ;;
         assert (is_ left ob) ;;;
         ret other_type) ;;
    names <- get_or AttributeError (template left) ;;
    match_template self left instance other_type node names subst view
  else ret subst.

(** *** [_match_heterogeneous_tuple_instance] *)

(** [for i in range(len(instance.pyval)): ...], from index [i] on. *)
Fixpoint match_slots (self : Methods) (class_params : list (pkey * Value))
    (node : CFGNode) (view : View) (i : nat) (instance_params : list var)
    (subst : PySubst) : M PySubst :=
  match instance_params with
  | [] => ret subst
  | instance_param :: rest =>
      class_param <-
        get_or KeyError (assoc (KInt (Z.of_nat i)) class_params) ;;
      subst <- match_var_against_type
                 self instance_param class_param subst node view ;;
      match subst with
      | None => ret None
      | Some _ => match_slots self class_params node view (S i) rest subst
      end
  end.

Definition _match_heterogeneous_tuple_instance_def (self : Methods)
    (left instance other_type : Value) (subst : PySubst) (node : CFGNode)
    (view : View) : M PySubst :=
  if is_Tuple instance then
    if is_TupleClass other_type then
      instance_pyval <- get_or AttributeError (pyval instance) ;;
      ps <- get_or AttributeError (type_parameters other_type) ;;
      if (Z.of_nat (length instance_pyval) =? Z.of_nat (length ps) - 1)%Z then
        match_slots self ps node view 0 instance_pyval subst
      else ret None
    else if is_ParameterizedClass other_type then
      ps <- get_or AttributeError (type_parameters other_type) ;;
      class_param <- get_or KeyError (assoc (KStr (T ext)) ps) ;;
      instance_pyval <- get_or AttributeError (pyval instance) ;;
      thread
        (fun instance_param subst =>
           match_var_against_type
             self instance_param class_param subst node view)
        instance_pyval subst
    else ret subst
  else if is_TupleClass left then
    (* We have an instance of a subclass of tuple. *)
    _instantiate_and_match self left other_type subst node view
  else
    assert (is_TupleClass other_type) ;;;
    if is_SimpleAbstractValue instance then
      ips <- get_or AttributeError (instance_type_parameters instance) ;;
      instance_param <- get_or KeyError (assoc (T ext) ips) ;;
      ps <- get_or AttributeError (type_parameters other_type) ;;
      thread
        (fun (i : nat) subst =>
           class_param <- get_or KeyError (assoc (KInt (Z.of_nat i)) ps) ;;
           match_var_against_type
             self instance_param class_param subst node view)
        (seq 0 (Z.to_nat (Z.of_nat (length ps) - 1))) subst
    else ret subst.

(** *** [_match_from_mro] *)

(** [for base in left.mro: ...] *)
Fixpoint mro_walk (other_type : Value) (bases : list Value)
    : outcome (option Value) :=
  match bases with
  | [] => Ret None
  | base :: rest =>
      match (if is_ParameterizedClass base then base_cls base else Some base)
      with
      | None => Raise AttributeError
      | Some base_cls =>
          if is_Class base_cls then
            if is_ other_type base_cls
               || (is_ParameterizedClass other_type
                   && match Matcher.base_cls other_type with
                      | Some b => is_ b base_cls
                      | None => false
                      end)
            then Ret (Some base)
            else mro_walk other_type rest
          else if is_AMBIGUOUS_OR_EMPTY base_cls then
            mro_walk other_type rest
          else Raise AssertionError
      end
  end.

Definition _match_from_mro (left other_type : Value) : outcome (option Value) :=
  match mro left with
  | Some bases => mro_walk other_type bases
  | None => Raise AttributeError
  end.

Definition lift {A} (o : outcome A) : M A := fun st => (o, st).

(** *** [_match_class_and_instance_against_type] *)

(** [{"__builtin__." + k: "__builtin__." + v
      for k, v in pep484.COMPAT_MAP.iteritems()}] *)
Definition compatible_builtins : gmap string string :=
  list_to_map
    ((fun kv : string * string =>
        ("__builtin__." +:+ kv.1, "__builtin__." +:+ kv.2))
       <$> map_to_list (COMPAT_MAP ext)).

Definition _match_class_and_instance_against_type_def (self : Methods)
    (left instance other_type : Value) (subst : PySubst) (node : CFGNode)
    (view : View) : M PySubst :=
  other_name <- get_or AttributeError (full_name other_type) ;;
  if String.eqb other_name "__builtin__.object" then ret subst
  else
    left_name <- get_or AttributeError (full_name left) ;;
    if bool_decide (compatible_builtins !! left_name = Some other_name) then
      ret subst
    else if is_Class other_type then
      base <- lift (_match_from_mro left other_type) ;;
      match base with
      | None => ret None
      | Some base =>
          _match_instance self base instance other_type subst node view
      end
    else if is_Nothing other_type then ret None
    else raise NotImplementedError.

(** *** The methods at a bounded depth of nested calls *)

Definition exhausted : Methods :=
  {| match_var_against_type := fun _ _ _ _ _ => raise RecursionLimit;
     _match_value_against_type := fun _ _ _ _ _ => raise RecursionLimit;
     _match_type_against_type := fun _ _ _ _ _ => raise RecursionLimit;
     _instantiate_and_match := fun _ _ _ _ _ => raise RecursionLimit;
     _match_instance_against_type := fun _ _ _ _ _ => raise RecursionLimit;
     _match_instance := fun _ _ _ _ _ _ => raise RecursionLimit;
     _match_maybe_parameterized_instance :=
       fun _ _ _ _ _ _ => raise RecursionLimit;
     _match_heterogeneous_tuple_instance :=
       fun _ _ _ _ _ _ => raise RecursionLimit;
     _match_class_and_instance_against_type :=
       fun _ _ _ _ _ _ => raise RecursionLimit |}.

(** [AbstractMatcher(depth)]: the matcher whose calls nest at most [depth]
    deep; a deeper call raises [RecursionLimit]. *)
Fixpoint AbstractMatcher (depth : nat) : Methods :=
  match depth with
  | 0 => exhausted
  | S d =>
      let self := AbstractMatcher d in
      {| match_var_against_type := match_var_against_type_def self;
         _match_value_against_type := _match_value_against_type_def self;
         _match_type_against_type := _match_type_against_type_def self;
         _instantiate_and_match := _instantiate_and_match_def self;
         _match_instance_against_type := _match_instance_against_type_def self;
         _match_instance := _match_instance_def self;
         _match_maybe_parameterized_instance :=
           _match_maybe_parameterized_instance_def self;
         _match_heterogeneous_tuple_instance :=
           _match_heterogeneous_tuple_instance_def self;
         _match_class_and_instance_against_type :=
           _match_class_and_instance_against_type_def self |}
  end.

(** *** [compute_subst] *)

(** [for name, formal in formal_args: ...] and the final
    [return utils.HashableDict(subst), None]. *)
Fixpoint compute_subst_loop (self : Methods) (node : CFGNode)
    (formal_args : list (string * Value)) (arg_dict : gmap string Binding)
    (view : View) (subst : PySubst)
    : M (option (gmap string var) * option string) :=
  match formal_args with
  | [] => d <- HashableDict subst ;; ret (Some d, None)
  | (name, formal) :: rest =>
      actual <- get_or KeyError (arg_dict !! name) ;;
      subst <- _match_value_against_type self actual formal subst node view ;;
      match subst with
      | None => ret (None, Some name)
      | Some _ => compute_subst_loop self node rest arg_dict view subst
      end
  end.

Definition compute_subst (self : Methods) (node : CFGNode)
    (formal_args : list (string * Value)) (arg_dict : gmap string Binding)
    (view : View) : M (option (gmap string var) * option string) :=
  if Nat.eqb (size arg_dict) 0 then
    (* A call with no arguments always succeeds. *)
    assert (bool_decide (formal_args = [] :> list (string * Value))) ;;;
    ret (Some ∅, None)
  else
    subst <- dict_new ;;
    compute_subst_loop self node formal_args arg_dict view subst.

(** [other_type.options if isinstance(other_type, abstract.Union)
     else [other_type]] *)
Definition right_side_options (other_type : Value) : list Value :=
  match other_type with
  | aUnion l => l
  | _ => [other_type]
  end.

(** The body of the loop of [compute_subst] for one (name, formal) pair:
    [self._match_value_against_type(arg_dict[name], formal, subst, ...)]. *)
Definition match_pair (self : Methods) (node : CFGNode)
    (arg_dict : gmap string Binding) (view : View)
    (pair : string * Value) (subst : PySubst) : M PySubst :=
  actual <- get_or KeyError (arg_dict !! pair.1) ;;
  _match_value_against_type self actual pair.2 subst node view.

(** The body of the loop over the slots of a tuple for the element [i]:
    [self.match_var_against_type(instance.pyval[i],
                                 other_type.type_parameters[i], subst, ...)]. *)
Definition match_slot (self : Methods) (class_params : list (pkey * Value))
    (node : CFGNode) (view : View) (slot : nat * var) (subst : PySubst)
    : M PySubst :=
  class_param <-
    get_or KeyError (assoc (KInt (Z.of_nat slot.1)) class_params) ;;
  match_var_against_type self slot.2 class_param subst node view.

End AbstractMatcher.

(** Every method of [self] keeps the dictionaries that exist when it is
    called. *)
Record Keeps {ext : External} (self : Methods ext) : Prop := mkKeeps {
  keeps_match_var_against_type : ∀ b v t s n vw,
    keeps b (match_var_against_type ext self v t s n vw) (fun _ => True);
  keeps__match_value_against_type : ∀ b x t s n vw,
    keeps b (_match_value_against_type ext self x t s n vw) (fun _ => True);
  keeps__match_type_against_type : ∀ b l t s n vw,
    keeps b (_match_type_against_type ext self l t s n vw) (fun _ => True);
  keeps__instantiate_and_match : ∀ b l t s n vw,
    keeps b (_instantiate_and_match ext self l t s n vw) (fun _ => True);
  keeps__match_instance_against_type : ∀ b l t s n vw,
    keeps b (_match_instance_against_type ext self l t s n vw) (fun _ => True);
  keeps__match_instance : ∀ b l i t s n vw,
    keeps b (_match_instance ext self l i t s n vw) (fun _ => True);
  keeps__match_maybe_parameterized_instance : ∀ b l i t s n vw,
    keeps b (_match_maybe_parameterized_instance ext self l i t s n vw)
      (fun _ => True);
  keeps__match_heterogeneous_tuple_instance : ∀ b l i t s n vw,
    keeps b (_match_heterogeneous_tuple_instance ext self l i t s n vw)
      (fun _ => True);
  keeps__match_class_and_instance_against_type : ∀ b l i t s n vw,
    keeps b (_match_class_and_instance_against_type ext self l i t s n vw)
      (fun _ => True)
}.


(** [m'] does what [m] does, unless [m] exhausts the bound on nested
    calls. *)
Definition refines {A} (m m' : M A) : Prop :=
  ∀ st, (m st).1 ≠ Raise RecursionLimit → m' st = m st.

(** Every method of [self'] does what the method of [self] does, unless
    that one exhausts the bound on nested calls. *)
Record Refines {ext : External} (self self' : Methods ext) : Prop := mkRefines {
  refines_match_var_against_type : ∀ v t s n vw,
    refines (match_var_against_type ext self v t s n vw)
      (match_var_against_type ext self' v t s n vw);
  refines__match_value_against_type : ∀ x t s n vw,
    refines (_match_value_against_type ext self x t s n vw)
      (_match_value_against_type ext self' x t s n vw);
  refines__match_type_against_type : ∀ l t s n vw,
    refines (_match_type_against_type ext self l t s n vw)
      (_match_type_against_type ext self' l t s n vw);
  refines__instantiate_and_match : ∀ l t s n vw,
    refines (_instantiate_and_match ext self l t s n vw)
      (_instantiate_and_match ext self' l t s n vw);
  refines__match_instance_against_type : ∀ l t s n vw,
    refines (_match_instance_against_type ext self l t s n vw)
      (_match_instance_against_type ext self' l t s n vw);
  refines__match_instance : ∀ l i t s n vw,
    refines (_match_instance ext self l i t s n vw)
      (_match_instance ext self' l i t s n vw);
  refines__match_maybe_parameterized_instance : ∀ l i t s n vw,
    refines (_match_maybe_parameterized_instance ext self l i t s n vw)
      (_match_maybe_parameterized_instance ext self' l i t s n vw);
  refines__match_heterogeneous_tuple_instance : ∀ l i t s n vw,
    refines (_match_heterogeneous_tuple_instance ext self l i t s n vw)
      (_match_heterogeneous_tuple_instance ext self' l i t s n vw);
  refines__match_class_and_instance_against_type : ∀ l i t s n vw,
    refines (_match_class_and_instance_against_type ext self l i t s n vw)
      (_match_class_and_instance_against_type ext self' l i t s n vw)
}.

(** *** The bases met along the MRO *)

(** [base.base_cls if isinstance(base, ParameterizedClass) else base] *)
Definition unparameterized (base : Value) : option Value :=
  if is_ParameterizedClass base then base_cls base else Some base.

(** The un-parameterized identity of [base] is the formal type, or the
    generic base of a parameterized formal type. *)
Definition qualifies (other_type base : Value) : Prop :=
  ∃ c, unparameterized base = Some c ∧ is_Class c = true ∧
       (is_ other_type c = true
        ∨ (is_ParameterizedClass other_type = true
           ∧ ∃ ob, base_cls other_type = Some ob ∧ is_ ob c = true)).

(** [base] is an ambiguous or unknown base. *)
Definition ambiguous (base : Value) : Prop :=
  ∃ c, unparameterized base = Some c ∧ is_Class c = false
       ∧ is_AMBIGUOUS_OR_EMPTY c = true.

(** [base] is a class that is not the one looked for. *)
Definition other_class (other_type base : Value) : Prop :=
  (∃ c, unparameterized base = Some c ∧ is_Class c = true)
  ∧ ¬ qualifies other_type base.

(** *** [bad_matches] *)

(** [subst or {}]: a new dictionary in place of [None] and of a dictionary
    with no entry, which is false in a condition. *)
Definition subst_or_new (subst : PySubst) : M PySubst :=
  match subst with
  | None => dict_new
  | Some r => fun st =>
      if bool_decide ((dicts st !!! r : gmap string var) = ∅) then dict_new st
      else (Ret (Some r), st)
  end.

Section BadMatches.

Context (ext : External).

(** Modelled from the spec: the module [abstract] is not part of the
    sources.  [abstract.get_views(variables, node, filter_strict=True)]
    gives the views of the variables, as [get_views] does, for the strict
    filter. *)
Context (get_views_strict : list var → CFGNode ext → Heap → list View * Heap).

(** [for view in ...: if self.match_var_against_type(...) is None:
      bad.append(view)] and the final [return bad]. *)
Fixpoint bad_views (self : Methods ext) (v : var) (other_type : Value)
    (subst : PySubst) (node : CFGNode ext) (views : list View)
    (bad : list View) : M (list View) :=
  match views with
  | [] => ret bad
  | view :: rest =>
      r <- match_var_against_type ext self v other_type subst node view ;;
      bad_views self v other_type subst node rest
        (match r with
         | None => bad ++ [view]
         | Some _ => bad
         end)
  end.

Definition bad_matches (self : Methods ext) (v : var) (other_type : Value)
    (node : CFGNode ext) (subst : PySubst) : M (list View) :=
  subst <- subst_or_new subst ;;
  views <- on_heap (get_views_strict [v] node) ;;
  bad_views self v other_type subst node views [].

End BadMatches.

(** Each call [f x], for the [x] of the list in order, returns; the results
    are collected in order. *)
Inductive all_return {A B} (f : A → M B)
  : list A → State → list B → State → Prop :=
| all_return_nil st : all_return f [] st [] st
| all_return_cons x l st r st1 rs st' :
    f x st = (Ret r, st1) →
    all_return f l st1 rs st' →
    all_return f (x :: l) st (r :: rs) st'.

(** The views whose match returned [None]. *)
Definition failed (views : list View) (rs : list PySubst) : list View :=
  fst <$> filter (fun p => p.2 = None) (zip views rs).

(** *** What a match returns *)

(** The substitution [s] is the given one, or it is [None], or it is a
    dictionary that did not exist when the references below [b] were the
    allocated ones. *)
Definition given_or_new (b : nat) (subst s : PySubst) : Prop :=
  s = subst ∨ ∀ r, s = Some r → (b ≤ r)%nat.

(** Every method of [self] keeps the dictionaries that exist when it is
    called and returns the given substitution, [None] or a new
    dictionary. *)
Record Returns {ext : External} (self : Methods ext) : Prop := mkReturns {
  returns_match_var_against_type : ∀ b v t s n vw,
    keeps b (match_var_against_type ext self v t s n vw) (given_or_new b s);
  returns__match_value_against_type : ∀ b x t s n vw,
    keeps b (_match_value_against_type ext self x t s n vw) (given_or_new b s);
  returns__match_type_against_type : ∀ b l t s n vw,
    keeps b (_match_type_against_type ext self l t s n vw) (given_or_new b s);
  returns__instantiate_and_match : ∀ b l t s n vw,
    keeps b (_instantiate_and_match ext self l t s n vw) (given_or_new b s);
  returns__match_instance_against_type : ∀ b l t s n vw,
    keeps b (_match_instance_against_type ext self l t s n vw)
      (given_or_new b s);
  returns__match_instance : ∀ b l i t s n vw,
    keeps b (_match_instance ext self l i t s n vw) (given_or_new b s);
  returns__match_maybe_parameterized_instance : ∀ b l i t s n vw,
    keeps b (_match_maybe_parameterized_instance ext self l i t s n vw)
      (given_or_new b s);
  returns__match_heterogeneous_tuple_instance : ∀ b l i t s n vw,
    keeps b (_match_heterogeneous_tuple_instance ext self l i t s n vw)
      (given_or_new b s);
  returns__match_class_and_instance_against_type : ∀ b l i t s n vw,
    keeps b (_match_class_and_instance_against_type ext self l i t s n vw)
      (given_or_new b s)
}.

(** *** Classes without parameters *)

(** [v] is a class that is neither parameterized nor a tuple class. *)
Definition plain (v : Value) : bool :=
  match v with aClass _ _ _ _ => true | _ => false end.

(** The bases in the MRO of [left] are classes without parameters or
    ambiguous bases. *)
Definition simple_bases (left : Value) : Prop :=
  ∀ bases, mro left = Some bases →
    Forall (fun base => plain base = true ∨ is_AMBIGUOUS_OR_EMPTY base = true)
      bases.

(** The class [other_type] is among the bases in the MRO of [left]. *)
Definition inherits (left other_type : Value) : bool :=
  match mro left with
  | Some bases => existsb (fun base => plain base && is_ other_type base) bases
  | None => false
  end.

(** An instance of the class [left] is accepted for the formal class
    [other_type]: it is [object], or the pair is in the map of compatible
    builtins, or [left] inherits from it. *)
Definition accepts (ext : External) (other_type left : Value) : bool :=
  match full_name other_type, full_name left with
  | Some other_name, Some left_name =>
      String.eqb other_name "__builtin__.object"
      || bool_decide (compatible_builtins ext !! left_name = Some other_name)
      || inherits left other_type
  | _, _ => false
  end.

(** *** Modules, functions and methods *)

(** The names of the formal classes that accept a module, a function, a
    class method or a static method. *)
Definition accepted_names (left : Value) : list string :=
  match left with
  | aModule => ["__builtin__.module"; "__builtin__.object"; "types.ModuleType"]
  | aFunction | aBoundFunction => ["__builtin__.object"; "typing.Callable"]
  | aClassMethod => ["__builtin__.classmethod"; "__builtin__.object"]
  | aStaticMethod => ["__builtin__.staticmethod"; "__builtin__.object"]
  | _ => []
  end.

(** [left] is a module, a function, a bound function, a class method or a
    static method. *)
Definition is_module_or_callable (left : Value) : bool :=
  is_Module left || is_Function_or_BoundFunction left || is_ClassMethod left
  || is_StaticMethod left.

(** *** A failed match given as the substitution *)

(** Every method of [self], given [None] in place of a substitution,
    returns [None] when it returns. *)
Record Absorbs {ext : External} (self : Methods ext) : Prop := mkAbsorbs {
  absorbs_match_var_against_type : ∀ b v t n vw,
    keeps b (match_var_against_type ext self v t None n vw)
      (fun s => s = None);
  absorbs__match_value_against_type : ∀ b x t n vw,
    keeps b (_match_value_against_type ext self x t None n vw)
      (fun s => s = None);
  absorbs__match_type_against_type : ∀ b l t n vw,
    keeps b (_match_type_against_type ext self l t None n vw)
      (fun s => s = None);
  absorbs__instantiate_and_match : ∀ b l t n vw,
    keeps b (_instantiate_and_match ext self l t None n vw)
      (fun s => s = None);
  absorbs__match_instance_against_type : ∀ b l t n vw,
    keeps b (_match_instance_against_type ext self l t None n vw)
      (fun s => s = None);
  absorbs__match_instance : ∀ b l i t n vw,
    keeps b (_match_instance ext self l i t None n vw) (fun s => s = None);
  absorbs__match_maybe_parameterized_instance : ∀ b l i t n vw,
    keeps b (_match_maybe_parameterized_instance ext self l i t None n vw)
      (fun s => s = None);
  absorbs__match_heterogeneous_tuple_instance : ∀ b l i t n vw,
    keeps b (_match_heterogeneous_tuple_instance ext self l i t None n vw)
      (fun s => s = None);
  absorbs__match_class_and_instance_against_type : ∀ b l i t n vw,
    keeps b (_match_class_and_instance_against_type ext self l i t None n vw)
      (fun s => s = None)
}.

(** *** The variables that exist *)

(** From [st] to [st'] no variable was freed and the variables below [b]
    have the bindings they had. *)
Definition vars_kept (b : nat) (st st' : State) : Prop :=
  (next_var (heap st) ≤ next_var (heap st'))%nat
  ∧ ∀ v, (v < b)%nat →
         bindings_of (heap st') !!! v = bindings_of (heap st) !!! v.

(** Run from a store in which the variables below [b] are allocated, the
    computation [m] keeps the bindings of the variables below [b], and a
    value it returns satisfies [Q]. *)
Definition preserves {A} (b : nat) (m : M A) (Q : A → Prop) : Prop :=
  ∀ st, (b ≤ next_var (heap st))%nat →
    vars_kept b st (m st).2 ∧ ∀ a, (m st).1 = Ret a → Q a.

(** An operation of the value model frees no variable and keeps the
    bindings of the variables that exist. *)
Definition frames {A} (f : Heap → A * Heap) : Prop :=
  ∀ h, (next_var h ≤ next_var (f h).2)%nat
       ∧ ∀ v, (v < next_var h)%nat →
              bindings_of (f h).2 !!! v = bindings_of h !!! v.

Definition ext_frames (ext : External) : Prop :=
  (∀ left node, frames (instantiate ext left node))
  ∧ (∀ vs node, frames (get_views ext vs node))
  ∧ (∀ instance node name, frames (get_type_parameter ext instance node name)).

(** Every method of [self] keeps the bindings of the variables that exist
    when it is called. *)
Record Preserves {ext : External} (self : Methods ext) : Prop := mkPreserves {
  preserves_match_var_against_type : ∀ b v t s n vw,
    preserves b (match_var_against_type ext self v t s n vw) (fun _ => True);
  preserves__match_value_against_type : ∀ b x t s n vw,
    preserves b (_match_value_against_type ext self x t s n vw)
      (fun _ => True);
  preserves__match_type_against_type : ∀ b l t s n vw,
    preserves b (_match_type_against_type ext self l t s n vw) (fun _ => True);
  preserves__instantiate_and_match : ∀ b l t s n vw,
    preserves b (_instantiate_and_match ext self l t s n vw) (fun _ => True);
  preserves__match_instance_against_type : ∀ b l t s n vw,
    preserves b (_match_instance_against_type ext self l t s n vw)
      (fun _ => True);
  preserves__match_instance : ∀ b l i t s n vw,
    preserves b (_match_instance ext self l i t s n vw) (fun _ => True);
  preserves__match_maybe_parameterized_instance : ∀ b l i t s n vw,
    preserves b (_match_maybe_parameterized_instance ext self l i t s n vw)
      (fun _ => True);
  preserves__match_heterogeneous_tuple_instance : ∀ b l i t s n vw,
    preserves b (_match_heterogeneous_tuple_instance ext self l i t s n vw)
      (fun _ => True);
  preserves__match_class_and_instance_against_type : ∀ b l i t s n vw,
    preserves b (_match_class_and_instance_against_type ext self l i t s n vw)
      (fun _ => True)
}.

End Matcher.

(** ** A small world to run the matcher in *)

Module Examples.
Import Matcher.

(** Instances of one class share a type key. *)
Definition kind_key (v : Value) : nat :=
  match v with
  | aSimpleAbstractValue (Some c) _ => S c
  | aTuple (Some c) _ _ => S c
  | _ => 0
  end.

(** A new variable holding the values [ds]. *)
Definition alloc (ds : list Value) (h : Heap) : var * Heap :=
  let v := next_var h in
  (v,
   mkHeap (<[v := imap (fun i d => mkBinding (next_binding h + i) v d []) ds]>
             (bindings_of h))
          (S v) (next_binding h + length ds)).

Definition ext0 : External :=
  {| TypeKey := nat;
     CFGNode := unit;
     formal := is_TypeParameter;
     get_type_key := kind_key;
     instantiate := fun left _ h =>
       let '(c, h) := alloc [left] h in
       alloc [aSimpleAbstractValue (Some c) []] h;
     get_views := fun vs _ h =>
       (match vs with
        | [v] => match bindings_of h !!! v with
                 | [] => [∅]
                 | bs => (fun b => {[v := b]}) <$> bs
                 end
        | _ => [∅]
        end, h);
     get_type_parameter := fun instance _ name h =>
       match instance_type_parameters instance ≫= assoc name with
       | Some v => (v, h)
       | None => alloc [] h
       end;
     COMPAT_MAP := {["int" := "float"]};
     T := "T" |}.

Definition object : Value := aClass 0 "__builtin__.object" [] None.
Definition int : Value :=
  aClass 1 "__builtin__.int" [aClass 1 "__builtin__.int" [] None; object] None.
Definition float : Value :=
  aClass 2 "__builtin__.float"
    [aClass 2 "__builtin__.float" [] None; object] None.
Definition str : Value :=
  aClass 3 "__builtin__.str" [aClass 3 "__builtin__.str" [] None; object] None.

(** A class with an unknown base ahead of its base [int]. *)
Definition mixed : Value :=
  aClass 4 "m.Mixed" [aClass 4 "m.Mixed" [] None; aUnknown; int; object] None.

(** [tuple[int, str]] and the literal tuple of the variables 1, 3 and 1. *)
Definition tuple_cls : Value := aClass 5 "__builtin__.tuple" [] None.
Definition tuple_int_str : Value :=
  aTupleClass 6 "__builtin__.tuple" [tuple_cls; object] None tuple_cls
    [(KInt 0, int); (KInt 1, str); (KStr "T", aUnion [int; str])] ["T"].
Definition triple : Value := aTuple (Some 4) [] [1; 3; 1].

Definition an_int : Binding :=
  mkBinding 1 1 (aSimpleAbstractValue (Some 0) []) [].
Definition a_str : Binding :=
  mkBinding 3 3 (aSimpleAbstractValue (Some 2) []) [].

(** The variables: 0 holds the class [int], 1 an instance of it, 2 the class
    [str], 3 an instance of it, 4 the class [tuple], 5 nothing. *)
Definition h0 : Heap :=
  mkHeap (list_to_map [(0, [mkBinding 0 0 int []]); (1, [an_int]);
                       (2, [mkBinding 2 2 str []]); (3, [a_str]);
                       (4, [mkBinding 4 4 tuple_cls []]); (5, [])]) 6 5.

(** One dictionary exists, [{"K": 3}]. *)
Definition st0 : State := mkState h0 {[0 := {["K" := 3]}]} 1 [].

Definition view0 : View := {[1 := an_int; 3 := a_str]}.

(** The class [tuple], with itself in its MRO, and [tuple[T, int]]: two
    slots, and the parameter [T] for the union of the slots. *)
Definition tuple_ : Value :=
  aClass 5 "__builtin__.tuple"
    [aClass 5 "__builtin__.tuple" [] None; object] None.
Definition tuple_T_int : Value :=
  aTupleClass 7 "__builtin__.tuple" [tuple_; object] None tuple_
    [(KInt 0, aTypeParameter "T"); (KInt 1, int);
     (KStr "T", aUnion [aTypeParameter "T"; int])] ["T"].

(** A literal tuple of three elements, the variables 1, 3 and 1, whose
    parameter [T] is the variable 1; it is the value of the variable 5. *)
Definition three : Value := aTuple (Some 4) [("T", 1)] [1; 3; 1].
Definition a_three : Binding := mkBinding 5 5 three [].

(** The variables of [h0], with the class [tuple_] in 4 and the tuple in 5. *)
Definition h_tuple : Heap :=
  mkHeap (list_to_map [(0, [mkBinding 0 0 int []]); (1, [an_int]);
                       (2, [mkBinding 2 2 str []]); (3, [a_str]);
                       (4, [mkBinding 4 4 tuple_ []]); (5, [a_three])]) 6 6.

(** No dictionary exists; then one empty dictionary. *)
Definition st_none : State := mkState h_tuple ∅ 0 [].
Definition st_tuple : State := mkState h_tuple {[0 := ∅]} 1 [].

End Examples.

(** * Part III: properties of the matcher *)

Module MatcherProperties.
Import Matcher Examples.

(** ** Computations *)

Lemma bind_unfold {A B} (m : M A) (k : A → M B) st :
  bind m k st = match m st with
                | (Ret a, st') => k a st'
                | (Raise e, st') => (Raise e, st')
                end.
Proof. reflexivity. Qed.

Lemma ret_run {A} (a : A) st : ret a st = (Ret a, st).
Proof. reflexivity. Qed.

Lemma assert_true st : assert true st = (Ret tt, st).
Proof. reflexivity. Qed.

Lemma get_or_Some {A} e (a : A) st : get_or e (Some a) st = (Ret a, st).
Proof. reflexivity. Qed.

Lemma dict_contains_run n r st :
  dict_contains n (Some r) st
  = (Ret (bool_decide (is_Some ((dicts st !!! r : gmap string var) !! n))), st).
Proof. reflexivity. Qed.

Lemma dict_copy_run r st :
  dict_copy (Some r) st
  = (Ret (Some (next_dict st)),
     mkState (heap st) (<[next_dict st := dicts st !!! r]> (dicts st))
             (S (next_dict st)) (log st)).
Proof. reflexivity. Qed.

Lemma dict_getitem_run r n v st :
  (dicts st !!! r : gmap string var) !! n = Some v →
  dict_getitem (Some r) n st = (Ret v, st).
Proof. intros H. unfold dict_getitem. by rewrite H. Qed.

Lemma dict_setitem_run r n v st :
  dict_setitem (Some r) n v st
  = (Ret tt,
     mkState (heap st) (<[r := <[n := v]> (dicts st !!! r)]> (dicts st))
             (next_dict st) (log st)).
Proof. reflexivity. Qed.

Lemma bindings_run v st : bindings v st = (Ret (bindings_of (heap st) !!! v), st).
Proof. reflexivity. Qed.

Lemma NewVariable_run st :
  NewVariable st
  = (Ret (next_var (heap st)),
     mkState (mkHeap (<[next_var (heap st) := []]> (bindings_of (heap st)))
                     (S (next_var (heap st))) (next_binding (heap st)))
             (dicts st) (next_dict st) (log st)).
Proof. reflexivity. Qed.

Section Unfold.
Context (ext : External) (d : nat).

Lemma match_var_against_type_S :
  match_var_against_type ext (AbstractMatcher ext (S d))
  = match_var_against_type_def ext (AbstractMatcher ext d).
Proof. reflexivity. Qed.

Lemma _match_value_against_type_S :
  _match_value_against_type ext (AbstractMatcher ext (S d))
  = _match_value_against_type_def ext (AbstractMatcher ext d).
Proof. reflexivity. Qed.

Lemma _match_type_against_type_S :
  _match_type_against_type ext (AbstractMatcher ext (S d))
  = _match_type_against_type_def ext (AbstractMatcher ext d).
Proof. reflexivity. Qed.

Lemma _match_instance_against_type_S :
  _match_instance_against_type ext (AbstractMatcher ext (S d))
  = _match_instance_against_type_def ext (AbstractMatcher ext d).
Proof. reflexivity. Qed.

Lemma _match_class_and_instance_against_type_S :
  _match_class_and_instance_against_type ext (AbstractMatcher ext (S d))
  = _match_class_and_instance_against_type_def ext (AbstractMatcher ext d).
Proof. reflexivity. Qed.

Lemma _match_heterogeneous_tuple_instance_S :
  _match_heterogeneous_tuple_instance ext (AbstractMatcher ext (S d))
  = _match_heterogeneous_tuple_instance_def ext (AbstractMatcher ext d).
Proof. reflexivity. Qed.

End Unfold.

(** ** Loops that stop at the first match *)

Section FirstMatch.
Context {A : Type} (f : A → M PySubst).

Lemma first_match_hit t post r st st' :
  f t st = (Ret (Some r), st') →
  first_match f (t :: post) st = (Ret (Some r), st').
Proof. intros H. simpl. rewrite bind_unfold, H. reflexivity. Qed.

Lemma first_match_app pre rest st st1 :
  all_fail f pre st st1 →
  first_match f (pre ++ rest) st = first_match f rest st1.
Proof.
  induction 1 as [|x l st st1 st' Hx _ IH]; [done|].
  simpl. rewrite bind_unfold, Hx. exact IH.
Qed.

Lemma first_match_all_fail l st st' :
  all_fail f l st st' → first_match f l st = (Ret None, st').
Proof.
  intros H. rewrite <- (app_nil_r l). by rewrite (first_match_app _ _ _ _ H).
Qed.

Lemma first_match_Some_inv l r st st2 :
  first_match f l st = (Ret (Some r), st2) →
  ∃ pre t post st1,
    l = pre ++ t :: post ∧ all_fail f pre st st1
    ∧ f t st1 = (Ret (Some r), st2).
Proof.
  revert st. induction l as [|x l IH]; intros st; simpl; [done|].
  rewrite bind_unfold.
  destruct (f x st) as [[[r'|]|e] st1] eqn:Hx; [| |done].
  - intros [= -> ->]. exists [], x, l, st. split; [done|].
    split; [constructor|done].
  - intros H. destruct (IH _ H) as (pre & t & post & st1' & -> & Hpre & Ht).
    exists (x :: pre), t, post, st1'. split; [done|].
    split; [by econstructor|done].
Qed.

Lemma first_match_None_inv l st st' :
  first_match f l st = (Ret None, st') → all_fail f l st st'.
Proof.
  revert st. induction l as [|x l IH]; intros st; simpl.
  - intros [= ->]. constructor.
  - rewrite bind_unfold.
    destruct (f x st) as [[[r'|]|e] st1] eqn:Hx; [done| |done].
    intros H. econstructor; eauto.
Qed.

End FirstMatch.

(** ** Loops that thread a substitution *)

Section Thread.
Context {A : Type} (f : A → PySubst → M PySubst).

Lemma thread_app pre rest subst st subst1 st1 :
  all_match f pre subst st subst1 st1 →
  thread f (pre ++ rest) subst st = thread f rest subst1 st1.
Proof.
  induction 1 as [|x l subst st r st1 subst' st' Hx _ IH]; [done|].
  simpl. rewrite bind_unfold, Hx. exact IH.
Qed.

Lemma thread_first_failure pre x post subst st subst1 st1 st2 :
  all_match f pre subst st subst1 st1 →
  f x subst1 st1 = (Ret None, st2) →
  thread f (pre ++ x :: post) subst st = (Ret None, st2).
Proof.
  intros Hpre Hx. rewrite (thread_app _ _ _ _ _ _ Hpre). simpl.
  by rewrite bind_unfold, Hx.
Qed.

Lemma thread_Some l subst st r st' :
  thread f l subst st = (Ret (Some r), st')
  ↔ all_match f l subst st (Some r) st'.
Proof.
  split.
  - revert subst st. induction l as [|x l IH]; intros subst st; simpl.
    + intros [= -> ->]. constructor.
    + rewrite bind_unfold.
      destruct (f x subst st) as [[[r'|]|e] st1] eqn:Hx; [|done|done].
      intros H. econstructor; eauto.
  - intros H. rewrite <- (app_nil_r l). by rewrite (thread_app _ _ _ _ _ _ H).
Qed.

End Thread.

(** ** A greater bound on nested calls changes no result *)

Lemma refines_refl {A} (m : M A) : refines m m.
Proof. by intros st _. Qed.

Lemma refines_bind {A B} (m m' : M A) (k k' : A → M B) :
  refines m m' → (∀ a, refines (k a) (k' a)) → refines (bind m k) (bind m' k').
Proof.
  intros Hm Hk st Hst. unfold bind in *.
  destruct (m st) as [[a|e] st1] eqn:E; simpl in Hst.
  - rewrite (Hm st) by (rewrite E; simpl; discriminate).
    rewrite E. by apply Hk.
  - rewrite (Hm st) by (rewrite E; simpl; intros [= ->]; by apply Hst).
    by rewrite E.
Qed.

Lemma refines_first_match {A} (f f' : A → M PySubst) l :
  (∀ x, refines (f x) (f' x)) → refines (first_match f l) (first_match f' l).
Proof.
  intros Hf. induction l as [|x l IH]; [apply refines_refl|].
  cbn [first_match]. apply refines_bind; [apply Hf|].
  intros [r|]; [apply refines_refl|exact IH].
Qed.

Lemma refines_thread {A} (f f' : A → PySubst → M PySubst) l subst :
  (∀ x s, refines (f x s) (f' x s)) →
  refines (thread f l subst) (thread f' l subst).
Proof.
  intros Hf. revert subst.
  induction l as [|x l IH]; intros subst; [apply refines_refl|].
  cbn [thread]. apply refines_bind; [apply Hf|].
  intros [r|]; [apply IH|apply refines_refl].
Qed.

Ltac refines_auto R :=
  first
    [ apply refines_refl
    | apply (refines_match_var_against_type _ _ R)
    | apply (refines__match_value_against_type _ _ R)
    | apply (refines__match_type_against_type _ _ R)
    | apply (refines__instantiate_and_match _ _ R)
    | apply (refines__match_instance_against_type _ _ R)
    | apply (refines__match_instance _ _ R)
    | apply (refines__match_maybe_parameterized_instance _ _ R)
    | apply (refines__match_heterogeneous_tuple_instance _ _ R)
    | apply (refines__match_class_and_instance_against_type _ _ R)
    | apply refines_first_match; intros ?; refines_auto R
    | apply refines_thread; intros ? ?; refines_auto R
    | match goal with
      | |- refines (if ?c then _ else _) _ => destruct c; refines_auto R
      | |- refines (match ?x with _ => _ end) _ => destruct x; refines_auto R
      | |- refines (bind _ _) _ =>
          apply refines_bind; [refines_auto R|intros ?; refines_auto R]
      end
    | idtac ].

Section RefinesMethods.
Context (ext : External) (self self' : Methods ext) (R : Refines self self').

Lemma refines_match_template left instance other_type node names subst view :
  refines
    (match_template ext self left instance other_type node names subst view)
    (match_template ext self' left instance other_type node names subst view).
Proof.
  revert subst view.
  induction names as [|x names IH]; intros subst view; [apply refines_refl|].
  cbn [match_template]. refines_auto R. apply IH.
Qed.

Lemma refines_match_slots class_params node view i instance_params subst :
  refines
    (match_slots ext self class_params node view i instance_params subst)
    (match_slots ext self' class_params node view i instance_params subst).
Proof.
  revert i subst.
  induction instance_params as [|x l IH]; intros i subst;
    [apply refines_refl|].
  cbn [match_slots]. refines_auto R. apply IH.
Qed.

Lemma refines_compute_subst node formal_args arg_dict view :
  refines (compute_subst ext self node formal_args arg_dict view)
    (compute_subst ext self' node formal_args arg_dict view).
Proof.
  unfold compute_subst. refines_auto R. revert a.
  induction formal_args as [|[name formal] l IH]; intros subst;
    cbn [compute_subst_loop]; refines_auto R. apply IH.
Qed.

Lemma Refines_step :
  Refines
    {| match_var_against_type := match_var_against_type_def ext self;
       _match_value_against_type := _match_value_against_type_def ext self;
       _match_type_against_type := _match_type_against_type_def ext self;
       _instantiate_and_match := _instantiate_and_match_def ext self;
       _match_instance_against_type :=
         _match_instance_against_type_def ext self;
       _match_instance := _match_instance_def ext self;
       _match_maybe_parameterized_instance :=
         _match_maybe_parameterized_instance_def ext self;
       _match_heterogeneous_tuple_instance :=
         _match_heterogeneous_tuple_instance_def ext self;
       _match_class_and_instance_against_type :=
         _match_class_and_instance_against_type_def ext self |}
    {| match_var_against_type := match_var_against_type_def ext self';
       _match_value_against_type := _match_value_against_type_def ext self';
       _match_type_against_type := _match_type_against_type_def ext self';
       _instantiate_and_match := _instantiate_and_match_def ext self';
       _match_instance_against_type :=
         _match_instance_against_type_def ext self';
       _match_instance := _match_instance_def ext self';
       _match_maybe_parameterized_instance :=
         _match_maybe_parameterized_instance_def ext self';
       _match_heterogeneous_tuple_instance :=
         _match_heterogeneous_tuple_instance_def ext self';
       _match_class_and_instance_against_type :=
         _match_class_and_instance_against_type_def ext self' |}.
Proof.
  split; intros; cbn [match_var_against_type _match_value_against_type
    _match_type_against_type _instantiate_and_match
    _match_instance_against_type _match_instance
    _match_maybe_parameterized_instance _match_heterogeneous_tuple_instance
    _match_class_and_instance_against_type].
  - unfold match_var_against_type_def. refines_auto R.
  - unfold _match_value_against_type_def. refines_auto R.
  - unfold _match_type_against_type_def. refines_auto R.
  - unfold _instantiate_and_match_def. refines_auto R.
  - unfold _match_instance_against_type_def. refines_auto R.
  - unfold _match_instance_def. refines_auto R.
  - unfold _match_maybe_parameterized_instance_def. refines_auto R.
    all: apply refines_match_template.
  - unfold _match_heterogeneous_tuple_instance_def. refines_auto R.
    all: apply refines_match_slots.
  - unfold _match_class_and_instance_against_type_def. refines_auto R.
Qed.

End RefinesMethods.

Lemma Refines_exhausted ext (self : Methods ext) : Refines (exhausted ext) self.
Proof.
  split; unfold refines; intros;
    match goal with H : _ ≠ _ |- _ => by destruct H end.
Qed.

Lemma Refines_S ext d :
  Refines (AbstractMatcher ext d) (AbstractMatcher ext (S d)).
Proof.
  induction d as [|d IH]; [apply Refines_exhausted|]. by apply Refines_step.
Qed.

Lemma Refines_refl ext (self : Methods ext) : Refines self self.
Proof. split; intros; apply refines_refl. Qed.

Lemma refines_trans {A} (m1 m2 m3 : M A) :
  refines m1 m2 → refines m2 m3 → refines m1 m3.
Proof.
  intros H12 H23 st H. rewrite <- (H12 st H). apply H23.
  by rewrite (H12 st H).
Qed.

Lemma Refines_trans ext (a b c : Methods ext) :
  Refines a b → Refines b c → Refines a c.
Proof.
  intros [] []. split; intros; eapply refines_trans; eauto.
Qed.

(** A result obtained within a bound on nested calls, other than the
    exhaustion of the bound, is the result within every greater bound. *)
Lemma AbstractMatcher_mono ext d d' :
  (d ≤ d')%nat → Refines (AbstractMatcher ext d) (AbstractMatcher ext d').
Proof.
  induction 1 as [|d' _ IH]; [apply Refines_refl|].
  eapply Refines_trans; [exact IH|apply Refines_S].
Qed.

(** ** Union formal types *)

(** C1: matching a value against a union formal type tries the members in
    their order and returns the substitution of the first member that
    matches, in the store that match left: no later member is used, whatever
    it would return.  When every member fails the match returns [None].
    Conversely a substitution returned for the union is the one of a member
    before which every member failed. *)
Theorem C1_union_first_member_wins :
  ∀ (ext : External) (d : nat) (value : Binding) (opts : list Value)
    (subst : PySubst) (node : CFGNode ext) (view : View) (st : State),
    formal ext (data value) = false →
    let self := AbstractMatcher ext d in
    let member t := _match_value_against_type ext self value t subst node view in
    let union :=
      _match_value_against_type ext (AbstractMatcher ext (S d))
        value (aUnion opts) subst node view st in
    (∀ pre t post r st1 st2,
        opts = pre ++ t :: post →
        all_fail member pre st st1 →
        member t st1 = (Ret (Some r), st2) →
        union = (Ret (Some r), st2))
    ∧ (∀ st', all_fail member opts st st' → union = (Ret None, st'))
    ∧ (∀ r st2,
        union = (Ret (Some r), st2) →
        ∃ pre t post st1,
          opts = pre ++ t :: post ∧ all_fail member pre st st1
          ∧ member t st1 = (Ret (Some r), st2)).
Proof.
  intros ext d value opts subst node view st Hformal self member union.
  assert (Hunion : union = first_match member opts st).
  { unfold union. rewrite _match_value_against_type_S.
    unfold _match_value_against_type_def. rewrite Hformal. reflexivity. }
  rewrite Hunion. split; [|split].
  - intros pre t post r st1 st2 -> Hpre Ht.
    rewrite (first_match_app _ _ _ _ _ Hpre). by apply first_match_hit.
  - intros st'. apply first_match_all_fail.
  - intros r st2. apply first_match_Some_inv.
Qed.

(** ** [compute_subst] *)

Section ComputeSubst.
Context (ext : External) (self : Methods ext) (node : CFGNode ext)
  (arg_dict : gmap string Binding) (view : View).

#[local] Abbreviation step := (match_pair ext self node arg_dict view).
#[local] Abbreviation loop :=
  (fun l => compute_subst_loop ext self node l arg_dict view).

Lemma compute_subst_loop_app pre rest subst st subst1 st1 :
  all_match step pre subst st subst1 st1 →
  loop (pre ++ rest) subst st = loop rest subst1 st1.
Proof.
  induction 1 as [|[name formal] l subst st r st1 subst' st' Hx _ IH]; [done|].
  simpl. unfold match_pair in Hx. simpl in Hx.
  rewrite bind_unfold in Hx. rewrite bind_unfold.
  destruct (get_or KeyError (arg_dict !! name) st) as [[actual|e] st0]; [|done].
  rewrite bind_unfold, Hx. exact IH.
Qed.

Lemma compute_subst_loop_fail name formal post subst st st2 :
  step (name, formal) subst st = (Ret None, st2) →
  loop ((name, formal) :: post) subst st = (Ret (None, Some name), st2).
Proof.
  unfold match_pair. simpl. rewrite !bind_unfold.
  destruct (get_or KeyError (arg_dict !! name) st) as [[actual|e] st0]; [|done].
  rewrite bind_unfold. by intros ->.
Qed.

Lemma compute_subst_loop_Some l subst st d st' :
  loop l subst st = (Ret (Some d, None), st')
  ↔ ∃ r, all_match step l subst st (Some r) st' ∧ d = dicts st' !!! r.
Proof.
  split.
  - revert subst st. induction l as [|[name formal] l IH]; intros subst st.
    + simpl. destruct subst as [r|]; [|done].
      rewrite bind_unfold. simpl. intros [= <- <-]. exists r.
      split; [constructor|done].
    + simpl. rewrite bind_unfold.
      destruct (get_or KeyError (arg_dict !! name) st)
        as [[actual|e] st0] eqn:Hget; [|done].
      rewrite bind_unfold.
      destruct (_match_value_against_type ext self actual formal subst node
                  view st0) as [[[r'|]|e] st1] eqn:Hm; [|done|done].
      intros H. destruct (IH _ _ H) as (r & Hall & ->). exists r.
      split; [|done]. econstructor; [|exact Hall].
      unfold match_pair. simpl. by rewrite bind_unfold, Hget.
  - intros (r & Hall & ->).
    rewrite <- (app_nil_r l), (compute_subst_loop_app _ _ _ _ _ _ Hall).
    reflexivity.
Qed.

End ComputeSubst.

(** C2: for a non-empty list of (name, formal) pairs and an argument map
    that has each name, [compute_subst] folds over the pairs from left to
    right, threading one substitution that starts as a new empty dictionary.
    At the first pair whose match fails it returns [(None, name)] of that
    pair in the store that match left, whatever the later pairs are; it
    returns a finalized substitution and no name exactly when every pair
    matches in turn, and the substitution is the snapshot of the last one. *)
Theorem C2_compute_subst_fold :
  ∀ (ext : External) (self : Methods ext) (node : CFGNode ext)
    (formal_args : list (string * Value)) (arg_dict : gmap string Binding)
    (view : View) (st : State),
    formal_args ≠ [] →
    (∀ name formal, (name, formal) ∈ formal_args → is_Some (arg_dict !! name)) →
    let step := match_pair ext self node arg_dict view in
    let subst0 := Some (next_dict st) in
    let st0 := mkState (heap st) (<[next_dict st := ∅]> (dicts st))
                       (S (next_dict st)) (log st) in
    let result := compute_subst ext self node formal_args arg_dict view st in
    (∀ pre name formal post subst1 st1 st2,
        formal_args = pre ++ (name, formal) :: post →
        all_match step pre subst0 st0 subst1 st1 →
        step (name, formal) subst1 st1 = (Ret None, st2) →
        result = (Ret (None, Some name), st2))
    ∧ (∀ d st',
        result = (Ret (Some d, None), st')
        ↔ ∃ r, all_match step formal_args subst0 st0 (Some r) st'
               ∧ d = dicts st' !!! r).
Proof.
  intros ext self node formal_args arg_dict view st Hne Hdom step subst0 st0
    result.
  assert (Hresult : result
            = compute_subst_loop ext self node formal_args arg_dict view
                subst0 st0).
  { unfold result, compute_subst.
    destruct formal_args as [|[name formal] rest]; [done|].
    destruct (Hdom name formal) as [b Hb]; [left|].
    destruct (Nat.eqb_spec (size arg_dict) 0) as [Hsize|_]; [|done].
    apply map_size_empty_iff in Hsize. by rewrite Hsize, lookup_empty in Hb. }
  rewrite Hresult. split.
  - intros pre name formal post subst1 st1 st2 -> Hpre Hfail.
    rewrite (compute_subst_loop_app _ _ _ _ _ _ _ _ _ _ _ Hpre).
    by apply compute_subst_loop_fail.
  - intros d st'. apply compute_subst_loop_Some.
Qed.

(** ** Names absent from the argument map *)

(** C10, as stated, fails: with the formal pairs [x: Nothing] and [y: T] and
    an argument map that has [x] only, the name [y] is absent, yet the call
    returns [(None, "x")] since the first pair fails to match; no
    [KeyError] is raised. *)
Lemma C10_counterexample :
  let formal_args := [("x", aNothing); ("y", aTypeParameter "T")] in
  let arg_dict : gmap string Binding := {["x" := an_int]} in
  size arg_dict ≠ 0
  ∧ ("y", aTypeParameter "T") ∈ formal_args
  ∧ arg_dict !! "y" = None
  ∧ (compute_subst ext0 (AbstractMatcher ext0 5) tt formal_args arg_dict
       view0 st0).1 = Ret (None, Some "x")
  ∧ (compute_subst ext0 (AbstractMatcher ext0 5) tt formal_args arg_dict
       view0 st0).1 ≠ Raise KeyError.
Proof.
  split; [by vm_compute|]. split; [apply list_elem_of_In; simpl; tauto|].
  split; [by vm_compute|]. split; [by vm_compute|].
  vm_compute. discriminate.
Qed.

(** C10, amended: with a non-empty argument map, [compute_subst] raises
    [KeyError] at the first formal pair whose name is not a key of the map,
    when every pair before it matched; the store is the one those matches
    left.  When instead the match of a pair fails, every pair before it
    having matched, the call returns [(None, name)] for that pair whatever
    pairs come after it: their names are not looked up, so a name among them
    that is not a key of the map raises nothing. *)
Theorem C10_absent_name_raises_KeyError :
  ∀ (ext : External) (self : Methods ext) (node : CFGNode ext)
    (formal_args : list (string * Value)) (arg_dict : gmap string Binding)
    (view : View) (st : State) pre name formal post subst1 st1,
    size arg_dict ≠ 0 →
    formal_args = pre ++ (name, formal) :: post →
    all_match (match_pair ext self node arg_dict view) pre
      (Some (next_dict st))
      (mkState (heap st) (<[next_dict st := ∅]> (dicts st))
               (S (next_dict st)) (log st))
      subst1 st1 →
    let result := compute_subst ext self node formal_args arg_dict view st in
    (arg_dict !! name = None → result = (Raise KeyError, st1))
    ∧ (∀ st2,
         match_pair ext self node arg_dict view (name, formal) subst1 st1
         = (Ret None, st2) →
         result = (Ret (None, Some name), st2)).
Proof.
  intros ext self node formal_args arg_dict view st pre name formal post
    subst1 st1 Hsize -> Hpre result.
  assert (Hresult : result
            = compute_subst_loop ext self node ((name, formal) :: post)
                arg_dict view subst1 st1).
  { unfold result, compute_subst.
    destruct (Nat.eqb_spec (size arg_dict) 0) as [|_]; [done|].
    rewrite bind_unfold. unfold dict_new.
    apply (compute_subst_loop_app _ _ _ _ _ _ _ _ _ _ _ Hpre). }
  rewrite Hresult. split.
  - intros Hname. simpl. rewrite bind_unfold. by rewrite Hname.
  - intros st2. apply compute_subst_loop_fail.
Qed.

(** ** Tuples *)

Section Slots.
Context (ext : External) (self : Methods ext)
  (class_params : list (pkey * Value)) (node : CFGNode ext) (view : View).

Lemma match_slots_thread i instance_params subst st :
  match_slots ext self class_params node view i instance_params subst st
  = thread (match_slot ext self class_params node view)
      (zip (seq i (length instance_params)) instance_params) subst st.
Proof.
  revert i subst st.
  induction instance_params as [|v l IH]; intros i subst st; [done|].
  simpl. unfold match_slot at 1. simpl. rewrite !bind_unfold.
  destruct (get_or KeyError _ st) as [[class_param|e] st0]; [|done].
  rewrite !bind_unfold.
  destruct (match_var_against_type ext self v class_param subst node view st0)
    as [[[r|]|e] st1]; [|done|done].
  apply IH.
Qed.

End Slots.

(** X30: [_match_heterogeneous_tuple_instance], for a literal tuple and a
    fixed-arity tuple type, returns [None] at once, with the store
    untouched, when the number of elements of the tuple is not the number of
    slots of the type (the size of [type_parameters] less one, for the entry
    of [T]).  When the numbers are equal it returns a substitution exactly
    when every element matches its slot in turn, each from the substitution
    of the one before, and it returns [None] in the store left by the first
    slot that fails.  This is the result of the helper, which
    [_match_instance] passes on to the match of the parameters. *)
Theorem tuple_slots_of_literal_tuple :
  ∀ (ext : External) (self : Methods ext) (left instance other_type : Value)
    (elements : list var) (class_params : list (pkey * Value))
    (subst : PySubst) (node : CFGNode ext) (view : View) (st : State),
    is_Tuple instance = true →
    pyval instance = Some elements →
    is_TupleClass other_type = true →
    type_parameters other_type = Some class_params →
    let slots := Z.to_nat (Z.of_nat (length class_params) - 1) in
    let step := match_slot ext self class_params node view in
    let result :=
      _match_heterogeneous_tuple_instance_def ext self
        left instance other_type subst node view st in
    (Z.of_nat (length elements) ≠ (Z.of_nat (length class_params) - 1)%Z →
     result = (Ret None, st))
    ∧ (Z.of_nat (length elements) = (Z.of_nat (length class_params) - 1)%Z →
       let indexed := zip (seq 0 slots) elements in
       (∀ r st',
           result = (Ret (Some r), st')
           ↔ all_match step indexed subst st (Some r) st')
       ∧ (∀ pre slot post subst1 st1 st2,
             indexed = pre ++ slot :: post →
             all_match step pre subst st subst1 st1 →
             step slot subst1 st1 = (Ret None, st2) →
             result = (Ret None, st2))).
Proof.
  intros ext self left instance other_type elements class_params subst node
    view st Htuple Hpyval Hcls Hps slots step result.
  unfold result, _match_heterogeneous_tuple_instance_def.
  rewrite Htuple, Hcls, Hpyval, Hps. unfold bind, get_or, ret. simpl.
  split.
  - intros Hne. by destruct (Z.eqb_spec (Z.of_nat (length elements))
                               (Z.of_nat (length class_params) - 1)%Z).
  - intros Heq. rewrite Heq, Z.eqb_refl, match_slots_thread.
    assert (length elements = slots) as -> by (unfold slots; lia).
    split.
    + intros r st'. apply thread_Some.
    + intros pre slot post subst1 st1 st2 -> Hpre Hfail.
      by eapply thread_first_failure.
Qed.

(** C6, at an input on which the code does not do what the claim says: the
    literal tuple of three elements [three] is matched against the two-slot
    tuple type [tuple[T, int]].  The helper
    [_match_heterogeneous_tuple_instance] finds the numbers different and
    returns [None] with the store untouched, but [_match_instance] hands
    that [None] on to [_match_maybe_parameterized_instance] as the
    substitution, and the match of the parameter [T] tests a name for
    membership in it: the match of the value raises [TypeError] where it
    should return [None], and so does [compute_subst] where it should return
    [(None, "x")]. *)
Theorem C6_arity_mismatch_raises_TypeError :
  pyval three = Some [1; 3; 1]
  ∧ (length <$> type_parameters tuple_T_int) = Some 3
  ∧ _match_heterogeneous_tuple_instance_def ext0 (AbstractMatcher ext0 9)
      tuple_ three tuple_T_int (Some 0) tt view0 st_tuple
    = (Ret None, st_tuple)
  ∧ (_match_instance ext0 (AbstractMatcher ext0 9)
       tuple_ three tuple_T_int (Some 0) tt view0 st_tuple).1
    = Raise TypeError
  ∧ (_match_value_against_type ext0 (AbstractMatcher ext0 9)
       a_three tuple_T_int (Some 0) tt view0 st_tuple).1
    = Raise TypeError
  ∧ (compute_subst ext0 (AbstractMatcher ext0 9) tt
       [("x", tuple_T_int)] {["x" := a_three]} view0 st_none).1
    = Raise TypeError.
Proof. repeat split; by vm_compute. Qed.

(** ** Binding a type parameter *)

Lemma appended_refl v st : appended v [] st st.
Proof. unfold appended. rewrite app_nil_r. naive_solver. Qed.

Lemma appended_trans v ds1 ds2 st st1 st2 :
  appended v ds1 st st1 → appended v ds2 st1 st2 →
  appended v (ds1 ++ ds2) st st2.
Proof.
  intros (?&?&?&?&Hv1&Hu1) (?&?&?&?&Hv2&Hu2). unfold appended.
  rewrite Hv2, Hv1, app_assoc. repeat split; try congruence.
  intros u Hu. rewrite Hu2, Hu1; done.
Qed.

Lemma AddBinding_appended v d source_set st :
  ∃ st', AddBinding v d source_set st = (Ret tt, st') ∧ appended v [d] st st'.
Proof.
  eexists. split; [reflexivity|]. unfold appended, values_of. simpl.
  rewrite lookup_total_insert_eq, fmap_app. repeat split; try done.
  intros u Hu. by rewrite lookup_total_insert_ne.
Qed.

Lemma add_all_appended v bs st :
  ∃ st', add_all v bs st = (Ret tt, st') ∧ appended v (data <$> bs) st st'.
Proof.
  revert st. induction bs as [|b bs IH]; intros st.
  - exists st. split; [done|]. apply appended_refl.
  - destruct (AddBinding_appended v (data b) [b_id b] st) as (st1 & H1 & A1).
    destruct (IH st1) as (st2 & H2 & A2). exists st2. split.
    + simpl. by rewrite bind_unfold, H1.
    + apply (appended_trans _ [data b] _ _ _ _ A1 A2).
Qed.

Lemma add_same_type_key_appended ext v value type_key others st :
  ∃ st',
    add_same_type_key ext v value type_key others st = (Ret tt, st')
    ∧ appended v
        (data <$> filter (fun o => b_id o ≠ b_id value
                                   ∧ get_type_key ext (data o) = type_key)
                    others) st st'.
Proof.
  revert st. induction others as [|o others IH]; intros st.
  - exists st. split; [done|]. apply appended_refl.
  - simpl. rewrite filter_cons.
    destruct (Nat.eqb_spec (b_id o) (b_id value)) as [Hid|Hid]; simpl.
    + destruct (IH st) as (st2 & H2 & A2). exists st2. split.
      * by rewrite bind_unfold.
      * rewrite decide_False by (intros [? _]; done). done.
    + destruct (decide (get_type_key ext (data o) = type_key)) as [Hk|Hk].
      * rewrite bool_decide_eq_true_2 by done.
        destruct (AddBinding_appended v (data o) [b_id o] st)
          as (st1 & H1 & A1).
        destruct (IH st1) as (st2 & H2 & A2). exists st2. split.
        -- by rewrite bind_unfold, H1.
        -- rewrite decide_True by done.
           apply (appended_trans _ [data o] _ _ _ _ A1 A2).
      * rewrite bool_decide_eq_false_2 by done.
        destruct (IH st) as (st2 & H2 & A2). exists st2. split.
        -- by rewrite bind_unfold.
        -- rewrite decide_False by (intros [_ ?]; done). done.
Qed.

(** Computations applied to a store are run by [simpl]. *)
#[local] Arguments bind {A B} m k st /.
#[local] Arguments ret {A} a st /.
#[local] Arguments raise {A} e st /.
#[local] Arguments get_or {A} e o st /.
#[local] Arguments assert b st /.
#[local] Arguments lift {A} o st /.
#[local] Arguments on_heap {A} f st /.
#[local] Arguments dict_copy subst st /.
#[local] Arguments dict_contains name subst st /.
#[local] Arguments dict_getitem subst name st /.
#[local] Arguments dict_setitem subst name v st /.
#[local] Arguments dict_new st /.
#[local] Arguments HashableDict subst st /.
#[local] Arguments log_error msg st /.
#[local] Arguments bindings v st /.
#[local] Arguments NewVariable st /.
#[local] Arguments AddBinding v d source_set st /.
#[local] Arguments Variable_AssignToNewVariable v st /.
#[local] Arguments Binding_AssignToNewVariable value st /.
#[local] Arguments view_getitem view v st /.
#[local] Arguments AbstractMatcher : simpl never.

(** C3: matching a value against a formal type parameter returns a new
    dictionary, the copy of the given one with the parameter bound to a new
    variable.  When the parameter was bound, the new variable holds the
    values of the old one followed by the matched value: they are kept, not
    overwritten.  When it was not bound, the new variable holds the matched
    value.  In both cases the values of the other bindings of the argument's
    variable that have the type key of the matched value follow.  No other
    variable changes. *)
Theorem C3_type_parameter_merge :
  ∀ (ext : External) (d : nat) (value : Binding) (n : string) (r : nat)
    (node : CFGNode ext) (view : View) (st : State),
    formal ext (data value) = false →
    (variable value < next_var (heap st))%nat →
    let left := data value in
    let new_var := next_var (heap st) in
    let same_key :=
      filter (fun o => b_id o ≠ b_id value
                       ∧ get_type_key ext (data o) = get_type_key ext left)
        (bindings_of (heap st) !!! variable value) in
    ∃ st',
      _match_value_against_type ext (AbstractMatcher ext (S d))
        value (aTypeParameter n) (Some r) node view st
      = (Ret (Some (next_dict st)), st')
      ∧ dicts st'
        = <[next_dict st := <[n := new_var]> (dicts st !!! r)]> (dicts st)
      ∧ values_of st' new_var
        = match (dicts st !!! r : gmap string var) !! n with
          | Some old_var => values_of st old_var ++ [left]
          | None => [left]
          end ++ (data <$> same_key)
      ∧ ∀ v, v ≠ new_var →
             bindings_of (heap st') !!! v = bindings_of (heap st) !!! v.
Proof.
  intros ext d value n r node view st Hformal Hvar left new_var same_key.
  assert (Hne : variable value ≠ new_var) by (unfold new_var; lia).
  rewrite _match_value_against_type_S. unfold _match_value_against_type_def.
  rewrite Hformal. simpl.
  destruct ((dicts st !!! r : gmap string var) !! n) as [old_var|] eqn:Hn.
  - (* the parameter is bound: merge *)
    rewrite bool_decide_eq_true_2 by eauto. simpl.
    rewrite lookup_total_insert_eq, Hn. simpl.
    match goal with
    | |- context [add_all ?v ?bs ?s] =>
        destruct (add_all_appended v bs s) as (st3 & H3 & A3)
    end.
    rewrite H3. simpl. fold new_var.
    match goal with
    | |- context [add_same_type_key ext ?v ?val ?k ?bs ?s] =>
        destruct (add_same_type_key_appended ext v val k bs s)
          as (st6 & H6 & A6)
    end.
    rewrite H6. simpl.
    destruct A3 as (Hd3 & Hnd3 & _ & Hnv3 & Hval3 & Hoth3).
    destruct A6 as (Hd6 & Hnd6 & _ & Hnv6 & Hval6 & Hoth6).
    unfold values_of in *. simpl in *. fold new_var in Hval3, Hoth3.
    rewrite lookup_total_insert_eq in Hval3, Hval6.
    rewrite lookup_total_insert_ne, (Hoth3 (variable value)),
      lookup_total_insert_ne in Hval6 by (unfold new_var in *; lia).
    exists st6. split; [done|]. split; [|split].
    + rewrite Hd6, Hd3, lookup_total_insert_eq. apply insert_insert_eq.
    + by rewrite Hval6, fmap_app, Hval3.
    + intros v Hv. rewrite Hoth6, lookup_total_insert_ne, Hoth3 by done.
      by apply lookup_total_insert_ne.
  - (* the parameter is not bound: a fresh binding *)
    rewrite bool_decide_eq_false_2 by (intros [? ?]; congruence).
    simpl. fold new_var.
    match goal with
    | |- context [add_same_type_key ext ?v ?val ?k ?bs ?s] =>
        destruct (add_same_type_key_appended ext v val k bs s)
          as (st6 & H6 & A6)
    end.
    rewrite H6. simpl.
    destruct A6 as (Hd6 & Hnd6 & _ & Hnv6 & Hval6 & Hoth6).
    unfold values_of in *. simpl in *.
    rewrite !lookup_total_insert_eq in Hval6.
    rewrite !lookup_total_insert_ne in Hval6 by (unfold new_var in *; lia).
    exists st6. split; [done|]. split; [|split].
    + rewrite Hd6, lookup_total_insert_eq. apply insert_insert_eq.
    + by rewrite Hval6.
    + intros v Hv. rewrite Hoth6 by done.
      by rewrite !lookup_total_insert_ne.
Qed.

(** ** The empty variable and the bottom type *)

Lemma match_nothing_spec opts r st :
  let d := (dicts st !!! r : gmap string var) in
  let names := omap name opts in
  ∃ r' st',
    match_nothing opts (Some r) st = (Ret (Some r'), st')
    ∧ (next_var (heap st) ≤ next_var (heap st'))%nat
    ∧ (∀ v, (v < next_var (heap st))%nat →
            bindings_of (heap st') !!! v = bindings_of (heap st) !!! v)
    ∧ (∀ k x, d !! k = Some x →
              (dicts st' !!! r' : gmap string var) !! k = Some x)
    ∧ (∀ k, d !! k = None → k ∈ names →
            ∃ x, (dicts st' !!! r' : gmap string var) !! k = Some x
                 ∧ (next_var (heap st) ≤ x < next_var (heap st'))%nat
                 ∧ bindings_of (heap st') !!! x = [])
    ∧ (∀ k, d !! k = None → k ∉ names →
            (dicts st' !!! r' : gmap string var) !! k = None)
    ∧ ((∀ k, k ∈ names → is_Some (d !! k)) → r' = r ∧ st' = st).
Proof.
  revert r st. induction opts as [|o opts IH]; intros r st d names.
  { exists r, st. simpl. repeat split; try done.
    intros k _ Hk. by apply elem_of_nil in Hk. }
  destruct (is_TypeParameter o) eqn:Ho.
  - destruct o; try discriminate Ho. rename name0 into n.
    assert (Hnames : names = n :: omap name opts) by reflexivity.
    simpl. fold d.
    destruct (d !! n) as [x0|] eqn:Hn.
    + rewrite bool_decide_eq_true_2 by eauto. simpl.
      destruct (IH r st) as (r' & st' & Hrun & Hle & Hfr & P1 & P2 & P3 & P4).
      fold d in P1, P2, P3, P4.
      exists r', st'. split; [done|]. split; [done|]. split; [done|].
      split; [done|]. rewrite Hnames. split; [|split].
      * intros k Hk [->|Hin]%elem_of_cons; [congruence|]. by apply P2.
      * intros k Hk [_ Hin]%not_elem_of_cons. by apply P3.
      * intros Hall. apply P4. intros k Hk. apply Hall. by right.
    + rewrite bool_decide_eq_false_2 by (intros [? ?]; congruence). simpl.
      match goal with
      | |- context [match_nothing opts (Some ?r1) ?s] =>
          destruct (IH r1 s) as (r' & st' & Hrun & Hle & Hfr & P1 & P2 & P3 & P4);
          set (st1 := s) in *
      end.
      simpl in Hle, Hfr, P1, P2, P3, P4.
      rewrite !lookup_total_insert_eq in P1, P2, P3.
      fold d in P1, P2, P3.
      exists r', st'. split; [done|]. split; [lia|]. split; [|split; [|split]].
      * intros v Hv. rewrite Hfr by lia.
        apply lookup_total_insert_ne. lia.
      * intros k x Hk. apply P1. rewrite lookup_insert_ne; [done|congruence].
      * rewrite Hnames. intros k Hk [->|Hin]%elem_of_cons.
        -- exists (next_var (heap st)). split; [|split; [lia|]].
           ++ apply P1. apply lookup_insert_eq.
           ++ rewrite Hfr by lia. apply lookup_total_insert_eq.
        -- destruct (decide (k = n)) as [->|Hkn].
           ++ exists (next_var (heap st)). split; [|split; [lia|]].
              ** apply P1. apply lookup_insert_eq.
              ** rewrite Hfr by lia. apply lookup_total_insert_eq.
           ++ destruct (P2 k) as (x & Hx & Hrange & Hbs); [|done|].
              { by rewrite lookup_insert_ne. }
              exists x. split; [done|]. split; [lia|done].
      * rewrite Hnames. split.
        -- intros k Hk [Hkn Hin]%not_elem_of_cons. apply P3; [|done].
           by rewrite lookup_insert_ne.
        -- intros Hall. destruct (Hall n) as [x Hx]; [left|]. congruence.
  - assert (Hnames : names = omap name opts).
    { unfold names. simpl. by destruct o. }
    assert (Hrun : match_nothing (o :: opts) (Some r) st
                   = match_nothing opts (Some r) st).
    { simpl. by rewrite Ho. }
    rewrite Hrun, Hnames. apply IH.
Qed.

Lemma compatible_builtins_prefix ext k v :
  compatible_builtins ext !! k = Some v → ∃ v', v = "__builtin__." +:+ v'.
Proof.
  unfold compatible_builtins. intros H%elem_of_list_to_map_2.
  apply list_elem_of_fmap in H as ([k' v'] & [= -> ->] & _). eauto.
Qed.

Lemma class_and_instance_against_Nothing ext self left instance subst node
    view st left_name :
  full_name left = Some left_name →
  _match_class_and_instance_against_type_def ext self
    left instance aNothing subst node view st = (Ret None, st).
Proof.
  intros Hl. unfold _match_class_and_instance_against_type_def.
  rewrite Hl. simpl.
  rewrite bool_decide_eq_false_2; [done|].
  intros (v' & Hv)%compatible_builtins_prefix. discriminate Hv.
Qed.

(** C7: a variable with no binding matches every formal type.  The match
    returns the given substitution with its entries kept and, for each type
    parameter that is the formal type or a member of the formal union and
    whose name was not bound, an entry for a variable created by the match,
    which has no binding; no other name is bound, and when every such
    parameter was bound the given dictionary itself is returned and the
    store is unchanged.  Conversely an instance matched against the bottom
    type [Nothing] fails: the class-and-instance match returns [None] for
    every class, and so does the match of a value that is an instance whose
    classes all have a name. *)
Theorem C7_nothing_is_bottom :
  ∀ (ext : External) (d : nat),
    (∀ (v : var) (other_type : Value) (r : nat) (node : CFGNode ext)
       (view : View) (st : State),
        bindings_of (heap st) !!! v = [] →
        let before := (dicts st !!! r : gmap string var) in
        let names := omap name (right_side_options other_type) in
        ∃ r' st',
          match_var_against_type ext (AbstractMatcher ext (S d))
            v other_type (Some r) node view st = (Ret (Some r'), st')
          ∧ (∀ k x, before !! k = Some x →
                    (dicts st' !!! r' : gmap string var) !! k = Some x)
          ∧ (∀ k, before !! k = None → k ∈ names →
                  ∃ x, (dicts st' !!! r' : gmap string var) !! k = Some x
                       ∧ (next_var (heap st) ≤ x < next_var (heap st'))%nat
                       ∧ bindings_of (heap st') !!! x = [])
          ∧ (∀ k, before !! k = None → k ∉ names →
                  (dicts st' !!! r' : gmap string var) !! k = None)
          ∧ ((∀ k, k ∈ names → is_Some (before !! k)) → r' = r ∧ st' = st))
    ∧ (∀ (left instance : Value) (subst : PySubst) (node : CFGNode ext)
         (view : View) (st : State) (left_name : string),
          full_name left = Some left_name →
          _match_class_and_instance_against_type ext (AbstractMatcher ext (S d))
            left instance aNothing subst node view st = (Ret None, st))
    ∧ (∀ (value : Binding) (c : var) (ps : list (string * var))
         (subst : PySubst) (node : CFGNode ext) (view : View) (st : State),
          data value = aSimpleAbstractValue (Some c) ps →
          formal ext (data value) = false →
          Forall (fun b => is_Some (full_name (data b)))
            (bindings_of (heap st) !!! c) →
          _match_value_against_type ext (AbstractMatcher ext (4 + d))
            value aNothing subst node view st = (Ret None, st)).
Proof.
  intros ext d. split; [|split].
  - intros v other_type r node view st Hempty before names.
    destruct (match_nothing_spec (right_side_options other_type) r st)
      as (r' & st' & Hrun & _ & _ & P1 & P2 & P3 & P4).
    exists r', st'. split; [|done].
    rewrite match_var_against_type_S. unfold match_var_against_type_def.
    simpl. rewrite Hempty, <- Hrun.
    destruct other_type; reflexivity.
  - intros left instance subst node view st left_name Hl.
    rewrite _match_class_and_instance_against_type_S.
    by eapply class_and_instance_against_Nothing.
  - intros value c ps subst node view st Hdata Hformal Hclasses.
    change (4 + d) with (S (S (S (S d)))).
    rewrite _match_value_against_type_S. unfold _match_value_against_type_def.
    rewrite Hformal, Hdata. simpl.
    unfold _match_type_against_type_def. simpl.
    unfold _match_instance_against_type_def. simpl.
    induction Hclasses as [|b bs [left_name Hb] _ IH]; [done|].
    simpl.
    rewrite (class_and_instance_against_Nothing _ _ _ _ _ _ _ _ _ Hb).
    exact IH.
Qed.

(** ** The given substitution is not modified *)

Ltac case_if :=
  match goal with
  | |- keeps _ (if ?c then _ else _) _ => destruct c eqn:?
  end.

Lemma kept_below_refl b st : kept_below b st st.
Proof. by split. Qed.

Lemma kept_below_trans b st1 st2 st3 :
  kept_below b st1 st2 → kept_below b st2 st3 → kept_below b st1 st3.
Proof.
  intros [Hle1 H1] [Hle2 H2]. split; [lia|].
  intros a Ha. by rewrite H2, H1.
Qed.

Lemma keeps_weaken {A} b (m : M A) (Q Q' : A → Prop) :
  keeps b m Q → (∀ a, Q a → Q' a) → keeps b m Q'.
Proof. intros H HQ st Hb. destruct (H st Hb). naive_solver. Qed.

Lemma keeps_ret {A} b (a : A) (Q : A → Prop) : Q a → keeps b (ret a) Q.
Proof.
  intros HQ st _. split; [apply kept_below_refl|]. by intros ? [= <-].
Qed.

Lemma keeps_raise {A} b e (Q : A → Prop) : keeps b (raise e) Q.
Proof. intros st _. split; [apply kept_below_refl|done]. Qed.

Lemma keeps_bind {A B} b (m : M A) (k : A → M B) Q Q' :
  keeps b m Q → (∀ a, Q a → keeps b (k a) Q') → keeps b (bind m k) Q'.
Proof.
  intros Hm Hk st Hb. destruct (Hm st Hb) as [Hkept HQ].
  unfold bind. destruct (m st) as [[a|e] st1]; simpl in *.
  - pose proof Hkept as [Hle _].
    destruct (Hk a (HQ a eq_refl) st1) as [Hkept' HQ']; [lia|].
    split; [|done]. by eapply kept_below_trans.
  - done.
Qed.

Lemma keeps_pure {A} b (m : M A) :
  (∀ st, dicts (m st).2 = dicts st ∧ next_dict (m st).2 = next_dict st) →
  keeps b m (fun _ => True).
Proof.
  intros H st _. destruct (H st) as [Hd Hn]. split; [|done].
  split; [lia|]. intros a _. by rewrite Hd.
Qed.

Lemma keeps_get_or {A} b e (o : option A) : keeps b (get_or e o) (fun _ => True).
Proof. apply keeps_pure. by destruct o. Qed.

Lemma keeps_assert b c : keeps b (assert c) (fun _ => True).
Proof. apply keeps_pure. by destruct c. Qed.

Lemma keeps_lift {A} b (o : outcome A) : keeps b (lift o) (fun _ => True).
Proof. by apply keeps_pure. Qed.

Lemma keeps_on_heap {A} b (f : Heap → A * Heap) :
  keeps b (on_heap f) (fun _ => True).
Proof. apply keeps_pure. intros st. unfold on_heap. by destruct (f (heap st)). Qed.

Lemma keeps_bindings b v : keeps b (bindings v) (fun _ => True).
Proof. by apply keeps_pure. Qed.

Lemma keeps_view_getitem b view v : keeps b (view_getitem view v) (fun _ => True).
Proof. apply keeps_get_or. Qed.

Lemma keeps_log_error b msg : keeps b (log_error msg) (fun _ => True).
Proof. by apply keeps_pure. Qed.

Lemma keeps_dict_contains b n subst :
  keeps b (dict_contains n subst) (fun _ => True).
Proof. apply keeps_pure. by destruct subst. Qed.

Lemma keeps_dict_getitem b subst n :
  keeps b (dict_getitem subst n) (fun _ => True).
Proof.
  apply keeps_pure. intros st. destruct subst as [r|]; [|done]. simpl.
  by destruct (_ !! n).
Qed.

Lemma keeps_HashableDict b subst : keeps b (HashableDict subst) (fun _ => True).
Proof. apply keeps_pure. by destruct subst. Qed.

(** A copy is a new dictionary: its reference is not below [b]. *)
Lemma keeps_dict_copy b subst :
  keeps b (dict_copy subst) (fun s => ∃ r, s = Some r ∧ (b ≤ r)%nat).
Proof.
  intros st Hb. destruct subst as [r|]; simpl; [|by split].
  split.
  - split; simpl; [lia|]. intros a Ha. apply lookup_insert_ne. lia.
  - intros ? [= <-]. eauto.
Qed.

Lemma keeps_dict_new b :
  keeps b dict_new (fun s => ∃ r, s = Some r ∧ (b ≤ r)%nat).
Proof.
  intros st Hb. simpl. split.
  - split; simpl; [lia|]. intros a Ha. apply lookup_insert_ne. lia.
  - intros ? [= <-]. eauto.
Qed.

(** An item is set in a dictionary that is not below [b]. *)
Lemma keeps_dict_setitem b r n v :
  (b ≤ r)%nat → keeps b (dict_setitem (Some r) n v) (fun _ => True).
Proof.
  intros Hr st Hb. simpl. split; [|done].
  split; simpl; [lia|]. intros a Ha. apply lookup_insert_ne. lia.
Qed.

Lemma keeps_NewVariable b : keeps b NewVariable (fun _ => True).
Proof. apply keeps_on_heap. Qed.

Lemma keeps_AddBinding b v d source_set :
  keeps b (AddBinding v d source_set) (fun _ => True).
Proof. apply keeps_on_heap. Qed.

Lemma keeps_add_all b v bs : keeps b (add_all v bs) (fun _ => True).
Proof.
  induction bs as [|x bs IH]; simpl; [by apply keeps_ret|].
  eapply keeps_bind; [apply keeps_AddBinding|]. intros _ _. exact IH.
Qed.

Lemma keeps_Variable_AssignToNewVariable b v :
  keeps b (Variable_AssignToNewVariable v) (fun _ => True).
Proof.
  unfold Variable_AssignToNewVariable.
  eapply keeps_bind; [apply keeps_bindings|]. intros bs _.
  eapply keeps_bind; [apply keeps_NewVariable|]. intros new_var _.
  eapply keeps_bind; [apply keeps_add_all|]. intros _ _. by apply keeps_ret.
Qed.

Lemma keeps_Binding_AssignToNewVariable b value :
  keeps b (Binding_AssignToNewVariable value) (fun _ => True).
Proof.
  unfold Binding_AssignToNewVariable.
  eapply keeps_bind; [apply keeps_NewVariable|]. intros new_var _.
  eapply keeps_bind; [apply keeps_AddBinding|]. intros _ _. by apply keeps_ret.
Qed.

Lemma keeps_add_same_type_key ext b new_var value type_key others :
  keeps b (add_same_type_key ext new_var value type_key others) (fun _ => True).
Proof.
  induction others as [|o others IH]; simpl; [by apply keeps_ret|].
  eapply keeps_bind; [|intros _ _; exact IH].
  repeat case_if; first [by apply keeps_ret | apply keeps_AddBinding].
Qed.

Lemma keeps_first_match {A} b (f : A → M PySubst) l :
  (∀ x, keeps b (f x) (fun _ => True)) →
  keeps b (first_match f l) (fun _ => True).
Proof.
  intros Hf. induction l as [|x l IH]; simpl; [by apply keeps_ret|].
  eapply keeps_bind; [apply Hf|]. intros [r|] _; [by apply keeps_ret|exact IH].
Qed.

Lemma keeps_thread {A} b (f : A → PySubst → M PySubst) l subst :
  (∀ x s, keeps b (f x s) (fun _ => True)) →
  keeps b (thread f l subst) (fun _ => True).
Proof.
  intros Hf. revert subst.
  induction l as [|x l IH]; intros subst; simpl; [by apply keeps_ret|].
  eapply keeps_bind; [apply Hf|]. intros [r|] _; [apply IH|by apply keeps_ret].
Qed.

Lemma keeps_match_nothing b opts subst :
  keeps b (match_nothing opts subst) (fun _ => True).
Proof.
  revert subst. induction opts as [|o opts IH]; intros subst; simpl.
  { by apply keeps_ret. }
  case_if; [|apply IH].
  eapply keeps_bind; [apply keeps_get_or|]. intros n _.
  eapply keeps_bind; [apply keeps_dict_contains|]. intros bound _.
  case_if; [|apply IH].
  eapply keeps_bind; [apply keeps_dict_copy|]. intros s (r & -> & Hr).
  eapply keeps_bind; [apply keeps_NewVariable|]. intros v _.
  eapply keeps_bind; [by apply keeps_dict_setitem|]. intros _ _. apply IH.
Qed.

Lemma keeps_done {A} b (a : A) : keeps b (ret a) (fun _ => True).
Proof. by apply keeps_ret. Qed.

(** The rules above, applied along the structure of a method body. *)
Ltac keeps_leaf K :=
  first
    [ apply keeps_done | apply keeps_raise | apply keeps_get_or
    | apply keeps_assert | apply keeps_lift | apply keeps_on_heap
    | apply keeps_bindings | apply keeps_view_getitem | apply keeps_log_error
    | apply keeps_dict_contains | apply keeps_dict_getitem
    | apply keeps_HashableDict | apply keeps_dict_copy | apply keeps_dict_new
    | apply keeps_dict_setitem; assumption
    | apply keeps_NewVariable | apply keeps_AddBinding
    | apply keeps_Variable_AssignToNewVariable
    | apply keeps_Binding_AssignToNewVariable
    | apply keeps_add_same_type_key | apply keeps_match_nothing
    | apply (keeps_match_var_against_type _ K)
    | apply (keeps__match_value_against_type _ K)
    | apply (keeps__match_type_against_type _ K)
    | apply (keeps__instantiate_and_match _ K)
    | apply (keeps__match_instance_against_type _ K)
    | apply (keeps__match_instance _ K)
    | apply (keeps__match_maybe_parameterized_instance _ K)
    | apply (keeps__match_heterogeneous_tuple_instance _ K)
    | apply (keeps__match_class_and_instance_against_type _ K) ].

Ltac keeps_auto K :=
  first
    [ keeps_leaf K
    | apply keeps_first_match; intros ?; keeps_auto K
    | apply keeps_thread; intros ? ?; keeps_auto K
    | case_if; keeps_auto K
    | match goal with
      | |- keeps _ (match ?x with _ => _ end) _ => destruct x; keeps_auto K
      | |- keeps _ (bind _ _) _ =>
          eapply keeps_bind;
          [keeps_auto K
          |let a := fresh "a" in
           let Ha := fresh "Ha" in
           intros a Ha;
           try (destruct Ha as (? & -> & ?));
           keeps_auto K]
      end
    | idtac ].

Section KeepsMethods.
Context (ext : External) (self : Methods ext) (K : Keeps self).

Lemma keeps_match_template b left instance other_type node names subst view :
  keeps b (match_template ext self left instance other_type node names subst
             view) (fun _ => True).
Proof.
  revert subst view.
  induction names as [|x names IH]; intros subst view;
    [apply keeps_done|].
  cbn [match_template]. keeps_auto K. apply IH.
Qed.

Lemma keeps_match_slots b class_params node view i instance_params subst :
  keeps b (match_slots ext self class_params node view i instance_params subst)
    (fun _ => True).
Proof.
  revert i subst.
  induction instance_params as [|x l IH]; intros i subst; [apply keeps_done|].
  cbn [match_slots]. keeps_auto K. apply IH.
Qed.

Lemma keeps_compute_subst_loop b node formal_args arg_dict view subst :
  keeps b (compute_subst_loop ext self node formal_args arg_dict view subst)
    (fun _ => True).
Proof.
  revert subst.
  induction formal_args as [|[name formal] l IH]; intros subst;
    cbn [compute_subst_loop]; keeps_auto K. apply IH.
Qed.

Lemma Keeps_step :
  Keeps
    {| match_var_against_type := match_var_against_type_def ext self;
       _match_value_against_type := _match_value_against_type_def ext self;
       _match_type_against_type := _match_type_against_type_def ext self;
       _instantiate_and_match := _instantiate_and_match_def ext self;
       _match_instance_against_type :=
         _match_instance_against_type_def ext self;
       _match_instance := _match_instance_def ext self;
       _match_maybe_parameterized_instance :=
         _match_maybe_parameterized_instance_def ext self;
       _match_heterogeneous_tuple_instance :=
         _match_heterogeneous_tuple_instance_def ext self;
       _match_class_and_instance_against_type :=
         _match_class_and_instance_against_type_def ext self |}.
Proof.
  split; intros; cbn [match_var_against_type _match_value_against_type
    _match_type_against_type _instantiate_and_match
    _match_instance_against_type _match_instance
    _match_maybe_parameterized_instance _match_heterogeneous_tuple_instance
    _match_class_and_instance_against_type].
  - unfold match_var_against_type_def. keeps_auto K.
  - unfold _match_value_against_type_def. keeps_auto K.
  - unfold _match_type_against_type_def. keeps_auto K.
  - unfold _instantiate_and_match_def. keeps_auto K.
  - unfold _match_instance_against_type_def. keeps_auto K.
  - unfold _match_instance_def. keeps_auto K.
  - unfold _match_maybe_parameterized_instance_def. keeps_auto K.
    all: apply keeps_match_template.
  - unfold _match_heterogeneous_tuple_instance_def. keeps_auto K.
    all: apply keeps_match_slots.
  - unfold _match_class_and_instance_against_type_def. keeps_auto K.
Qed.

End KeepsMethods.

Lemma Keeps_exhausted ext : Keeps (exhausted ext).
Proof. split; intros; apply keeps_raise. Qed.

Lemma Keeps_AbstractMatcher ext d : Keeps (AbstractMatcher ext d).
Proof.
  induction d as [|d IH]; [apply Keeps_exhausted|]. by apply Keeps_step.
Qed.

(** C9: no matching operation modifies a substitution it is given.  After a
    call of [_match_value_against_type] or [match_var_against_type],
    whatever it returns or raises, every dictionary that existed before the
    call, the given one among them, has the entries it had: an update is made
    on a copy, which is a new dictionary.  The same holds for
    [compute_subst]. *)
Theorem C9_substitution_not_modified :
  ∀ (ext : External) (d : nat) (other_type : Value) (subst : PySubst)
    (node : CFGNode ext) (view : View) (st : State) (a : nat),
    (a < next_dict st)%nat →
    (∀ value,
        dicts (_match_value_against_type ext (AbstractMatcher ext d)
                 value other_type subst node view st).2 !! a
        = dicts st !! a)
    ∧ (∀ v,
        dicts (match_var_against_type ext (AbstractMatcher ext d)
                 v other_type subst node view st).2 !! a
        = dicts st !! a)
    ∧ (∀ formal_args arg_dict,
        dicts (compute_subst ext (AbstractMatcher ext d)
                 node formal_args arg_dict view st).2 !! a
        = dicts st !! a).
Proof.
  intros ext d other_type subst node view st a Ha.
  pose proof (Keeps_AbstractMatcher ext d) as K.
  split; [|split].
  - intros value.
    destruct (keeps__match_value_against_type _ K (next_dict st)
                value other_type subst node view st) as [[_ H] _]; [done|].
    by apply H.
  - intros v.
    destruct (keeps_match_var_against_type _ K (next_dict st)
                v other_type subst node view st) as [[_ H] _]; [done|].
    by apply H.
  - intros formal_args arg_dict.
    assert (Hk : keeps (next_dict st)
                   (compute_subst ext (AbstractMatcher ext d) node formal_args
                      arg_dict view) (fun _ => True)).
    { unfold compute_subst. keeps_auto K.
      apply keeps_compute_subst_loop. exact K. }
    destruct (Hk st) as [[_ H] _]; [done|]. by apply H.
Qed.

(** ** The walk along the MRO *)

Lemma mro_walk_passes other_type base rest :
  ambiguous base ∨ other_class other_type base →
  mro_walk other_type (base :: rest) = mro_walk other_type rest.
Proof.
  intros [(c & Hc & Hcls & Hamb) | [(c & Hc & Hcls) Hnq]]; simpl;
    unfold unparameterized in Hc; rewrite Hc.
  - by rewrite Hcls, Hamb.
  - rewrite Hcls.
    destruct (is_ other_type c) eqn:His.
    { exfalso. apply Hnq. exists c. unfold unparameterized. eauto. }
    destruct (is_ParameterizedClass other_type) eqn:Hp; simpl; [|done].
    destruct (Matcher.base_cls other_type) as [ob|] eqn:Hob; [|done].
    destruct (is_ ob c) eqn:Hobc; [|done].
    exfalso. apply Hnq. exists c. unfold unparameterized. eauto 10.
Qed.

Lemma mro_walk_hit other_type base rest :
  qualifies other_type base →
  mro_walk other_type (base :: rest) = Ret (Some base).
Proof.
  intros (c & Hc & Hcls & Hq). simpl. unfold unparameterized in Hc.
  rewrite Hc, Hcls.
  destruct Hq as [-> | (-> & ob & -> & ->)]; [done|].
  by rewrite orb_true_r.
Qed.

Lemma mro_walk_app other_type pre rest :
  Forall (fun b => ambiguous b ∨ other_class other_type b) pre →
  mro_walk other_type (pre ++ rest) = mro_walk other_type rest.
Proof.
  induction 1 as [|b pre Hb _ IH]; [done|].
  rewrite <- app_comm_cons, mro_walk_passes by done. exact IH.
Qed.

(** C5: in the walk along the MRO an ambiguous or unknown base is passed
    over like a class that is not the one looked for; the walk returns the
    first base whose un-parameterized identity is the formal type (or its
    generic base), and [None] when no base qualifies.  So a class with an
    ambiguous base ahead of the matching ancestor is still matched through
    that ancestor: the class-and-instance match goes on with
    [_match_instance] on it. *)
Theorem C5_mro_walk_skips_ambiguous_bases :
  ∀ (ext : External) (left other_type : Value),
    (∀ pre base post,
        mro left = Some (pre ++ base :: post) →
        Forall (fun b => ambiguous b ∨ other_class other_type b) pre →
        qualifies other_type base →
        _match_from_mro left other_type = Ret (Some base)
        ∧ ∀ self instance subst node view other_name left_name st,
            full_name other_type = Some other_name →
            other_name ≠ "__builtin__.object" →
            full_name left = Some left_name →
            compatible_builtins ext !! left_name ≠ Some other_name →
            is_Class other_type = true →
            _match_class_and_instance_against_type_def ext self
              left instance other_type subst node view st
            = _match_instance ext self base instance other_type subst node view
                st)
    ∧ (∀ bases,
        mro left = Some bases →
        Forall (fun b => ambiguous b ∨ other_class other_type b) bases →
        _match_from_mro left other_type = Ret None).
Proof.
  intros ext left other_type. split.
  - intros pre base post Hmro Hpre Hq.
    assert (Hwalk : _match_from_mro left other_type = Ret (Some base)).
    { unfold _match_from_mro. rewrite Hmro, mro_walk_app by done.
      by apply mro_walk_hit. }
    split; [done|].
    intros self instance subst node view other_name left_name st
      Hon Hobj Hln Hcompat Hcls.
    unfold _match_class_and_instance_against_type_def.
    rewrite Hon, Hln, Hcls, Hwalk.
    unfold bind, get_or, ret, lift.
    destruct (String.eqb_spec other_name "__builtin__.object"); [done|].
    by rewrite bool_decide_eq_false_2.
  - intros bases Hmro Hall. unfold _match_from_mro. rewrite Hmro.
    rewrite <- (app_nil_r bases). by rewrite mro_walk_app.
Qed.

(** ** The theorems at concrete inputs *)

(** The union [str | T | int] against an instance of [int]: [str] fails,
    then [T] matches and [int] is not tried. *)
Lemma C1_witness :
  ∃ st2,
    _match_value_against_type ext0 (AbstractMatcher ext0 6) an_int
      (aUnion [str; aTypeParameter "T"; int]) (Some 0) tt view0 st0
    = (Ret (Some 1), st2).
Proof.
  eexists.
  eapply (proj1 (C1_union_first_member_wins ext0 5 an_int
                   [str; aTypeParameter "T"; int] (Some 0) tt view0 st0
                   eq_refl)
            [str] (aTypeParameter "T") [int]).
  - reflexivity.
  - eapply all_fail_cons; [|apply all_fail_nil]. vm_compute. reflexivity.
  - vm_compute. reflexivity.
Defined.

(** The pairs [x: T] and [y: Nothing]: the first matches, the second fails
    and its name is reported. *)
Lemma C2_witness :
  ∃ st2,
    compute_subst ext0 (AbstractMatcher ext0 6) tt
      [("x", aTypeParameter "T"); ("y", aNothing)]
      {["x" := an_int; "y" := a_str]} view0 st0
    = (Ret (None, Some "y"), st2).
Proof.
  eexists.
  eapply (proj1 (C2_compute_subst_fold ext0 (AbstractMatcher ext0 6) tt
                   [("x", aTypeParameter "T"); ("y", aNothing)]
                   {["x" := an_int; "y" := a_str]} view0 st0 _ _)
            [("x", aTypeParameter "T")] "y" aNothing []).
  - reflexivity.
  - eapply all_match_cons; [|apply all_match_nil]. vm_compute. reflexivity.
  - vm_compute. reflexivity.
  Unshelve.
  + discriminate.
  + intros name formal [[= -> ->]|H]%elem_of_cons.
    * exists an_int. vm_compute. reflexivity.
    * apply list_elem_of_singleton in H as [= -> ->].
      exists a_str. vm_compute. reflexivity.
Defined.

(** ["K"] is bound to the variable 3, which holds an instance of [str]; an
    instance of [int] is matched against the parameter [K]. *)
Lemma C3_witness :
  ∃ st',
    _match_value_against_type ext0 (AbstractMatcher ext0 1) an_int
      (aTypeParameter "K") (Some 0) tt view0 st0
    = (Ret (Some 1), st')
    ∧ values_of st' 6
      = [aSimpleAbstractValue (Some 2) []; aSimpleAbstractValue (Some 0) []]
    ∧ values_of st' 3 = [aSimpleAbstractValue (Some 2) []].
Proof.
  destruct (C3_type_parameter_merge ext0 0 an_int "K" 0 tt view0 st0 eq_refl)
    as (st' & Hrun & _ & Hnew & Hother).
  { simpl. lia. }
  exists st'. split; [exact Hrun|]. split.
  - change 6 with (next_var (heap st0)). rewrite Hnew. vm_compute. reflexivity.
  - unfold values_of. rewrite Hother by (simpl; lia). vm_compute. reflexivity.
Defined.

(** The class [mixed] has an unknown base ahead of its base [int]. *)
Lemma C5_witness : _match_from_mro mixed int = Ret (Some int).
Proof.
  refine (proj1 (proj1 (C5_mro_walk_skips_ambiguous_bases ext0 mixed int)
                   [aClass 4 "m.Mixed" [] None; aUnknown] int [object]
                   eq_refl _ _)).
  - constructor; [|constructor; [|constructor]].
    + right. split; [by exists (aClass 4 "m.Mixed" [] None)|].
      intros (c & [= <-] & _ & [?|[? _]]); discriminate.
    + left. by exists aUnknown.
  - exists int. split; [reflexivity|]. split; [reflexivity|]. by left.
Defined.

(** A literal tuple of three elements against [tuple[int, str]]. *)
Lemma tuple_slots_of_literal_tuple_witness :
  _match_heterogeneous_tuple_instance_def ext0 (AbstractMatcher ext0 3)
    tuple_int_str triple tuple_int_str (Some 0) tt view0 st0
  = (Ret None, st0).
Proof.
  apply (proj1 (tuple_slots_of_literal_tuple ext0 (AbstractMatcher ext0 3)
                  tuple_int_str triple tuple_int_str [1; 3; 1]
                  [(KInt 0, int); (KInt 1, str); (KStr "T", aUnion [int; str])]
                  (Some 0) tt view0 st0 eq_refl eq_refl eq_refl eq_refl)).
  simpl. lia.
Defined.

(** The variable 5 has no binding; it is matched against [K | V].  An
    instance of [int] is matched against [Nothing]. *)
Lemma C7_witness :
  (∃ r' st',
      match_var_against_type ext0 (AbstractMatcher ext0 1) 5
        (aUnion [aTypeParameter "K"; aTypeParameter "V"]) (Some 0) tt view0 st0
      = (Ret (Some r'), st')
      ∧ (dicts st' !!! r' : gmap string var) !! "K" = Some 3
      ∧ ∃ x, (dicts st' !!! r' : gmap string var) !! "V" = Some x
             ∧ bindings_of (heap st') !!! x = [])
  ∧ _match_class_and_instance_against_type ext0 (AbstractMatcher ext0 1)
      int (data an_int) aNothing (Some 0) tt view0 st0 = (Ret None, st0)
  ∧ _match_value_against_type ext0 (AbstractMatcher ext0 4)
      an_int aNothing (Some 0) tt view0 st0 = (Ret None, st0).
Proof.
  destruct (C7_nothing_is_bottom ext0 0) as (H1 & H2 & H3).
  split; [|split].
  - destruct (H1 5 (aUnion [aTypeParameter "K"; aTypeParameter "V"]) 0 tt
                view0 st0 eq_refl)
      as (r' & st' & Hrun & P1 & P2 & _).
    exists r', st'. split; [exact Hrun|]. split.
    + apply P1. vm_compute. reflexivity.
    + destruct (P2 "V") as (x & Hx & _ & Hbs).
      * vm_compute. reflexivity.
      * simpl. apply list_elem_of_In. simpl. tauto.
      * exists x. by split.
  - apply (H2 int (data an_int) (Some 0) tt view0 st0 "__builtin__.int").
    reflexivity.
  - apply (H3 an_int 0 [] (Some 0) tt view0 st0 eq_refl eq_refl).
    repeat constructor. simpl. eauto.
Defined.

(** The dictionary 0 exists before the match of an instance of [int]
    against the parameter [K], which is bound in it. *)
Lemma C9_witness :
  dicts (_match_value_against_type ext0 (AbstractMatcher ext0 2) an_int
           (aTypeParameter "K") (Some 0) tt view0 st0).2 !! 0
  = dicts st0 !! 0.
Proof.
  apply (proj1 (C9_substitution_not_modified ext0 2 (aTypeParameter "K")
                  (Some 0) tt view0 st0 0 ltac:(simpl; lia))).
Defined.

(** With an argument map that has [x] only: the pairs [x: T] and [y: T]
    raise [KeyError] at [y]; with the pairs [x: Nothing] and [y: T] the match
    of [x] fails and [y] is not looked up. *)
Lemma C10_witness :
  let arg_dict : gmap string Binding := {["x" := an_int]} in
  size arg_dict ≠ 0 ∧ arg_dict !! "y" = None
  ∧ (∃ st1,
        compute_subst ext0 (AbstractMatcher ext0 6) tt
          [("x", aTypeParameter "T"); ("y", aTypeParameter "T")]
          arg_dict view0 st0
        = (Raise KeyError, st1))
  ∧ (∃ st2,
        compute_subst ext0 (AbstractMatcher ext0 6) tt
          [("x", aNothing); ("y", aTypeParameter "T")] arg_dict view0 st0
        = (Ret (None, Some "x"), st2)).
Proof.
  intros arg_dict.
  assert (Hsize : size arg_dict ≠ 0) by (by vm_compute).
  assert (Hy : arg_dict !! "y" = None) by (by vm_compute).
  split; [exact Hsize|]. split; [exact Hy|]. split.
  - assert (Hpre : ∃ subst1 st1,
              all_match (match_pair ext0 (AbstractMatcher ext0 6) tt arg_dict
                           view0)
                [("x", aTypeParameter "T")] (Some (next_dict st0))
                (mkState (heap st0) (<[next_dict st0 := ∅]> (dicts st0))
                         (S (next_dict st0)) (log st0))
                subst1 st1).
    { do 2 eexists. eapply all_match_cons; [|apply all_match_nil].
      vm_compute. reflexivity. }
    destruct Hpre as (subst1 & st1 & Hpre). exists st1.
    exact (proj1 (C10_absent_name_raises_KeyError ext0
                    (AbstractMatcher ext0 6) tt
                    [("x", aTypeParameter "T"); ("y", aTypeParameter "T")]
                    arg_dict view0 st0
                    [("x", aTypeParameter "T")] "y" (aTypeParameter "T") []
                    subst1 st1 Hsize eq_refl Hpre) Hy).
  - eexists.
    eapply (proj2 (C10_absent_name_raises_KeyError ext0
                     (AbstractMatcher ext0 6) tt
                     [("x", aNothing); ("y", aTypeParameter "T")]
                     arg_dict view0 st0
                     [] "x" aNothing [("y", aTypeParameter "T")]
                     _ _ Hsize eq_refl (all_match_nil _ _ _))).
    vm_compute. reflexivity.
Defined.

End MatcherProperties.

(** * Part IV: properties of the declared types *)

Module PytdProperties.
Import Pytd.

(** ** Equality of nodes *)

Lemma tuple_eqb_Forall2 f xs ys :
  tuple_eqb f xs ys = true ↔ Forall2 (fun x y => f x y = true) xs ys.
Proof.
  revert ys. induction xs as [|x xs IH]; intros [|y ys]; simpl.
  - split; [constructor|done].
  - split; [done|inversion 1].
  - split; [done|inversion 1].
  - rewrite andb_true_iff, IH. split.
    + intros [? ?]. by constructor.
    + by inversion 1.
Qed.

Lemma frozenset_eqb_spec f xs ys :
  frozenset_eqb f xs ys = true
  ↔ (∀ x, x ∈ xs → ∃ y, y ∈ ys ∧ f x y = true)
    ∧ (∀ y, y ∈ ys → ∃ x, x ∈ xs ∧ f x y = true).
Proof.
  unfold frozenset_eqb. rewrite andb_true_iff, !forallb_forall.
  split; intros [H1 H2]; split.
  - intros x Hx%list_elem_of_In. apply H1, existsb_exists in Hx as (y & Hy & E).
    exists y. by rewrite list_elem_of_In.
  - intros y Hy%list_elem_of_In. apply H2, existsb_exists in Hy as (x & Hx & E).
    exists x. by rewrite list_elem_of_In.
  - intros x Hx%list_elem_of_In. apply existsb_exists.
    destruct (H1 x Hx) as (y & Hy%list_elem_of_In & E). eauto.
  - intros y Hy%list_elem_of_In. apply existsb_exists.
    destruct (H2 y Hy) as (x & Hx%list_elem_of_In & E). eauto.
Qed.

Lemma eqb_Obj c fs d gs :
  eqb (Obj c fs) (Obj d gs)
  = bool_decide (c = d)
    && match union_members c fs, union_members c gs with
       | Some xs, Some ys => frozenset_eqb eqb xs ys
       | _, _ => tuple_eqb eqb fs gs
       end.
Proof.
  destruct c; try reflexivity.
  destruct fs as [|[] [|]]; try reflexivity.
  destruct gs as [|[] [|]]; reflexivity.
Qed.

Lemma union_members_tuple_eqb_l c fs gs xs :
  union_members c fs = Some xs → tuple_eqb eqb fs gs = true →
  is_Some (union_members c gs).
Proof.
  destruct c; try done. destruct fs as [|[] [|]]; try done. intros _.
  destruct gs as [|[] [|]]; try done; simpl; eauto.
  all: by rewrite andb_false_r.
Qed.

Lemma union_members_tuple_eqb_r c fs gs ys :
  union_members c gs = Some ys → tuple_eqb eqb fs gs = true →
  is_Some (union_members c fs).
Proof.
  destruct c; try done. destruct gs as [|[] [|]]; try done. intros _.
  destruct fs as [|[] [|]]; try done; simpl; eauto.
  all: by rewrite andb_false_r.
Qed.

Lemma eqb_PyTuple xs ys : eqb (PyTuple xs) (PyTuple ys) = tuple_eqb eqb xs ys.
Proof. reflexivity. Qed.

Lemma node_size_elem x l : x ∈ l → (node_size x ≤ list_sum (map node_size l))%nat.
Proof.
  induction 1 as [x l|x y l _ IH]; simpl; lia.
Qed.

Lemma union_members_size c fs xs x :
  union_members c fs = Some xs → x ∈ xs →
  (node_size x < node_size (Obj c fs))%nat.
Proof.
  destruct c; try done. destruct fs as [|[] [|]]; try done.
  intros [= ->] Hx%node_size_elem. simpl. lia.
Qed.

Lemma field_size c fs x : x ∈ fs → (node_size x < node_size (Obj c fs))%nat.
Proof. intros Hx%node_size_elem. simpl. lia. Qed.

Lemma item_size xs x : x ∈ xs → (node_size x < node_size (PyTuple xs))%nat.
Proof. intros Hx%node_size_elem. simpl. lia. Qed.

(** Induction on the size of a node. *)
Lemma node_size_ind (P : Node → Prop) :
  (∀ a, (∀ x, (node_size x < node_size a)%nat → P x) → P a) → ∀ a, P a.
Proof.
  intros H a. remember (node_size a) as n eqn:Hn. revert a Hn.
  induction n as [n IH] using lt_wf_ind. intros a ->.
  apply H. intros x Hx. by eapply IH.
Qed.

Lemma eqb_refl a : eqb a a = true.
Proof.
  induction a as [a IH] using node_size_ind.
  assert (Htuple : ∀ l, (∀ x, x ∈ l → eqb x x = true) → tuple_eqb eqb l l = true).
  { intros l Hl. apply tuple_eqb_Forall2.
    induction l as [|x l IHl]; constructor.
    - apply Hl. left.
    - apply IHl. intros y Hy. apply Hl. by right. }
  destruct a as [|s|b|xs|c fs].
  - done.
  - apply String.eqb_refl.
  - by destruct b.
  - rewrite eqb_PyTuple. apply Htuple. intros x Hx. by apply IH, item_size.
  - rewrite eqb_Obj, bool_decide_eq_true_2 by done. simpl.
    destruct (union_members c fs) as [xs|] eqn:Hu.
    + apply frozenset_eqb_spec. split; intros x Hx; exists x;
        (split; [done|]); eapply IH, union_members_size; eauto.
    + apply Htuple. intros x Hx. by apply IH, field_size.
Qed.

Lemma eqb_sym a b : eqb a b = true → eqb b a = true.
Proof.
  revert b. induction a as [a IH] using node_size_ind. intros b.
  assert (Htuple : ∀ l l', (∀ x, x ∈ l → ∀ y, eqb x y = true → eqb y x = true) →
                           tuple_eqb eqb l l' = true → tuple_eqb eqb l' l = true).
  { intros l l' Hl. rewrite !tuple_eqb_Forall2. intros H.
    induction H as [|x y l l' Hxy _ IHl]; constructor.
    - apply Hl; [left|done].
    - apply IHl. intros z Hz. apply Hl. by right. }
  destruct a as [|s|x|xs|c fs], b as [|t|y|ys|d gs]; try done.
  - simpl. rewrite !String.eqb_eq. congruence.
  - by destruct x, y.
  - rewrite !eqb_PyTuple. apply Htuple. intros x Hx. by apply IH, item_size.
  - rewrite !eqb_Obj, !andb_true_iff, !bool_decide_eq_true.
    intros [-> H]. split; [done|].
    destruct (union_members d fs) as [xs|] eqn:Hf,
             (union_members d gs) as [ys|] eqn:Hg.
    + apply frozenset_eqb_spec in H as [H1 H2]. apply frozenset_eqb_spec.
      split.
      * intros y Hy. destruct (H2 y Hy) as (x & Hx & E). exists x.
        split; [done|]. eapply IH; [|done]. by eapply union_members_size.
      * intros x Hx. destruct (H1 x Hx) as (y & Hy & E). exists y.
        split; [done|]. eapply IH; [|done]. by eapply union_members_size.
    + revert H. apply Htuple. intros x Hx. by apply IH, field_size.
    + revert H. apply Htuple. intros x Hx. by apply IH, field_size.
    + revert H. apply Htuple. intros x Hx. by apply IH, field_size.
Qed.

Lemma eqb_trans a b c : eqb a b = true → eqb b c = true → eqb a c = true.
Proof.
  revert b c. induction a as [a IH] using node_size_ind. intros b c.
  assert (Htuple : ∀ l l1 l2,
             (∀ x, x ∈ l → ∀ y z, eqb x y = true → eqb y z = true →
                                  eqb x z = true) →
             tuple_eqb eqb l l1 = true → tuple_eqb eqb l1 l2 = true →
             tuple_eqb eqb l l2 = true).
  { intros l l1 l2 Hl. rewrite !tuple_eqb_Forall2. intros H. revert l2.
    induction H as [|x y l l1 Hxy _ IHl]; intros l2 H2; inversion H2; subst;
      constructor.
    - eapply Hl; [left|done..].
    - apply IHl; [|done]. intros z Hz. apply Hl. by right. }
  destruct a as [|s|x|xs|k fs], b as [|t|y|ys|d gs]; try done;
    destruct c as [|u|z|zs|e hs]; try done.
  - simpl. rewrite !String.eqb_eq. congruence.
  - by destruct x, y, z.
  - rewrite !eqb_PyTuple. apply Htuple. intros x Hx. by apply IH, item_size.
  - rewrite !eqb_Obj, !andb_true_iff, !bool_decide_eq_true.
    intros [-> H] [-> H']. split; [done|].
    destruct (union_members e fs) as [xs|] eqn:Hf,
             (union_members e gs) as [ys|] eqn:Hg,
             (union_members e hs) as [zs|] eqn:Hh.
    + apply frozenset_eqb_spec in H as [H1 H2].
      apply frozenset_eqb_spec in H' as [H1' H2'].
      apply frozenset_eqb_spec. split.
      * intros x Hx. destruct (H1 x Hx) as (y & Hy & E).
        destruct (H1' y Hy) as (z & Hz & E'). exists z. split; [done|].
        eapply IH; [|done..]. by eapply union_members_size.
      * intros z Hz. destruct (H2' z Hz) as (y & Hy & E').
        destruct (H2 y Hy) as (x & Hx & E). exists x. split; [done|].
        eapply IH; [|done..]. by eapply union_members_size.
    + destruct (union_members_tuple_eqb_l _ _ _ _ Hg H'); congruence.
    + destruct (union_members_tuple_eqb_l _ _ _ _ Hf H); congruence.
    + destruct (union_members_tuple_eqb_l _ _ _ _ Hf H); congruence.
    + destruct (union_members_tuple_eqb_r _ _ _ _ Hg H); congruence.
    + destruct (union_members_tuple_eqb_l _ _ _ _ Hg H'); congruence.
    + destruct (union_members_tuple_eqb_r _ _ _ _ Hh H'); congruence.
    + revert H H'. apply Htuple. intros x Hx. by apply IH, field_size.
Qed.

(** ** [OrderedDict.fromkeys] *)

Lemma existsb_eqb_true keys x :
  existsb (fun k => eqb k x) keys = true ↔ member x keys.
Proof.
  rewrite existsb_exists. unfold member.
  split; intros (k & Hk & E); exists k; by rewrite ?list_elem_of_In in *.
Qed.

Lemma existsb_eqb_false keys x :
  existsb (fun k => eqb k x) keys = false ↔ ∀ k, k ∈ keys → eqb k x = false.
Proof.
  rewrite <- not_true_iff_false, existsb_eqb_true. unfold member. split.
  - intros H k Hk. apply not_true_iff_false. intros E. apply H. eauto.
  - intros H (k & Hk & E). rewrite (H k Hk) in E. done.
Qed.

Lemma fromkeys_acc_added keys l : fromkeys_acc keys l = keys ++ added keys l.
Proof.
  revert keys. induction l as [|x l IH]; intros keys; simpl.
  - by rewrite app_nil_r.
  - destruct (existsb _ keys); [apply IH|].
    by rewrite IH, <- app_assoc.
Qed.

Lemma fromkeys_added l : fromkeys l = added [] l.
Proof. apply fromkeys_acc_added. Qed.

Lemma added_sublist keys l : added keys l `sublist_of` l.
Proof.
  revert keys. induction l as [|x l IH]; intros keys; simpl; [constructor|].
  destruct (existsb _ keys).
  - apply sublist_cons, IH.
  - apply sublist_skip, IH.
Qed.

Lemma added_elem_of keys l y : y ∈ added keys l → y ∈ l.
Proof. intros H. eapply elem_of_sublist; [done|apply added_sublist]. Qed.

Lemma added_not_in_keys keys l y k :
  y ∈ added keys l → k ∈ keys → eqb k y = false.
Proof.
  revert keys. induction l as [|x l IH]; intros keys; simpl.
  { by intros ?%elem_of_nil. }
  destruct (existsb _ keys) eqn:E; [apply IH|].
  intros [->|Hy]%elem_of_cons Hk.
  - by eapply existsb_eqb_false.
  - eapply IH; [done|]. apply elem_of_app. by left.
Qed.

Lemma added_distinct keys l : distinct (added keys l).
Proof.
  revert keys. induction l as [|x l IH]; intros keys; simpl; [done|].
  destruct (existsb _ keys); [apply IH|].
  split; [|apply IH]. intros y Hy.
  eapply added_not_in_keys; [done|]. apply elem_of_app. right. left.
Qed.

Lemma added_complete keys l x :
  x ∈ l → member x keys ∨ member x (added keys l).
Proof.
  revert keys. induction l as [|z l IH]; intros keys; simpl.
  { by intros ?%elem_of_nil. }
  destruct (existsb _ keys) eqn:E.
  - intros [->|Hx]%elem_of_cons; [|by apply IH].
    left. by apply existsb_eqb_true.
  - intros [->|Hx]%elem_of_cons.
    + right. exists z. split; [left|apply eqb_refl].
    + destruct (IH (keys ++ [z]) Hx) as [(k & Hk & Ek)|(k & Hk & Ek)].
      * apply elem_of_app in Hk as [Hk|Hk].
        -- left. by exists k.
        -- apply list_elem_of_singleton in Hk as ->.
           right. exists z. split; [left|done].
      * right. exists k. split; [by right|done].
Qed.

Lemma added_first keys pre x post :
  (∀ p, p ∈ keys ∨ p ∈ pre → eqb p x = false) →
  x ∈ added keys (pre ++ x :: post).
Proof.
  revert keys. induction pre as [|z pre IH]; intros keys H; simpl.
  - rewrite (proj2 (existsb_eqb_false keys x)) by (intros; apply H; eauto).
    left.
  - destruct (existsb _ keys).
    + apply IH. intros p [?|?]; apply H; [by left|right; by right].
    + right. apply IH. intros p [[?|Hp]%elem_of_app|?].
      * apply H. by left.
      * apply list_elem_of_singleton in Hp as ->. apply H. right. left.
      * apply H. right. by right.
Qed.

Lemma fromkeys_distinct l : distinct (fromkeys l).
Proof. rewrite fromkeys_added. apply added_distinct. Qed.

Lemma member_fromkeys x l : member x (fromkeys l) ↔ member x l.
Proof.
  rewrite fromkeys_added. split.
  - intros (y & Hy & E). exists y. split; [by eapply added_elem_of|done].
  - intros (y & Hy & E).
    destruct (added_complete [] l y Hy) as [(k & Hk & _)|(k & Hk & Ek)].
    + by apply elem_of_nil in Hk.
    + exists k. split; [done|]. by eapply eqb_trans.
Qed.

Lemma member_eqb x y l : eqb x y = true → member x l → member y l.
Proof. intros E (k & Hk & Ek). exists k. split; [done|]. by eapply eqb_trans. Qed.

Lemma member_app x l1 l2 : member x (l1 ++ l2) ↔ member x l1 ∨ member x l2.
Proof.
  unfold member. split.
  - intros (y & [?|?]%elem_of_app & E); [left|right]; eauto.
  - intros [(y & ? & E)|(y & ? & E)]; exists y; rewrite elem_of_app; eauto.
Qed.

Lemma member_ext x l1 l2 :
  (∀ y, y ∈ l1 ↔ y ∈ l2) → member x l1 ↔ member x l2.
Proof.
  intros H. unfold member. split; intros (y & Hy & E); exists y;
    (split; [by apply H|done]).
Qed.

Lemma member_elem_of x l : x ∈ l → member x l.
Proof. intros H. exists x. split; [done|apply eqb_refl]. Qed.

(** ** Equality of unions *)

Lemma eqb_union xs ys :
  eqb (Obj cUnionType [PyTuple xs]) (Obj cUnionType [PyTuple ys]) = true
  ↔ ∀ x, member x xs ↔ member x ys.
Proof.
  rewrite eqb_Obj, bool_decide_eq_true_2 by done. simpl.
  rewrite frozenset_eqb_spec. split.
  - intros [H1 H2] x. split.
    + intros (y & Hy & E). destruct (H1 y Hy) as (z & Hz & Ez).
      exists z. split; [done|]. eapply eqb_trans; [|exact E]. by apply eqb_sym.
    + intros (y & Hy & E). destruct (H2 y Hy) as (z & Hz & Ez).
      exists z. split; [done|]. by eapply eqb_trans.
  - intros H. split.
    + intros x Hx. destruct (proj1 (H x) (member_elem_of _ _ Hx)) as (y & Hy & E).
      exists y. split; [done|]. by apply eqb_sym.
    + intros y Hy. destruct (proj2 (H y) (member_elem_of _ _ Hy)) as (x & Hx & E).
      by exists x.
Qed.

(** ** Hashes of equal nodes *)

Lemma distinct_app_inv A y B :
  distinct (A ++ y :: B) →
  distinct (A ++ B) ∧ (∀ a, a ∈ A → eqb a y = false)
  ∧ (∀ b, b ∈ B → eqb y b = false).
Proof.
  induction A as [|a A IH]; simpl.
  - intros [H1 H2]. split; [done|]. split; [|done]. by intros ? ?%elem_of_nil.
  - intros [Ha HA]. destruct (IH HA) as (HAB & HAy & HyB).
    split; [|split; [|done]].
    + split; [|done]. intros z [Hz|Hz]%elem_of_app; apply Ha, elem_of_app;
        [by left|right; by right].
    + intros z [->|Hz]%elem_of_cons; [|by apply HAy].
      apply Ha, elem_of_app. right. left.
Qed.

Lemma distinct_fmap_Permutation (f : Node → Z) D1 D2 :
  distinct D1 → distinct D2 →
  (∀ x, x ∈ D1 → ∃ y, y ∈ D2 ∧ eqb x y = true) →
  (∀ y, y ∈ D2 → ∃ x, x ∈ D1 ∧ eqb x y = true) →
  (∀ x y, x ∈ D1 → y ∈ D2 → eqb x y = true → f x = f y) →
  f <$> D1 ≡ₚ f <$> D2.
Proof.
  revert D2. induction D1 as [|x D1 IH]; intros D2 Hd1 Hd2 H12 H21 Hf.
  - destruct D2 as [|y D2]; [done|].
    destruct (H21 y) as (x & Hx & _); [left|]. by apply elem_of_nil in Hx.
  - destruct Hd1 as [Hx Hd1].
    destruct (H12 x) as (y & Hy & Exy); [left|].
    apply list_elem_of_split in Hy as (A & B & ->).
    destruct (distinct_app_inv _ _ _ Hd2) as (HdAB & HAy & HyB).
    rewrite fmap_app, !fmap_cons.
    etrans; [|apply Permutation_middle]. rewrite <- fmap_app.
    rewrite (Hf x y); [|left|apply elem_of_app; right; left|done].
    constructor. apply IH; [done..| | |].
    + intros x' Hx'. destruct (H12 x') as (y' & Hy' & E'); [by right|].
      exists y'. split; [|done].
      apply elem_of_app in Hy' as [?|[->|?]%elem_of_cons];
        apply elem_of_app; [by left| |by right].
      exfalso. assert (eqb x x' = true).
      { eapply eqb_trans; [exact Exy|]. by apply eqb_sym. }
      rewrite (Hx x' Hx') in H. done.
    + intros y' Hy'. destruct (H21 y') as (x' & Hx' & E').
      { apply elem_of_app in Hy' as [?|?]; apply elem_of_app;
          [by left|right; by right]. }
      apply elem_of_cons in Hx' as [->|Hx']; [|by exists x'].
      exfalso. assert (Eyy : eqb y y' = true).
      { eapply eqb_trans; [|exact E']. by apply eqb_sym. }
      apply elem_of_app in Hy' as [Hy'|Hy'].
      * apply eqb_sym in Eyy. rewrite (HAy y' Hy') in Eyy. done.
      * rewrite (HyB y' Hy') in Eyy. done.
    + intros x' y' Hx' Hy'. apply Hf; [by right|].
      apply elem_of_app in Hy' as [?|?]; apply elem_of_app;
        [by left|right; by right].
Qed.

Lemma fold_xor_Permutation (l1 l2 : list Z) :
  l1 ≡ₚ l2 → fold_right Z.lxor 0%Z l1 = fold_right Z.lxor 0%Z l2.
Proof.
  induction 1 as [|x l1 l2 _ IH|x y l|l1 l2 l3 _ IH1 _ IH2]; simpl.
  - done.
  - by rewrite IH.
  - by rewrite <- !Z.lxor_assoc, (Z.lxor_comm x y).
  - congruence.
Qed.

Lemma union_members_Some c fs xs :
  union_members c fs = Some xs → c = cUnionType ∧ fs = [PyTuple xs].
Proof.
  destruct c; try done. destruct fs as [|[] [|]]; try done.
  by intros [= ->].
Qed.

Section HashProperties.
Context (hash_none : Z) (hash_str : string → Z) (hash_tuple : list Z → Z)
  (shuffle : Z → Z) (finish : nat → Z → Z).

#[local] Abbreviation h := (hash hash_none hash_str hash_tuple shuffle finish).

Lemma frozenset_entries_added (f : Node → Z) seen l :
  frozenset_entries seen (map (fun x => (x, f x)) l)
  = (fun x => (x, f x)) <$> added seen l.
Proof.
  revert seen. induction l as [|x l IH]; intros seen; simpl; [done|].
  destruct (existsb _ seen); [apply IH|]. by rewrite IH.
Qed.

Lemma hash_union xs :
  h (Obj cUnionType [PyTuple xs])
  = finish (length (fromkeys xs))
      (fold_right Z.lxor 0%Z ((fun x => shuffle (h x)) <$> fromkeys xs)).
Proof.
  unfold h at 1. simpl. unfold frozenset_hash.
  rewrite frozenset_entries_added, <- fromkeys_added.
  rewrite length_fmap. f_equal. f_equal.
  rewrite <- list_fmap_compose. done.
Qed.

Lemma hash_fields c fs :
  union_members c fs = None → h (Obj c fs) = hash_tuple (map h fs).
Proof.
  destruct c; try reflexivity. destruct fs as [|[] [|]]; try reflexivity.
  done.
Qed.

Lemma hash_eqb a b : eqb a b = true → h a = h b.
Proof.
  revert b. induction a as [a IH] using node_size_ind. intros b.
  assert (Htuple : ∀ l l', (∀ x, x ∈ l → ∀ y, eqb x y = true → h x = h y) →
                           tuple_eqb eqb l l' = true → map h l = map h l').
  { intros l l' Hl. rewrite tuple_eqb_Forall2. intros H.
    induction H as [|x y l l' Hxy _ IHl]; [done|]. simpl. f_equal.
    - apply Hl; [left|done].
    - apply IHl. intros z Hz. apply Hl. by right. }
  destruct a as [|s|x|xs|c fs], b as [|t|y|ys|d gs]; try done.
  - simpl. by intros ->%String.eqb_eq.
  - by destruct x, y.
  - rewrite eqb_PyTuple. intros H. unfold h. simpl. f_equal.
    revert H. apply Htuple. intros x Hx. by apply IH, item_size.
  - rewrite eqb_Obj, andb_true_iff, bool_decide_eq_true. intros [-> H].
    destruct (union_members d fs) as [xs|] eqn:Hf,
             (union_members d gs) as [ys|] eqn:Hg.
    + apply union_members_Some in Hf as [-> ->] .
      apply union_members_Some in Hg as [_ ->].
      assert (Hu : eqb (Obj cUnionType [PyTuple xs])
                     (Obj cUnionType [PyTuple ys]) = true).
      { by rewrite eqb_Obj, bool_decide_eq_true_2. }
      pose proof (proj1 (eqb_union xs ys) Hu) as Hmem.
      rewrite !hash_union.
      assert (Hperm : (fun x => shuffle (h x)) <$> fromkeys xs
                      ≡ₚ (fun x => shuffle (h x)) <$> fromkeys ys).
      { apply distinct_fmap_Permutation; try apply fromkeys_distinct.
        - intros x Hx.
          assert (Hm : member x (fromkeys ys)).
          { apply member_fromkeys, Hmem, member_fromkeys.
            by apply member_elem_of. }
          destruct Hm as (y & Hy & E). exists y. split; [done|].
          by apply eqb_sym.
        - intros y Hy.
          assert (Hm : member y (fromkeys xs)).
          { apply member_fromkeys, Hmem, member_fromkeys.
            by apply member_elem_of. }
          destruct Hm as (x & Hx & E). by exists x.
        - intros x y Hx _ E. f_equal. revert E.
          rewrite fromkeys_added in Hx. apply added_elem_of in Hx.
          apply IH. apply node_size_elem in Hx. simpl. lia. }
      f_equal; [|by apply fold_xor_Permutation].
      apply Permutation_length in Hperm. by rewrite !length_fmap in Hperm.
    + destruct (union_members_tuple_eqb_l _ _ _ _ Hf H); congruence.
    + destruct (union_members_tuple_eqb_r _ _ _ _ Hg H); congruence.
    + rewrite !hash_fields by done. f_equal.
      revert H. apply Htuple. intros x Hx. by apply IH, field_size.
Qed.

End HashProperties.

(** ** The constructor of unions *)

Lemma flat_type_list_or_self t :
  flat t →
  type_list_or_self t ≠ []
  ∧ Forall (fun m => isinstance m cUnionType = false) (type_list_or_self t).
Proof.
  destruct t as [| | | |c fs]; try (by split; [|repeat constructor]).
  destruct c; try (by split; [|repeat constructor]).
  destruct fs as [|[] [|]]; try done.
Qed.

Lemma flattened_flat l :
  l ≠ [] → Forall flat l →
  flat_map type_list_or_self l ≠ []
  ∧ Forall (fun m => isinstance m cUnionType = false)
      (flat_map type_list_or_self l).
Proof.
  intros Hne Hall. split.
  - destruct l as [|t l]; [done|]. apply Forall_cons in Hall as [Ht _].
    apply flat_type_list_or_self in Ht as [Ht _]. simpl.
    destruct (type_list_or_self t); [done|]. done.
  - clear Hne. induction Hall as [|t l Ht _ IH]; simpl; [constructor|].
    apply Forall_app. split; [|done]. by apply flat_type_list_or_self.
Qed.

Lemma elem_of_flat_map (f : Node → list Node) l y :
  y ∈ flat_map f l ↔ ∃ x, x ∈ l ∧ y ∈ f x.
Proof.
  rewrite list_elem_of_In, in_flat_map.
  split; intros (x & Hx & Hy); exists x; by rewrite ?list_elem_of_In in *.
Qed.

Lemma UnionType_new_Ret l :
  l ≠ [] →
  UnionType_new l
  = Ret (Obj cUnionType [PyTuple (fromkeys (flat_map type_list_or_self l))]).
Proof. by destruct l. Qed.

Lemma fromkeys_nonempty l : l ≠ [] → fromkeys l ≠ [].
Proof.
  destruct l as [|x l]; [done|]. intros _ H.
  assert (Hx : x ∈ fromkeys (x :: l)).
  { rewrite fromkeys_added. apply (added_first [] [] x l).
    by intros p [?%elem_of_nil|?%elem_of_nil]. }
  rewrite H in Hx. by apply elem_of_nil in Hx.
Qed.

(** A key that [added] keeps stands in the list behind items that differ
    from it: it is kept where it occurs first. *)
Lemma added_lookup keys l j y :
  added keys l !! j = Some y →
  ∃ pre post,
    l = pre ++ y :: post ∧ ∀ p, p ∈ keys ∨ p ∈ pre → eqb p y = false.
Proof.
  revert keys j. induction l as [|z l IH]; intros keys j; simpl; [done|].
  destruct (existsb _ keys) eqn:E.
  - intros H. destruct (IH _ _ H) as (pre & post & -> & Hpre).
    exists (z :: pre), post. split; [done|].
    intros p [Hp|[->|Hp]%elem_of_cons]; [apply Hpre; by left| |apply Hpre; by right].
    apply existsb_eqb_true in E as (k & Hk & Ek).
    apply not_true_iff_false. intros Ezy.
    assert (eqb k y = false) as Hky by (apply Hpre; by left).
    by rewrite (eqb_trans _ _ _ Ek Ezy) in Hky.
  - destruct j as [|j]; simpl.
    + intros [= ->]. exists [], l. split; [done|].
      intros p [Hp|Hp%elem_of_nil]; [|done]. by eapply existsb_eqb_false.
    + intros H. destruct (IH _ _ H) as (pre & post & -> & Hpre).
      exists (z :: pre), post. split; [done|].
      intros p [Hp|[->|Hp]%elem_of_cons]; apply Hpre.
      * left. apply elem_of_app. by left.
      * left. apply elem_of_app. right. left.
      * by right.
Qed.

(** Of two keys that [added] keeps, the one kept first occurs first in the
    list, and each is kept where it occurs first. *)
Lemma added_order keys l i j x y :
  (i < j)%nat →
  added keys l !! i = Some x → added keys l !! j = Some y →
  ∃ pre mid post,
    l = pre ++ x :: mid ++ y :: post
    ∧ (∀ p, p ∈ keys ∨ p ∈ pre → eqb p x = false)
    ∧ (∀ p, p ∈ keys ∨ p ∈ pre ++ x :: mid → eqb p y = false).
Proof.
  revert keys i j. induction l as [|z l IH]; intros keys i j Hij; simpl; [done|].
  destruct (existsb _ keys) eqn:E.
  - intros Hx Hy.
    destruct (IH _ _ _ Hij Hx Hy) as (pre & mid & post & -> & Hpre & Hmid).
    exists (z :: pre), mid, post. split; [done|].
    apply existsb_eqb_true in E as (k & Hk & Ek).
    assert (Hz : ∀ w, (∀ p, p ∈ keys → eqb p w = false) → eqb z w = false).
    { intros w Hw. apply not_true_iff_false. intros Ezw.
      pose proof (eqb_trans _ _ _ Ek Ezw) as Ekw.
      by rewrite (Hw k Hk) in Ekw. }
    split.
    + intros p [Hp|[->|Hp]%elem_of_cons];
        [apply Hpre; by left| |apply Hpre; by right].
      apply Hz. intros p Hp. apply Hpre. by left.
    + intros p [Hp|[->|Hp]%elem_of_cons];
        [apply Hmid; by left| |apply Hmid; by right].
      apply Hz. intros p Hp. apply Hmid. by left.
  - destruct j as [|j]; [lia|]. destruct i as [|i]; simpl.
    + intros [= ->] Hy.
      destruct (added_lookup _ _ _ _ Hy) as (mid & post & -> & Hmid).
      exists [], mid, post. split; [done|]. split.
      * intros p [Hp|Hp%elem_of_nil]; [|done]. by eapply existsb_eqb_false.
      * intros p [Hp|[->|Hp]%elem_of_cons]; apply Hmid.
        -- left. apply elem_of_app. by left.
        -- left. apply elem_of_app. right. left.
        -- by right.
    + intros Hx Hy.
      destruct (IH (keys ++ [z]) i j ltac:(lia) Hx Hy)
        as (pre & mid & post & -> & Hpre & Hmid).
      exists (z :: pre), mid, post. split; [done|]. split.
      * intros p [Hp|[->|Hp]%elem_of_cons]; apply Hpre.
        -- left. apply elem_of_app. by left.
        -- left. apply elem_of_app. right. left.
        -- by right.
      * intros p [Hp|[->|Hp]%elem_of_cons]; apply Hmid.
        -- left. apply elem_of_app. by left.
        -- left. apply elem_of_app. right. left.
        -- by right.
Qed.

(** Unions built from lists with the same members are equal and have the
    same hash. *)
Lemma UnionType_new_eqb hash_none hash_str hash_tuple shuffle finish l1 l2 :
  l1 ≠ [] → l2 ≠ [] →
  (∀ x, member x (flat_map type_list_or_self l1)
        ↔ member x (flat_map type_list_or_self l2)) →
  ∃ u1 u2,
    UnionType_new l1 = Ret u1 ∧ UnionType_new l2 = Ret u2
    ∧ eqb u1 u2 = true
    ∧ hash hash_none hash_str hash_tuple shuffle finish u1
      = hash hash_none hash_str hash_tuple shuffle finish u2.
Proof.
  intros H1 H2 Hmem. do 2 eexists.
  split; [by apply UnionType_new_Ret|]. split; [by apply UnionType_new_Ret|].
  assert (E : eqb (Obj cUnionType
                     [PyTuple (fromkeys (flat_map type_list_or_self l1))])
                (Obj cUnionType
                     [PyTuple (fromkeys (flat_map type_list_or_self l2))])
              = true).
  { apply eqb_union. intros x. by rewrite !member_fromkeys. }
  split; [done|]. by apply hash_eqb.
Qed.

(** C8: the constructor of [UnionType] rejects an empty list; from a list
    of types that are not unions or are unions as it builds them, it
    returns a union whose members are those of the list with the members
    of each union in place of the union: the result has no union among its
    members, has a member, has no two equal members, keeps the order of the
    list and, of equal members, the first.  The members stand in the order
    in which they occur first: of two members, the one that stands first in
    the union occurs in the flattened list before anything equal to the
    other does.  Two unions are equal exactly when
    each member of one is equal to a member of the other, whatever the
    order, and equal unions have equal hashes.  So the union built from
    [A; UnionType [B; C]; A] is equal to the one built from A, B and C in any
    order, as are the unions built from two lists that are permutations of
    each other. *)
Theorem C8_union_flatten_dedup_equality :
  ∀ (hash_none : Z) (hash_str : string → Z) (hash_tuple : list Z → Z)
    (shuffle : Z → Z) (finish : nat → Z → Z),
    let hash := hash hash_none hash_str hash_tuple shuffle finish in
    UnionType_new [] = Raise AssertionError
    ∧ (∀ l, l ≠ [] → Forall flat l →
         let flattened := flat_map type_list_or_self l in
         ∃ ms,
           UnionType_new l = Ret (Obj cUnionType [PyTuple ms])
           ∧ flat (Obj cUnionType [PyTuple ms])
           ∧ distinct ms
           ∧ ms `sublist_of` flattened
           ∧ (∀ x, x ∈ flattened → member x ms)
           ∧ (∀ pre x post,
                 flattened = pre ++ x :: post →
                 (∀ p, p ∈ pre → eqb p x = false) → x ∈ ms)
           ∧ (∀ i j x y,
                 (i < j)%nat → ms !! i = Some x → ms !! j = Some y →
                 ∃ pre mid post,
                   flattened = pre ++ x :: mid ++ y :: post
                   ∧ (∀ p, p ∈ pre → eqb p x = false)
                   ∧ (∀ p, p ∈ pre ++ x :: mid → eqb p y = false)))
    ∧ (∀ xs ys,
         let u := Obj cUnionType [PyTuple xs] in
         let v := Obj cUnionType [PyTuple ys] in
         (eqb u v = true ↔ ∀ x, member x xs ↔ member x ys)
         ∧ (eqb u v = true → hash u = hash v))
    ∧ (∀ A B C u l,
         UnionType_new [B; C] = Ret u →
         l ≡ₚ [A; B; C] →
         ∃ u1 u2,
           UnionType_new [A; u; A] = Ret u1 ∧ UnionType_new l = Ret u2
           ∧ eqb u1 u2 = true ∧ hash u1 = hash u2)
    ∧ (∀ l1 l2,
         l1 ≠ [] → l1 ≡ₚ l2 →
         ∃ u1 u2,
           UnionType_new l1 = Ret u1 ∧ UnionType_new l2 = Ret u2
           ∧ eqb u1 u2 = true ∧ hash u1 = hash u2).
Proof.
  intros hash_none hash_str hash_tuple shuffle finish hash.
  split; [done|]. split; [|split; [|split]].
  - intros l Hne Hflat flattened.
    destruct (flattened_flat l Hne Hflat) as [Hne' Hno].
    exists (fromkeys flattened). split; [by apply UnionType_new_Ret|].
    split; [|split; [|split; [|split; [|split]]]].
    + split; [by apply fromkeys_nonempty|].
      apply Forall_forall. intros m Hm.
      rewrite fromkeys_added in Hm. apply added_elem_of in Hm.
      by eapply Forall_forall in Hno.
    + apply fromkeys_distinct.
    + rewrite fromkeys_added. apply added_sublist.
    + intros x Hx. by apply member_fromkeys, member_elem_of.
    + intros pre x post Hsplit Hpre. rewrite fromkeys_added, Hsplit.
      apply added_first. intros p [?%elem_of_nil|?]; [done|by apply Hpre].
    + intros i j x y Hij Hx Hy. rewrite fromkeys_added in Hx, Hy.
      destruct (added_order [] flattened i j x y Hij Hx Hy)
        as (pre & mid & post & Hsplit & Hpre & Hmid).
      exists pre, mid, post. split; [done|].
      split; intros p Hp; [apply Hpre|apply Hmid]; by right.
  - intros xs ys u v. split; [apply eqb_union|apply hash_eqb].
  - intros A B C u l Hu Hl. simpl in Hu. injection Hu as <-.
    apply UnionType_new_eqb; [done| |].
    { intros ->. by apply Permutation_nil_l in Hl. }
    intros x.
    rewrite (member_ext x (flat_map type_list_or_self l)
               (flat_map type_list_or_self [A; B; C])).
    2:{ intros y. rewrite !elem_of_flat_map.
        split; intros (t & Ht & Hy); exists t; (split; [|done]).
        - by rewrite <- Hl.
        - by rewrite Hl. }
    simpl. rewrite !app_nil_r, !member_app, member_fromkeys, member_app.
    tauto.
  - intros l1 l2 Hne Hperm.
    apply UnionType_new_eqb; [done| |].
    { intros ->. by apply Permutation_nil_r in Hperm. }
    intros x. apply member_ext. intros y. rewrite !elem_of_flat_map.
    split; intros (t & Ht & Hx); exists t; (split; [|done]).
    + by rewrite <- Hperm.
    + by rewrite Hperm.
Qed.

(** ** Name lookup *)

Lemma fill_checked_clash xs d y k :
  Forall (fun x => is_Some (name_of x)) xs →
  y ∈ xs → name_of y = Some k → is_Some (d !! k) →
  ∃ k' d', fill_checked xs d = (Raise (DuplicateName k'), d').
Proof.
  intros Hall. revert d. induction Hall as [|x xs [kx Hx] _ IH]; intros d.
  { by intros ?%elem_of_nil. }
  intros Hy Hk Hd. simpl. rewrite Hx.
  destruct (d !! kx) as [z|] eqn:Hkx; [eauto|].
  apply elem_of_cons in Hy as [->|Hy].
  - rewrite Hk in Hx. injection Hx as ->. rewrite Hkx in Hd.
    by destruct Hd.
  - apply IH; [done..|]. destruct (decide (kx = k)) as [->|Hne].
    + rewrite lookup_insert_eq. eauto.
    + by rewrite lookup_insert_ne.
Qed.

Lemma fill_checked_twice xs d k :
  Forall (fun x => is_Some (name_of x)) xs →
  declared_twice k xs →
  ∃ k' d', fill_checked xs d = (Raise (DuplicateName k'), d').
Proof.
  intros Hall (pre & x & mid & y & post & -> & Hx & Hy). revert d.
  induction pre as [|p pre IH]; intros d.
  - simpl. rewrite Hx. destruct (d !! k); [eauto|].
    apply Forall_cons in Hall as [_ Hall].
    eapply fill_checked_clash; [done| |exact Hy|].
    + apply elem_of_app. right. left.
    + rewrite lookup_insert_eq. eauto.
  - apply Forall_cons in Hall as [[kp Hp] Hall]. simpl. rewrite Hp.
    destruct (d !! kp); [eauto|]. by apply IH.
Qed.

(** A duplicate-name error names a declaration whose name is in the table
    already: that of a type parameter or of an earlier declaration. *)
Lemma fill_checked_raises xs d k d' :
  fill_checked xs d = (Raise (DuplicateName k), d') →
  ∃ pre x post,
    xs = pre ++ x :: post ∧ name_of x = Some k
    ∧ (is_Some (d !! k) ∨ ∃ p, p ∈ pre ∧ name_of p = Some k).
Proof.
  revert d. induction xs as [|x xs IH]; intros d; simpl; [done|].
  destruct (name_of x) as [kx|] eqn:Hx; [|done].
  destruct (d !! kx) as [z|] eqn:Hkx.
  - intros [= <- <-]. exists [], x, xs. split; [done|]. split; [done|].
    left. eauto.
  - intros H. destruct (IH _ H) as (pre & y & post & -> & Hy & Hcase).
    exists (x :: pre), y, post. split; [done|]. split; [done|].
    destruct Hcase as [Hin|(p & Hp & Hpk)].
    + destruct (decide (kx = k)) as [->|Hne].
      * right. exists x. split; [left|done].
      * left. by rewrite lookup_insert_ne in Hin.
    + right. exists p. split; [by right|done].
Qed.

Lemma fill_type_params_raise xs d e d' :
  fill_type_params xs d = (Raise e, d') → e = AttributeError.
Proof.
  revert d. induction xs as [|x xs IH]; intros d; simpl; [done|].
  destruct (full_name x); [apply IH|]. by intros [= <- _].
Qed.

Lemma fill_type_params_Ret xs d :
  Forall (fun x => is_Some (full_name x)) xs →
  ∃ d', fill_type_params xs d = (Ret tt, d').
Proof.
  intros Hall. revert d. induction Hall as [|x xs [k Hx] _ IH]; intros d.
  - by exists d.
  - simpl. rewrite Hx. apply IH.
Qed.

Lemma fill_checked_raise xs d e d' :
  fill_checked xs d = (Raise e, d') →
  e = AttributeError ∨ ∃ k, e = DuplicateName k.
Proof.
  revert d. induction xs as [|x xs IH]; intros d; simpl; [done|].
  destruct (name_of x); [|intros [= <- _]; by left].
  destruct (d !! s); [|apply IH]. intros [= <- _]. eauto.
Qed.

Lemma fill_unchecked_raise xs d e d' :
  fill_unchecked xs d = (Raise e, d') → e = AttributeError.
Proof.
  revert d. induction xs as [|x xs IH]; intros d; simpl; [done|].
  destruct (name_of x); [apply IH|]. by intros [= <- _].
Qed.

(** The last declaration of a name wins. *)
Lemma fill_unchecked_last pre x post d k :
  Forall (fun x => is_Some (name_of x)) (pre ++ x :: post) →
  name_of x = Some k →
  (∀ y, y ∈ post → name_of y ≠ Some k) →
  ∃ d', fill_unchecked (pre ++ x :: post) d = (Ret tt, d') ∧ d' !! k = Some x.
Proof.
  intros Hall Hx Hpost.
  assert (Hkeep : ∀ ys d, Forall (fun x => is_Some (name_of x)) ys →
            (∀ y, y ∈ ys → name_of y ≠ Some k) →
            ∃ d', fill_unchecked ys d = (Ret tt, d') ∧ d' !! k = d !! k).
  { intros ys. induction ys as [|y ys IH]; intros d0 Hys Hne.
    - by exists d0.
    - apply Forall_cons in Hys as [[ky Hy] Hys]. simpl. rewrite Hy.
      destruct (IH (<[ky:=y]> d0) Hys) as (d' & Hrun & Hk).
      { intros z Hz. apply Hne. by right. }
      exists d'. split; [done|]. rewrite Hk. apply lookup_insert_ne.
      intros ->. by apply (Hne y); [left|]. }
  revert d. induction pre as [|p pre IH]; intros d.
  - apply Forall_cons in Hall as [_ Hall]. simpl. rewrite Hx.
    destruct (Hkeep post (<[k:=x]> d) Hall Hpost) as (d' & Hrun & Hk).
    exists d'. split; [done|]. by rewrite Hk, lookup_insert_eq.
  - apply Forall_cons in Hall as [[kp Hp] Hall]. simpl. rewrite Hp.
    by apply IH.
Qed.

(** C4, as stated, fails for classes: a class that declares the name [x]
    twice, as a method and as a constant, returns the constant; no
    duplicate-name error is raised. *)
Lemma C4_counterexample :
  let f := mkFunction "x" [] "method" in
  let k := mkConstant "x" (mkNamedType "int") in
  let c := mkClass "C" PyNone [] [f] [k] [] in
  declared_twice "x" [f; k]
  ∧ (Class_Lookup c None "x").1 = Ret k
  ∧ (Class_Lookup c None "x").1 ≠ Raise (DuplicateName "x").
Proof.
  split; [|split].
  - by exists [], (mkFunction "x" [] "method"), [],
             (mkConstant "x" (mkNamedType "int")), [].
  - by vm_compute.
  - vm_compute. discriminate.
Qed.

(** After a lookup on a module that failed with a duplicate-name error the
    table exists, and a second lookup of the name returns the first of the
    two declarations. *)
Example TypeDeclUnit_Lookup_after_duplicate :
  let k := mkConstant "x" (mkNamedType "int") in
  let f := mkFunction "x" [] "method" in
  let u := mkTypeDeclUnit PyNone [k] [] [] [f] [] in
  (TypeDeclUnit_Lookup u None "x").1 = Raise (DuplicateName "x")
  ∧ (TypeDeclUnit_Lookup u (TypeDeclUnit_Lookup u None "x").2 "x").1 = Ret k.
Proof. split; by vm_compute. Qed.

(** C4, amended: on a module whose table is not built yet, a lookup fails
    with a duplicate-name error when two of its constants, functions,
    classes and aliases have one name, and the error names a declaration
    whose name was in the table already.  A class does not detect
    duplicates: of the methods and constants with the name looked up, the
    last is returned.  For both, once a lookup has built the table (it
    returned an item or raised [KeyError]) a lookup with the table returns
    what the table holds and leaves the table as it is, so a repeated
    lookup of a name gives the identical result. *)
Theorem C4_lookup_tables :
  (∀ self type_params constants functions classes aliases name k,
      tuple_attr self "type_params" = Some type_params →
      tuple_attr self "constants" = Some constants →
      tuple_attr self "functions" = Some functions →
      tuple_attr self "classes" = Some classes →
      tuple_attr self "aliases" = Some aliases →
      let items := constants ++ functions ++ classes ++ aliases in
      Forall (fun x => is_Some (full_name x)) type_params →
      Forall (fun x => is_Some (name_of x)) items →
      declared_twice k items →
      ∃ k' d,
        TypeDeclUnit_Lookup self None name
        = (Raise (DuplicateName k'), Some d)
        ∧ ∃ pre x post,
            items = pre ++ x :: post ∧ name_of x = Some k'
            ∧ ((∃ t, t ∈ type_params ∧ full_name t = Some k')
               ∨ ∃ p, p ∈ pre ∧ name_of p = Some k'))
  ∧ (∀ self methods constants pre x post name,
        tuple_attr self "methods" = Some methods →
        tuple_attr self "constants" = Some constants →
        methods ++ constants = pre ++ x :: post →
        Forall (fun x => is_Some (name_of x)) (methods ++ constants) →
        name_of x = Some name →
        (∀ y, y ∈ post → name_of y ≠ Some name) →
        ∃ d, Class_Lookup self None name = (Ret x, Some d))
  ∧ (∀ self d name,
        TypeDeclUnit_Lookup self (Some d) name = (getitem d name, Some d)
        ∧ Class_Lookup self (Some d) name = (getitem d name, Some d))
  ∧ (∀ self name r st,
        table_built r →
        (TypeDeclUnit_Lookup self None name = (r, st) →
         TypeDeclUnit_Lookup self st name = (r, st))
        ∧ (Class_Lookup self None name = (r, st) →
           Class_Lookup self st name = (r, st))).
Proof.
  split; [|split; [|split]].
  - intros self type_params constants functions classes aliases name k
      Htp Hc Hf Hcl Ha items Hfull Hnames Htwice.
    unfold TypeDeclUnit_Lookup. rewrite Htp, Hc, Hf, Hcl, Ha.
    destruct (fill_type_params_Ret type_params ∅ Hfull) as (d0 & Hd0).
    rewrite Hd0.
    destruct (fill_checked_twice items d0 k Hnames Htwice) as (k' & d & Hrun).
    fold items. rewrite Hrun. exists k', d. split; [done|].
    destruct (fill_checked_raises _ _ _ _ Hrun)
      as (pre & x & post & Hitems & Hx & Hcase).
    exists pre, x, post. split; [done|]. split; [done|].
    destruct Hcase as [Hin|?]; [left|by right].
    clear -Hd0 Hin. revert d0 Hd0 Hin.
    assert (Hgen : ∀ xs d d0, fill_type_params xs d = (Ret tt, d0) →
              is_Some (d0 !! k') →
              is_Some (d !! k') ∨ ∃ t, t ∈ xs ∧ full_name t = Some k').
    { intros xs. induction xs as [|t xs IH]; intros d d0; simpl.
      - intros [= ->]. by left.
      - destruct (full_name t) as [kt|] eqn:Ht; [|done].
        intros Hrun Hin. destruct (IH _ _ Hrun Hin) as [Hd|(t' & Ht' & E)].
        + destruct (decide (kt = k')) as [->|Hne].
          * right. exists t. split; [left|done].
          * left. by rewrite lookup_insert_ne in Hd.
        + right. exists t'. split; [by right|done]. }
    intros d0 Hd0 Hin. destruct (Hgen _ _ _ Hd0 Hin) as [Hd|?]; [|done].
    rewrite lookup_empty in Hd. by destruct Hd.
  - intros self methods constants pre x post name Hm Hc Hsplit Hnames Hx Hpost.
    unfold Class_Lookup. rewrite Hm, Hc, Hsplit. rewrite Hsplit in Hnames.
    destruct (fill_unchecked_last pre x post ∅ name Hnames Hx Hpost)
      as (d & Hrun & Hd).
    rewrite Hrun. exists d. unfold getitem. by rewrite Hd.
  - done.
  - intros self name r st Hbuilt. split.
    + unfold TypeDeclUnit_Lookup at 1.
      destruct (tuple_attr self "type_params") as [type_params|].
      2:{ intros [= <- <-]. by destruct Hbuilt as [[? ?]|?]. }
      destruct (fill_type_params type_params ∅) as [[[]|e] d0] eqn:H0.
      2:{ apply fill_type_params_raise in H0 as ->. intros [= <- <-].
          by destruct Hbuilt as [[? ?]|?]. }
      destruct (tuple_attr self "constants") as [constants|];
        [|intros [= <- <-]; by destruct Hbuilt as [[? ?]|?]].
      destruct (tuple_attr self "functions") as [functions|];
        [|intros [= <- <-]; by destruct Hbuilt as [[? ?]|?]].
      destruct (tuple_attr self "classes") as [classes|];
        [|intros [= <- <-]; by destruct Hbuilt as [[? ?]|?]].
      destruct (tuple_attr self "aliases") as [aliases|];
        [|intros [= <- <-]; by destruct Hbuilt as [[? ?]|?]].
      destruct (fill_checked _ d0) as [[[]|e] d] eqn:H1.
      * by intros [= <- <-].
      * intros [= <- <-].
        apply fill_checked_raise in H1 as [->|[k ->]];
          by destruct Hbuilt as [[? ?]|?].
    + unfold Class_Lookup at 1.
      destruct (tuple_attr self "methods") as [methods|];
        [|intros [= <- <-]; by destruct Hbuilt as [[? ?]|?]].
      destruct (tuple_attr self "constants") as [constants|];
        [|intros [= <- <-]; by destruct Hbuilt as [[? ?]|?]].
      destruct (fill_unchecked _ ∅) as [[[]|e] d] eqn:H1.
      * by intros [= <- <-].
      * intros [= <- <-]. apply fill_unchecked_raise in H1 as ->.
        by destruct Hbuilt as [[? ?]|?].
Qed.

(** ** The theorems at concrete inputs *)

(** A module and a class that declare [x] as a constant and as a
    function. *)
Lemma C4_witness :
  let k := mkConstant "x" (mkNamedType "int") in
  let f := mkFunction "x" [] "method" in
  let u := mkTypeDeclUnit PyNone [k] [] [] [f] [] in
  let c := mkClass "C" PyNone [] [f] [k] [] in
  (∃ k' d, TypeDeclUnit_Lookup u None "y" = (Raise (DuplicateName k'), Some d))
  ∧ (∃ d, Class_Lookup c None "x" = (Ret k, Some d))
  ∧ Class_Lookup c (Class_Lookup c None "x").2 "x"
    = ((Class_Lookup c None "x").1, (Class_Lookup c None "x").2).
Proof.
  intros k f u c. destruct C4_lookup_tables as (H1 & H2 & _ & H4).
  split; [|split].
  - destruct (H1 u [] [k] [f] [] [] "y" "x" eq_refl eq_refl eq_refl eq_refl
                eq_refl)
      as (k' & d & Hrun & _).
    + constructor.
    + repeat constructor; simpl; eauto.
    + by exists [], k, [], f, [].
    + by exists k', d.
  - apply (H2 c [f] [k] [f] k [] "x" eq_refl eq_refl eq_refl).
    + repeat constructor; simpl; eauto.
    + reflexivity.
    + by intros y ?%elem_of_nil.
  - apply (H4 c "x" (Class_Lookup c None "x").1 (Class_Lookup c None "x").2).
    + left. exists k. by vm_compute.
    + apply surjective_pairing.
Defined.

(** The union of [A; UnionType [B; C]; A] has the members A, B and C in
    this order; it is equal to the union of [C; A; B]. *)
Lemma C8_witness :
  let A := mkNamedType "A" in
  let B := mkNamedType "B" in
  let C := mkNamedType "C" in
  let u := Obj cUnionType [PyTuple [B; C]] in
  let hash := hash 0%Z (fun s => Z.of_nat (String.length s))
                (fun hs => fold_right Z.add 0%Z hs) (fun z => z)
                (fun n z => (z + Z.of_nat n)%Z) in
  let ms := [A; B; C] in
  (UnionType_new [A; u; A] = Ret (Obj cUnionType [PyTuple ms])
   ∧ distinct ms
   ∧ (∀ x, x ∈ [A; B; C; A] → member x ms)
   ∧ (∀ i j x y,
         (i < j)%nat → ms !! i = Some x → ms !! j = Some y →
         ∃ pre mid post,
           [A; B; C; A] = pre ++ x :: mid ++ y :: post
           ∧ (∀ p, p ∈ pre → eqb p x = false)
           ∧ (∀ p, p ∈ pre ++ x :: mid → eqb p y = false)))
  ∧ ∃ u1 u2,
      UnionType_new [A; u; A] = Ret u1 ∧ UnionType_new [C; A; B] = Ret u2
      ∧ eqb u1 u2 = true ∧ hash u1 = hash u2.
Proof.
  intros A B C u hash ms.
  destruct (C8_union_flatten_dedup_equality 0%Z
              (fun s => Z.of_nat (String.length s))
              (fun hs => fold_right Z.add 0%Z hs) (fun z => z)
              (fun n z => (z + Z.of_nat n)%Z))
    as (_ & H2 & _ & H4 & _).
  split.
  - destruct (H2 [A; u; A]) as (ms' & Hrun & _ & Hd & _ & Hall & _ & Horder).
    + discriminate.
    + repeat constructor. discriminate.
    + assert (ms' = ms) as -> by (by injection Hrun).
      split; [reflexivity|]. split; [exact Hd|]. split; [exact Hall|].
      exact Horder.
  - apply (H4 A B C u [C; A; B]); [reflexivity|].
    apply (Permutation_cons_append [A; B] C).
Defined.

End PytdProperties.

(** * Part V: further properties of pytd.py *)

Module NodeProperties.
Import Pytd PytdProperties.

(** ** Equality and hashing at every depth *)

Lemma tuple_eqb_frozenset_eqb xs ys :
  tuple_eqb eqb xs ys = true → frozenset_eqb eqb xs ys = true.
Proof.
  intros H%tuple_eqb_Forall2. apply frozenset_eqb_spec. split.
  - intros x Hx. apply list_elem_of_lookup in Hx as [i Hi].
    destruct (Forall2_lookup_l _ _ _ _ _ H Hi) as (y & Hy & E).
    exists y. split; [by eapply list_elem_of_lookup_2|done].
  - intros y Hy. apply list_elem_of_lookup in Hy as [i Hi].
    destruct (Forall2_lookup_r _ _ _ _ _ H Hi) as (x & Hx & E).
    exists x. split; [by eapply list_elem_of_lookup_2|done].
Qed.

Lemma eqb_fields c fs gs :
  tuple_eqb eqb fs gs = true → eqb (Obj c fs) (Obj c gs) = true.
Proof.
  intros H. rewrite eqb_Obj, bool_decide_eq_true_2 by done. simpl.
  destruct (union_members c fs) as [xs|] eqn:Hf; [|done].
  destruct (union_members c gs) as [ys|] eqn:Hg; [|done].
  apply union_members_Some in Hf as [-> ->].
  apply union_members_Some in Hg as [_ ->].
  simpl in H. rewrite andb_true_r in H. by apply tuple_eqb_frozenset_eqb.
Qed.

(** X1: [==] on nodes that are no modules, with [UnionType.__eq__] for the
    unions at any depth, is an equivalence relation, and [__hash__] agrees
    with it: equal nodes have equal hashes, so that nodes can be keys of a
    dictionary.  Nodes of one class whose fields are equal in turn are
    equal; so two generic types over unions with the same members in another
    order are equal. *)
Theorem eq_equivalence_and_hash :
  ∀ (hash_none : Z) (hash_str : string → Z) (hash_tuple : list Z → Z)
    (shuffle : Z → Z) (finish : nat → Z → Z),
    let hash := hash hash_none hash_str hash_tuple shuffle finish in
    (∀ a, no_module a = true → eqb a a = true)
    ∧ (∀ a b, no_module a = true → no_module b = true → eqb a b = eqb b a)
    ∧ (∀ a b c,
         no_module a = true → no_module b = true → no_module c = true →
         eqb a b = true → eqb b c = true → eqb a c = true)
    ∧ (∀ a b, no_module a = true → no_module b = true →
         eqb a b = true → hash a = hash b)
    ∧ (∀ c fs gs,
         no_module (Obj c fs) = true → no_module (Obj c gs) = true →
         Forall2 (fun x y => eqb x y = true) fs gs →
         eqb (Obj c fs) (Obj c gs) = true)
    ∧ (∀ base xs ys,
         no_module base = true → forallb no_module xs = true → xs ≡ₚ ys →
         let g ms := Obj cGenericType
                       [base; PyTuple [Obj cUnionType [PyTuple ms]]] in
         eqb (g xs) (g ys) = true ∧ hash (g xs) = hash (g ys)).
Proof.
  intros hash_none hash_str hash_tuple shuffle finish hash.
  assert (Hsym : ∀ a b, eqb a b = eqb b a).
  { intros a b. destruct (eqb a b) eqn:E1, (eqb b a) eqn:E2; try done.
    - apply eqb_sym in E1. congruence.
    - apply eqb_sym in E2. congruence. }
  assert (Hcong : ∀ c fs gs, Forall2 (fun x y => eqb x y = true) fs gs →
            eqb (Obj c fs) (Obj c gs) = true).
  { intros c fs gs H. apply eqb_fields. by apply tuple_eqb_Forall2. }
  split; [intros; apply eqb_refl|]. split; [intros; apply Hsym|].
  split; [intros; by eapply eqb_trans|].
  split; [intros; by apply hash_eqb|]. split; [intros; by apply Hcong|].
  intros base xs ys _ _ Hperm g.
  assert (E : eqb (g xs) (g ys) = true).
  { apply Hcong. constructor; [apply eqb_refl|]. constructor; [|constructor].
    rewrite eqb_PyTuple. apply tuple_eqb_Forall2.
    constructor; [|constructor]. apply eqb_union. intros x.
    apply member_ext. intros y. by rewrite Hperm. }
  split; [exact E|]. by apply hash_eqb.
Qed.

Lemma eq_equivalence_and_hash_witness :
  let A := mkNamedType "A" in
  let B := mkNamedType "B" in
  let hash := hash 0%Z (fun s => Z.of_nat (String.length s))
                (fun hs => fold_right Z.add 0%Z hs) (fun z => z)
                (fun n z => (z + Z.of_nat n)%Z) in
  let g ms := Obj cGenericType
                [mkNamedType "list"; PyTuple [Obj cUnionType [PyTuple ms]]] in
  eqb (g [A; B]) (g [B; A]) = true ∧ hash (g [A; B]) = hash (g [B; A]).
Proof.
  intros A B hash g.
  destruct (eq_equivalence_and_hash 0%Z
              (fun s => Z.of_nat (String.length s))
              (fun hs => fold_right Z.add 0%Z hs) (fun z => z)
              (fun n z => (z + Z.of_nat n)%Z))
    as (_ & _ & _ & _ & _ & H).
  apply (H (mkNamedType "list") [A; B] [B; A]); [reflexivity..|].
  apply perm_swap.
Defined.

(** ** Unions of unions *)

Lemma added_app keys l1 l2 :
  added keys (l1 ++ l2) = added keys l1 ++ added (keys ++ added keys l1) l2.
Proof.
  revert keys. induction l1 as [|x l1 IH]; intros keys; simpl.
  { by rewrite app_nil_r. }
  destruct (existsb _ keys); [apply IH|].
  rewrite IH. simpl. do 2 f_equal. by rewrite <- app_assoc.
Qed.

(** Removing the duplicates of a list from which duplicates were removed
    changes nothing, whatever keys are present already. *)
Lemma added_added S K l :
  (∀ x, member x S → member x K) → added K (added S l) = added K l.
Proof.
  revert S K. induction l as [|x l IH]; intros S K HSK; simpl; [done|].
  assert (Hext : ∀ y, member y (S ++ [x]) → member y (K ++ [x])).
  { intros y [Hy|Hy]%member_app; apply member_app; [left; auto|by right]. }
  destruct (existsb (fun k => eqb k x) S) eqn:ES.
  - apply existsb_eqb_true in ES. apply HSK in ES as EK.
    apply existsb_eqb_true in EK. rewrite EK. by apply IH.
  - simpl. destruct (existsb (fun k => eqb k x) K) eqn:EK.
    + apply IH. intros y [Hy|Hy]%member_app; [auto|].
      apply existsb_eqb_true in EK.
      destruct Hy as (z & ->%list_elem_of_singleton & E).
      by eapply member_eqb.
    + f_equal. by apply IH.
Qed.

Lemma fromkeys_app_fromkeys l1 l2 :
  fromkeys (fromkeys l1 ++ fromkeys l2) = fromkeys (l1 ++ l2).
Proof.
  rewrite !fromkeys_added, !added_app. simpl. f_equal.
  - by apply added_added.
  - rewrite (added_added [] [] l1) by done. apply added_added.
    intros x (y & Hy & _). by apply elem_of_nil in Hy.
Qed.

(** X2: the constructor of [UnionType] absorbs unions it built: the union
    built from the unions of two lists has the member tuple of the union
    built from the two lists joined, the same members in the same order and
    not only the same set of members; the union built from one union has the
    member tuple of that union.  So building unions is associative, member
    tuple for member tuple.  (Nodes are values here: two results are equal
    when they have the same class and the same fields, which says nothing
    about their being one object.) *)
Theorem UnionType_of_unions :
  ∀ l1 l2 u1 u2,
    UnionType_new l1 = Ret u1 →
    UnionType_new l2 = Ret u2 →
    UnionType_new [u1; u2] = UnionType_new (l1 ++ l2)
    ∧ UnionType_new [u1] = Ret u1
    ∧ ∀ l3 u3 u12 u23,
        UnionType_new l3 = Ret u3 →
        UnionType_new [u1; u2] = Ret u12 →
        UnionType_new [u2; u3] = Ret u23 →
        UnionType_new [u12; u3] = UnionType_new [u1; u23].
Proof.
  assert (Hnew : ∀ l u, UnionType_new l = Ret u →
            l ≠ [] ∧ type_list_or_self u
                     = fromkeys (flat_map type_list_or_self l)).
  { intros l u H. destruct l as [|x l]; [discriminate H|].
    split; [done|]. by injection H as <-. }
  assert (Hpair : ∀ l1 l2 u1 u2,
            UnionType_new l1 = Ret u1 → UnionType_new l2 = Ret u2 →
            UnionType_new [u1; u2] = UnionType_new (l1 ++ l2)).
  { intros l1 l2 u1 u2 H1 H2.
    destruct (Hnew _ _ H1) as [Hne1 E1]. destruct (Hnew _ _ H2) as [_ E2].
    rewrite (UnionType_new_Ret (l1 ++ l2)) by (by destruct l1).
    rewrite UnionType_new_Ret by done. simpl.
    rewrite app_nil_r, E1, E2, flat_map_app.
    by rewrite fromkeys_app_fromkeys. }
  intros l1 l2 u1 u2 H1 H2. split; [by apply Hpair|]. split.
  - destruct (Hnew _ _ H1) as [Hne1 E1].
    rewrite UnionType_new_Ret by done. simpl. rewrite app_nil_r, E1.
    destruct l1 as [|x l1]; [done|]. injection H1 as <-.
    do 3 f_equal. rewrite !fromkeys_added.
    apply (f_equal PyTuple), added_added. done.
  - intros l3 u3 u12 u23 H3 H12 H23.
    rewrite (Hpair l1 l2) in H12 by done.
    rewrite (Hpair l2 l3) in H23 by done.
    rewrite (Hpair (l1 ++ l2) l3 u12 u3), (Hpair l1 (l2 ++ l3) u1 u23) by done.
    by rewrite app_assoc.
Qed.

Lemma UnionType_of_unions_witness :
  let A := mkNamedType "A" in
  let B := mkNamedType "B" in
  let u1 := Obj cUnionType [PyTuple [A; B]] in
  let u2 := Obj cUnionType [PyTuple [B]] in
  UnionType_new [u1; u2] = UnionType_new ([A; B; A] ++ [B])
  ∧ UnionType_new [u1] = Ret u1.
Proof.
  intros A B u1 u2.
  destruct (UnionType_of_unions [A; B; A] [B] u1 u2) as (H1 & H2 & _).
  - by vm_compute.
  - by vm_compute.
  - by split.
Defined.

(** ** The lookup tables *)

Lemma fill_type_params_foldl xs d :
  Forall (fun x => is_Some (full_name x)) xs →
  fill_type_params xs d = (Ret tt, foldl (put full_name) d xs).
Proof.
  intros Hall. revert d. induction Hall as [|x xs [k Hx] _ IH]; intros d.
  - done.
  - simpl. unfold put at 2. rewrite Hx. apply IH.
Qed.

Lemma fill_unchecked_foldl xs d :
  Forall (fun x => is_Some (name_of x)) xs →
  fill_unchecked xs d = (Ret tt, foldl (put name_of) d xs).
Proof.
  intros Hall. revert d. induction Hall as [|x xs [k Hx] _ IH]; intros d.
  - done.
  - simpl. unfold put at 2. rewrite Hx. apply IH.
Qed.

Lemma fill_checked_foldl xs d :
  Forall (fun x => is_Some (name_of x)) xs →
  NoDup (name_of <$> xs) →
  (∀ x, x ∈ xs → ∀ k, name_of x = Some k → d !! k = None) →
  fill_checked xs d = (Ret tt, foldl (put name_of) d xs).
Proof.
  intros Hall. revert d. induction Hall as [|x xs [k Hx] _ IH]; intros d.
  - done.
  - intros [Hnotin Hnd]%NoDup_cons Hfresh. simpl. unfold put at 2.
    rewrite Hx, (Hfresh x) by (done || left). apply IH; [done|].
    intros y Hy ky Hky. rewrite lookup_insert_ne.
    + apply (Hfresh y); [by right|done].
    + intros <-. apply Hnotin. rewrite Hx, <- Hky.
      by apply list_elem_of_fmap_2.
Qed.

Lemma foldl_put_none key xs d k :
  (∀ x, x ∈ xs → key x ≠ Some k) → foldl (put key) d xs !! k = d !! k.
Proof.
  revert d. induction xs as [|x xs IH]; intros d Hne; [done|].
  simpl. rewrite IH by (intros y Hy; apply Hne; by right).
  unfold put. destruct (key x) as [kx|] eqn:Hx; [|done].
  apply lookup_insert_ne. intros ->. by apply (Hne x); [left|].
Qed.

(** The last item with a key is the one found under it. *)
Lemma foldl_put_last key pre x post d k :
  key x = Some k → (∀ y, y ∈ post → key y ≠ Some k) →
  foldl (put key) d (pre ++ x :: post) !! k = Some x.
Proof.
  intros Hx Hpost. rewrite foldl_app. simpl.
  rewrite foldl_put_none by done. unfold put at 1. rewrite Hx.
  apply lookup_insert_eq.
Qed.

(** An item found under a key was in the table or is an item with the key. *)
Lemma foldl_put_inv key xs d k y :
  foldl (put key) d xs !! k = Some y →
  d !! k = Some y ∨ (y ∈ xs ∧ key y = Some k).
Proof.
  revert d. induction xs as [|x xs IH]; intros d; simpl; [by left|].
  intros [H|[Hin Hk]]%IH; [|right; split; [by right|done]].
  unfold put in H. destruct (key x) as [kx|] eqn:Hx; [|by left].
  destruct (decide (kx = k)) as [->|Hne].
  - rewrite lookup_insert_eq in H. injection H as <-. right. split; [left|done].
  - rewrite lookup_insert_ne in H by done. by left.
Qed.

Lemma with_key_dec key (xs : list Node) (k : string) :
  (∃ z, z ∈ xs ∧ key z = Some k) ∨ (∀ z, z ∈ xs → key z ≠ Some k).
Proof.
  induction xs as [|a xs [(z & Hz & Hk)|Hno]].
  - right. by intros z ?%elem_of_nil.
  - left. exists z. split; [by right|done].
  - destruct (decide (key a = Some k)) as [Ha|Ha].
    + left. exists a. split; [left|done].
    + right. intros z [->|Hz]%elem_of_cons; auto.
Qed.

(** Of the items with a key there is a last one. *)
Lemma last_with_key key (xs : list Node) (k : string) x :
  x ∈ xs → key x = Some k →
  ∃ pre y post, xs = pre ++ y :: post ∧ key y = Some k
                ∧ ∀ z, z ∈ post → key z ≠ Some k.
Proof.
  revert x. induction xs as [|a xs IH]; intros x; [by intros ?%elem_of_nil|].
  intros Hin Hk.
  destruct (with_key_dec key xs k) as [(z & Hz & Hzk)|Hno].
  - destruct (IH z Hz Hzk) as (pre & y & post & -> & Hy & Hpost).
    by exists (a :: pre), y, post.
  - apply elem_of_cons in Hin as [->|Hin]; [|by destruct (Hno x)].
    by exists [], a, xs.
Qed.

(** The cases of a membership in a list that is written out. *)
Ltac elem_cases H :=
  repeat (apply elem_of_cons in H as [->|H]);
  try (by apply elem_of_nil in H).

Lemma NoDup_fmap_after (key : Node → option string) pre x post :
  NoDup (key <$> (pre ++ x :: post)) → ∀ y, y ∈ post → key y ≠ key x.
Proof.
  rewrite fmap_app, fmap_cons. intros [_ [_ H]]%NoDup_app y Hy E.
  apply NoDup_cons in H as [Hnotin _]. apply Hnotin. rewrite <- E.
  by apply list_elem_of_fmap_2.
Qed.

(** X3: on a module whose declarations have pairwise different names,
    different from the full names of its type parameters, the first lookup
    builds one table, whatever name is looked up: a declaration is found
    under its name, a type parameter under its full name (of two type
    parameters with one full name the later one, as no check is made for
    them), and any other name raises [KeyError]. *)
Theorem TypeDeclUnit_Lookup_without_duplicates :
  ∀ self type_params constants functions classes aliases,
    tuple_attr self "type_params" = Some type_params →
    tuple_attr self "constants" = Some constants →
    tuple_attr self "functions" = Some functions →
    tuple_attr self "classes" = Some classes →
    tuple_attr self "aliases" = Some aliases →
    let items := constants ++ functions ++ classes ++ aliases in
    Forall (fun x => is_Some (full_name x)) type_params →
    Forall (fun x => is_Some (name_of x)) items →
    NoDup (name_of <$> items) →
    (∀ t x, t ∈ type_params → x ∈ items → full_name t ≠ name_of x) →
    ∃ d,
      (∀ x k, x ∈ items → name_of x = Some k →
         TypeDeclUnit_Lookup self None k = (Ret x, Some d))
      ∧ (∀ pre t post k,
           type_params = pre ++ t :: post → full_name t = Some k →
           (∀ u, u ∈ post → full_name u ≠ Some k) →
           TypeDeclUnit_Lookup self None k = (Ret t, Some d))
      ∧ (∀ k,
           (∀ x, x ∈ items → name_of x ≠ Some k) →
           (∀ t, t ∈ type_params → full_name t ≠ Some k) →
           TypeDeclUnit_Lookup self None k = (Raise KeyError, Some d)).
Proof.
  intros self type_params constants functions classes aliases
    Htp Hc Hf Hcl Ha items Hfull Hnamed Hnd Hdisj.
  set (d0 := foldl (put full_name) ∅ type_params).
  set (d := foldl (put name_of) d0 items).
  assert (Hrun : ∀ k, TypeDeclUnit_Lookup self None k = (getitem d k, Some d)).
  { intros k. unfold TypeDeclUnit_Lookup.
    rewrite Htp, Hc, Hf, Hcl, Ha, fill_type_params_foldl by done.
    fold d0 items. rewrite fill_checked_foldl; [done..|].
    intros x Hx kx Hkx. unfold d0. rewrite foldl_put_none; [done|].
    intros t Ht E. apply (Hdisj t x Ht Hx). congruence. }
  exists d. split; [|split].
  - intros x k Hx Hk. rewrite Hrun. unfold getitem.
    apply list_elem_of_split in Hx as (pre & post & Hsplit).
    unfold d. rewrite Hsplit, (foldl_put_last name_of pre x post d0 k); auto.
    intros y Hy. rewrite <- Hk. apply (NoDup_fmap_after name_of pre x post).
    + by rewrite <- Hsplit.
    + done.
  - intros pre t post k Hsplit Hk Hpost. rewrite Hrun. unfold getitem.
    unfold d. rewrite foldl_put_none.
    + unfold d0. rewrite Hsplit. by rewrite foldl_put_last.
    + intros x Hx E. apply (Hdisj t x); [|done|congruence].
      rewrite Hsplit. apply elem_of_app. right. left.
  - intros k Hitems Htps. rewrite Hrun. unfold getitem, d, d0.
    by rewrite !foldl_put_none.
Qed.

Lemma TypeDeclUnit_Lookup_without_duplicates_witness :
  let T := mkTypeParameter "T" (PyStr "m") in
  let k := mkConstant "x" (mkNamedType "int") in
  let f := mkFunction "f" [] "method" in
  let u := mkTypeDeclUnit PyNone [k] [T] [] [f] [] in
  ∃ d, TypeDeclUnit_Lookup u None "f" = (Ret f, Some d)
       ∧ TypeDeclUnit_Lookup u None "m.T" = (Ret T, Some d)
       ∧ TypeDeclUnit_Lookup u None "T" = (Raise KeyError, Some d).
Proof.
  intros T k f u.
  destruct (TypeDeclUnit_Lookup_without_duplicates u [T] [k] [f] [] []
              eq_refl eq_refl eq_refl eq_refl eq_refl)
    as (d & H1 & H2 & H3).
  - repeat constructor. simpl. eauto.
  - repeat constructor; simpl; eauto.
  - simpl. apply NoDup_cons. split; [|apply NoDup_singleton].
    intros [=]%list_elem_of_singleton.
  - intros t x Ht Hx. elem_cases Ht; elem_cases Hx; discriminate.
  - exists d. split; [|split].
    + apply (H1 f "f"); [|reflexivity]. right. left.
    + apply (H2 [] T [] "m.T"); [reflexivity..|]. by intros ? ?%elem_of_nil.
    + apply H3.
      * intros x Hx. elem_cases Hx; discriminate.
      * intros t Ht. elem_cases Ht; discriminate.
Defined.

(** A duplicate-name error stops the loop at a declaration [x] whose name is
    in the table: the table holds what it held and the declarations before
    [x], which have different names that were not in the table. *)
Lemma fill_checked_stops xs d k d' :
  fill_checked xs d = (Raise (DuplicateName k), d') →
  ∃ pre x post,
    xs = pre ++ x :: post ∧ name_of x = Some k
    ∧ d' = foldl (put name_of) d pre ∧ is_Some (d' !! k)
    ∧ NoDup (name_of <$> pre)
    ∧ Forall (fun p => is_Some (name_of p)) pre
    ∧ ∀ p kp, p ∈ pre → name_of p = Some kp → d !! kp = None.
Proof.
  revert d. induction xs as [|z xs IH]; intros d; simpl; [done|].
  destruct (name_of z) as [kz|] eqn:Hz; [|done].
  destruct (d !! kz) as [w|] eqn:Hkz.
  - intros [= <- <-]. exists [], z, xs. simpl.
    repeat split; eauto using NoDup_nil_2.
    intros p kp Hp. by apply elem_of_nil in Hp.
  - intros H.
    destruct (IH _ H) as (pre & x & post & -> & Hx & -> & Hk & Hnd & Hall & Hfresh).
    assert (Hput : put name_of d z = <[kz:=z]> d).
    { unfold put. by rewrite Hz. }
    exists (z :: pre), x, post.
    split; [done|]. split; [done|]. cbn [foldl]. rewrite Hput.
    split; [done|]. split; [done|]. split; [|split].
    + rewrite fmap_cons, Hz. apply NoDup_cons. split; [|done].
      intros (p & Hp & Hin)%list_elem_of_fmap.
      symmetry in Hp. pose proof (Hfresh p kz Hin Hp) as Hnone.
      by rewrite lookup_insert_eq in Hnone.
    + constructor; eauto.
    + intros p kp [->|Hp]%elem_of_cons Hkp.
      * congruence.
      * pose proof (Hfresh p kp Hp Hkp) as Hnone.
        destruct (decide (kz = kp)) as [->|Hne].
        -- by rewrite lookup_insert_eq in Hnone.
        -- by rewrite lookup_insert_ne in Hnone.
Qed.

Lemma fill_type_params_named tps d d' :
  fill_type_params tps d = (Ret tt, d') →
  Forall (fun x => is_Some (full_name x)) tps.
Proof.
  revert d. induction tps as [|t tps IH]; intros d; [done|]. simpl.
  destruct (full_name t) eqn:Ht; [|done]. intros H%IH. constructor; eauto.
Qed.

(** X4: a lookup on a module that fails with a duplicate-name error, at the
    declaration [x] whose name [k] was in the table already, leaves in place
    the table it was filling: the type parameters and the declarations that
    stand before [x].  Every later lookup is answered from that table and
    leaves it as it is; none fails with a duplicate-name error again.  A
    declaration before [x] is found under its name and a type parameter
    under its full name; the name of a declaration from [x] on, when nothing
    before has it, raises [KeyError] though the module declares it.  The
    duplicated name [k] returns what was entered first: the one declaration
    that stands before [x] and has that name or, when there is none, the
    last type parameter with that full name. *)
Theorem TypeDeclUnit_Lookup_after_duplicate_error :
  ∀ self type_params constants functions classes aliases name k st,
    tuple_attr self "type_params" = Some type_params →
    tuple_attr self "constants" = Some constants →
    tuple_attr self "functions" = Some functions →
    tuple_attr self "classes" = Some classes →
    tuple_attr self "aliases" = Some aliases →
    let items := constants ++ functions ++ classes ++ aliases in
    TypeDeclUnit_Lookup self None name = (Raise (DuplicateName k), st) →
    ∃ pre x post,
      items = pre ++ x :: post ∧ name_of x = Some k
      ∧ (∀ name' k',
           (TypeDeclUnit_Lookup self st name').1 ≠ Raise (DuplicateName k')
           ∧ (TypeDeclUnit_Lookup self st name').2 = st)
      ∧ (∀ y ky, y ∈ pre → name_of y = Some ky →
           TypeDeclUnit_Lookup self st ky = (Ret y, st))
      ∧ (∀ tpre t tpost kt,
           type_params = tpre ++ t :: tpost → full_name t = Some kt →
           (∀ u, u ∈ tpost → full_name u ≠ Some kt) →
           TypeDeclUnit_Lookup self st kt = (Ret t, st))
      ∧ (∀ k',
           (∀ y, y ∈ pre → name_of y ≠ Some k') →
           (∀ t, t ∈ type_params → full_name t ≠ Some k') →
           TypeDeclUnit_Lookup self st k' = (Raise KeyError, st))
      ∧ ∃ y,
          TypeDeclUnit_Lookup self st k = (Ret y, st)
          ∧ ((∃ pre1 mid,
                pre = pre1 ++ y :: mid ∧ name_of y = Some k
                ∧ ∀ p, p ∈ pre1 ++ mid → name_of p ≠ Some k)
             ∨ ((∀ p, p ∈ pre → name_of p ≠ Some k)
                ∧ ∃ tpre tpost,
                    type_params = tpre ++ y :: tpost ∧ full_name y = Some k
                    ∧ ∀ u, u ∈ tpost → full_name u ≠ Some k)).
Proof.
  intros self tps cs fs cl al name k st Htp Hc Hf Hcl Ha items.
  unfold TypeDeclUnit_Lookup at 1. rewrite Htp.
  destruct (fill_type_params tps ∅) as [[[]|e] d0] eqn:Hfill.
  2:{ intros [= -> _]. by apply fill_type_params_raise in Hfill. }
  rewrite Hc, Hf, Hcl, Ha. fold items.
  destruct (fill_checked items d0) as [[[]|e] d] eqn:Hitems.
  { unfold getitem. by destruct (d !! name). }
  intros [= -> <-].
  pose proof (fill_type_params_named _ _ _ Hfill) as Hfull.
  rewrite fill_type_params_foldl in Hfill by done. injection Hfill as <-.
  set (d0 := foldl (put full_name) ∅ tps) in *.
  destruct (fill_checked_stops _ _ _ _ Hitems)
    as (pre & x & post & Hsplit & Hx & -> & Hk & Hnd & Hnamed & Hfresh).
  set (d := foldl (put name_of) d0 pre) in *.
  assert (Hrun : ∀ k', TypeDeclUnit_Lookup self (Some d) k'
                       = (getitem d k', Some d)) by done.
  assert (Hdecl : ∀ y ky, y ∈ pre → name_of y = Some ky → d !! ky = Some y).
  { intros y ky Hy Hky.
    apply list_elem_of_split in Hy as (pre1 & mid & Hpre).
    unfold d. rewrite Hpre. apply foldl_put_last; [done|].
    intros z Hz. rewrite <- Hky.
    apply (NoDup_fmap_after name_of pre1 y mid); [by rewrite <- Hpre|done]. }
  assert (Htps : ∀ kt, (∀ y, y ∈ pre → name_of y ≠ Some kt) →
                       d !! kt = d0 !! kt).
  { intros kt Hno. unfold d. by apply foldl_put_none. }
  assert (Hdisj : ∀ t kt y, t ∈ tps → full_name t = Some kt → y ∈ pre →
                            name_of y ≠ Some kt).
  { intros t kt y Ht Hkt Hy Hky.
    pose proof (Hfresh y kt Hy Hky) as Hnone. unfold d0 in Hnone.
    destruct (last_with_key full_name tps kt t Ht Hkt)
      as (tpre & u & tpost & Hts & Hu & Hpost).
    by rewrite Hts, (foldl_put_last full_name tpre u tpost ∅ kt) in Hnone. }
  exists pre, x, post. split; [done|]. split; [done|].
  split; [|split; [|split; [|split]]].
  - intros name' k'. rewrite Hrun. split; [|done].
    simpl. unfold getitem. by destruct (d !! name').
  - intros y ky Hy Hky. rewrite Hrun. unfold getitem.
    by rewrite (Hdecl y ky).
  - intros tpre t tpost kt Hts Hkt Hpost. rewrite Hrun. unfold getitem.
    rewrite Htps.
    + unfold d0. rewrite Hts. by rewrite foldl_put_last.
    + intros y Hy. apply (Hdisj t kt y); [|done..].
      rewrite Hts. apply elem_of_app. right. left.
  - intros k' Hpre Htparams. rewrite Hrun. unfold getitem.
    rewrite Htps by done. unfold d0. by rewrite foldl_put_none, lookup_empty.
  - destruct (with_key_dec name_of pre k) as [(y & Hy & Hky)|Hno].
    + exists y. split.
      * rewrite Hrun. unfold getitem. by rewrite (Hdecl y k).
      * left. apply list_elem_of_split in Hy as (pre1 & mid & Hpre).
        exists pre1, mid. split; [done|]. split; [done|].
        intros p Hp Hpk. rewrite Hpre in Hnd.
        rewrite fmap_app, fmap_cons in Hnd.
        apply NoDup_app in Hnd as (_ & Hl & Hr).
        apply NoDup_cons in Hr as [Hr _].
        apply elem_of_app in Hp as [Hp|Hp].
        -- apply (Hl (Some k)); [|rewrite <- Hky; left].
           rewrite <- Hpk. by apply list_elem_of_fmap_2.
        -- apply Hr. rewrite Hky, <- Hpk. by apply list_elem_of_fmap_2.
    + destruct Hk as [y Hy]. rewrite Htps in Hy by done.
      pose proof Hy as Hy0. unfold d0 in Hy0.
      apply foldl_put_inv in Hy0 as [Hy0|[Hin Hyk]].
      { by rewrite lookup_empty in Hy0. }
      destruct (last_with_key full_name tps k y Hin Hyk)
        as (tpre & u & tpost & Hts & Hu & Hpost).
      assert (u = y) as ->.
      { unfold d0 in Hy.
        rewrite Hts, (foldl_put_last full_name tpre u tpost ∅ k) in Hy by done.
        by injection Hy. }
      exists y. split.
      * rewrite Hrun. unfold getitem. by rewrite Htps, Hy.
      * right. split; [done|]. by exists tpre, tpost.
Qed.

(** A module with the type parameter [m.T], the constant [x] and the
    functions [x] and [g]: the first lookup fails at the function [x]; after
    it [x] is the constant, and [g] is not found. *)
Lemma TypeDeclUnit_Lookup_after_duplicate_error_witness :
  let T := mkTypeParameter "T" (PyStr "m") in
  let k := mkConstant "x" (mkNamedType "int") in
  let f := mkFunction "x" [] "method" in
  let g := mkFunction "g" [] "method" in
  let u := mkTypeDeclUnit PyNone [k] [T] [] [f; g] [] in
  let st := (TypeDeclUnit_Lookup u None "y").2 in
  TypeDeclUnit_Lookup u None "y" = (Raise (DuplicateName "x"), st)
  ∧ TypeDeclUnit_Lookup u st "x" = (Ret k, st)
  ∧ TypeDeclUnit_Lookup u st "g" = (Raise KeyError, st)
  ∧ TypeDeclUnit_Lookup u st "m.T" = (Ret T, st).
Proof.
  intros T k f g u st.
  assert (Hrun : TypeDeclUnit_Lookup u None "y"
                 = (Raise (DuplicateName "x"), st)) by (by vm_compute).
  split; [exact Hrun|].
  destruct (TypeDeclUnit_Lookup_after_duplicate_error u [T] [k] [f; g] [] [] "y" "x" st
              eq_refl eq_refl eq_refl eq_refl eq_refl Hrun)
    as (pre & x & post & Hsplit & Hx & _ & Hdecl & Htp & Hnone & y & _ & Hcase).
  assert (pre = [k]) as ->.
  { destruct pre as [|a [|b [|c pre]]]; simpl in Hsplit.
    - destruct Hcase as [(pre1 & mid & Hpre & _)|(_ & tpre & tpost & Hts & Hy & _)].
      + by destruct pre1.
      + destruct tpre as [|? [|? ?]]; try discriminate Hts.
        injection Hts as <- _. discriminate Hy.
    - by injection Hsplit as <- _ _.
    - injection Hsplit as _ _ <- _. discriminate Hx.
    - destruct pre; discriminate Hsplit. }
  split; [|split].
  - apply (Hdecl k "x"); [left|reflexivity].
  - apply Hnone.
    + intros z Hz. apply list_elem_of_singleton in Hz as ->. discriminate.
    + intros t Ht. apply list_elem_of_singleton in Ht as ->. discriminate.
  - apply (Htp [] T [] "m.T"); [reflexivity..|]. by intros ? ?%elem_of_nil.
Defined.

(** X5: the first lookup on a class builds one table of its methods and
    constants, whatever name is looked up.  A name that no method and no
    constant has raises [KeyError]; an item that is found is a method or a
    constant of the class with the name looked up; and a constant hides a
    method of the same name, since the constants are entered last. *)
Theorem Class_Lookup_table :
  ∀ self methods constants,
    tuple_attr self "methods" = Some methods →
    tuple_attr self "constants" = Some constants →
    Forall (fun x => is_Some (name_of x)) (methods ++ constants) →
    ∃ d,
      (∀ name, (∀ y, y ∈ methods ++ constants → name_of y ≠ Some name) →
         Class_Lookup self None name = (Raise KeyError, Some d))
      ∧ (∀ name x, Class_Lookup self None name = (Ret x, Some d) →
           x ∈ methods ++ constants ∧ name_of x = Some name)
      ∧ (∀ name c, c ∈ constants → name_of c = Some name →
           ∃ c', c' ∈ constants ∧ name_of c' = Some name
                 ∧ Class_Lookup self None name = (Ret c', Some d)).
Proof.
  intros self methods constants Hm Hc Hnamed.
  set (d := foldl (put name_of) ∅ (methods ++ constants)).
  assert (Hrun : ∀ k, Class_Lookup self None k = (getitem d k, Some d)).
  { intros k. unfold Class_Lookup.
    by rewrite Hm, Hc, fill_unchecked_foldl. }
  exists d. split; [|split].
  - intros name Hno. rewrite Hrun. unfold getitem, d.
    by rewrite foldl_put_none.
  - intros name x. rewrite Hrun. unfold getitem.
    destruct (d !! name) as [y|] eqn:Hy; [|done]. intros [= ->].
    apply foldl_put_inv in Hy as [Hy|Hy]; [|done].
    by rewrite lookup_empty in Hy.
  - intros name c Hin Hk.
    destruct (last_with_key name_of constants name c Hin Hk)
      as (pre & c' & post & -> & Hc' & Hpost).
    exists c'. split; [|split; [done|]].
    { apply elem_of_app. right. left. }
    rewrite Hrun. unfold getitem, d.
    by rewrite app_assoc, foldl_put_last.
Qed.

Lemma Class_Lookup_table_witness :
  let f := mkFunction "x" [] "method" in
  let k := mkConstant "x" (mkNamedType "int") in
  let c := mkClass "C" PyNone [] [f] [k] [] in
  ∃ d, Class_Lookup c None "y" = (Raise KeyError, Some d)
       ∧ ∃ c', c' ∈ [k] ∧ Class_Lookup c None "x" = (Ret c', Some d).
Proof.
  intros f k c.
  destruct (Class_Lookup_table c [f] [k] eq_refl eq_refl)
    as (d & H1 & _ & H3).
  - repeat constructor; simpl; eauto.
  - exists d. split.
    + apply H1. intros y Hy. elem_cases Hy; discriminate.
    + destruct (H3 "x" k) as (c' & Hin & _ & Hrun); [left|reflexivity|].
      by exists c'.
Defined.

(** ** Comparing two modules *)

Lemma field_eq_true u v f :
  field_eq u v f = Ret true
  ↔ ∃ x y, getattr u f = Some x ∧ getattr v f = Some y ∧ eqb x y = true.
Proof.
  unfold field_eq. split.
  - destruct (getattr u f) as [x|]; [|done].
    destruct (getattr v f) as [y|]; [|done]. intros [= E]. eauto.
  - by intros (x & y & -> & -> & ->).
Qed.

Lemma and_then_true a b :
  and_then a b = Ret true ↔ a = Ret true ∧ b = Ret true.
Proof.
  unfold and_then. split.
  - by destruct a as [[]|].
  - by intros [-> ->].
Qed.

Lemma ASTeq_true u v :
  ASTeq u v = Ret true
  ↔ ∀ f, f ∈ ["constants"; "type_params"; "classes"; "functions"; "aliases"] →
         ∃ x y, getattr u f = Some x ∧ getattr v f = Some y ∧ eqb x y = true.
Proof.
  unfold ASTeq. rewrite !and_then_true, !field_eq_true. split.
  - intros (H1 & H2 & H3 & H4 & H5) f Hf. elem_cases Hf; done.
  - intros H. repeat split; apply H; repeat constructor.
Qed.

(** X6: [ASTeq] compares the constants, type parameters, classes, functions
    and aliases of two modules with [==] and nothing else: two modules that
    differ in their name only are equal under it.  It is symmetric and
    transitive, and it returns [False] as soon as the constants differ,
    before any other attribute of the other object is read. *)
Theorem ASTeq_ignores_name :
  (∀ n1 n2 constants type_params classes functions aliases,
      ASTeq (mkTypeDeclUnit n1 constants type_params classes functions aliases)
        (mkTypeDeclUnit n2 constants type_params classes functions aliases)
      = Ret true)
  ∧ (∀ u v, ASTeq u v = Ret true → ASTeq v u = Ret true)
  ∧ (∀ u v w, ASTeq u v = Ret true → ASTeq v w = Ret true →
       ASTeq u w = Ret true)
  ∧ (∀ u v x y,
       getattr u "constants" = Some x → getattr v "constants" = Some y →
       eqb x y = false → ASTeq u v = Ret false).
Proof.
  split; [|split; [|split]].
  - intros. apply ASTeq_true. intros f Hf.
    elem_cases Hf; (do 2 eexists; split; [reflexivity|];
                    split; [reflexivity|apply eqb_refl]).
  - intros u v H. apply ASTeq_true. intros f Hf.
    destruct (proj1 (ASTeq_true u v) H f Hf) as (x & y & Hx & Hy & E).
    exists y, x. split; [done|]. split; [done|]. by apply eqb_sym.
  - intros u v w H1 H2. apply ASTeq_true. intros f Hf.
    destruct (proj1 (ASTeq_true u v) H1 f Hf) as (x & y & Hx & Hy & E).
    destruct (proj1 (ASTeq_true v w) H2 f Hf) as (y' & z & Hy' & Hz & E').
    exists x, z. split; [done|]. split; [done|].
    rewrite Hy in Hy'. injection Hy' as <-. by eapply eqb_trans.
  - intros u v x y Hx Hy E. unfold ASTeq, field_eq at 1.
    by rewrite Hx, Hy, E.
Qed.

Lemma ASTeq_ignores_name_witness :
  let k := mkConstant "x" (mkNamedType "int") in
  let u := mkTypeDeclUnit (PyStr "a") [k] [] [] [] [] in
  let v := mkTypeDeclUnit (PyStr "b") [k] [] [] [] [] in
  let w := mkTypeDeclUnit (PyStr "b") [] [] [] [] [] in
  ASTeq v u = Ret true ∧ ASTeq u w = Ret false.
Proof.
  intros k u v w. destruct ASTeq_ignores_name as (H1 & H2 & _ & H4). split.
  - apply H2, H1.
  - by apply (H4 u w (PyTuple [k]) (PyTuple [])).
Defined.

(** ** Containers *)

Section IsContainerProperties.
Context (cls_at : list nat → Node).

Lemma eqb_PyStr n s : eqb n (PyStr s) = true ↔ n = PyStr s.
Proof.
  destruct n; simpl; try (split; [discriminate|by intros [=]]).
  rewrite String.eqb_eq. split; [by intros ->|by intros [= ->]].
Qed.

Lemma IsContainer_S d path t n ps :
  cls_at path = t → class_with t n ps →
  IsContainer cls_at (S d) path
  = if eqb n (PyStr "typing.Generic") then Ret true
    else parents_loop (fun i => IsContainer cls_at d (path ++ [i])) 0 ps.
Proof.
  intros <- (Hc & Hn & parents & Hp & Hi). simpl.
  by rewrite Hc, Hn, Hp, Hi.
Qed.

Lemma parents_loop_skip rec i pre l :
  Forall not_generic pre →
  parents_loop rec i (pre ++ l) = parents_loop rec (i + length pre) l.
Proof.
  intros H. revert i. induction H as [|p pre Hp _ IH]; intros i; simpl.
  - by rewrite Nat.add_0_r.
  - rewrite Hp, IH. f_equal. lia.
Qed.

Lemma parents_loop_generic rec i p post :
  generic_over_class p →
  parents_loop rec i (p :: post)
  = match rec i with
    | Ret true => Ret true
    | Ret false => parents_loop rec (S i) post
    | Raise e => Raise e
    end.
Proof. intros (Hg & base & Hb & Hc). simpl. by rewrite Hg, Hb, Hc. Qed.

Lemma parents_loop_true rec i ps :
  parents_loop rec i ps = Ret true →
  ∃ j p, ps !! j = Some p ∧ generic_over_class p ∧ rec (i + j) = Ret true.
Proof.
  revert i. induction ps as [|p ps IH]; intros i; simpl; [done|].
  assert (Hrest : parents_loop rec (S i) ps = Ret true →
            ∃ j q, (p :: ps) !! j = Some q ∧ generic_over_class q
                   ∧ rec (i + j) = Ret true).
  { intros (j & q & Hj & Hq & Hr)%IH. exists (S j), q.
    split; [done|]. split; [done|]. by rewrite Nat.add_succ_r. }
  destruct (is_instance p cGenericType) eqn:Hg; [|done].
  destruct (getattr p "base_type") as [base|] eqn:Hb; [|done].
  destruct (is_instance base cClassType) eqn:Hc; [|done].
  destruct (rec i) as [[]|] eqn:Hr; [|done..].
  intros _. exists 0, p. split; [done|].
  split; [by split; eauto|]. by rewrite Nat.add_0_r.
Qed.

Lemma parents_loop_false rec i ps :
  parents_loop rec i ps = Ret false →
  ∀ j p, ps !! j = Some p → generic_over_class p → rec (i + j) = Ret false.
Proof.
  revert i. induction ps as [|p ps IH]; intros i; simpl.
  { by intros _ j p. }
  assert (Hrest : (generic_over_class p → rec i = Ret false) →
            parents_loop rec (S i) ps = Ret false →
            ∀ j q, (p :: ps) !! j = Some q → generic_over_class q →
                   rec (i + j) = Ret false).
  { intros Hhere Hloop [|j] q Hj Hq.
    - injection Hj as <-. rewrite Nat.add_0_r. auto.
    - rewrite Nat.add_succ_r. by apply (IH (S i) Hloop j q). }
  destruct (is_instance p cGenericType) eqn:Hg.
  2:{ apply Hrest. intros [Hp _]. congruence. }
  destruct (getattr p "base_type") as [base|] eqn:Hb; [|done].
  destruct (is_instance base cClassType) eqn:Hc.
  2:{ apply Hrest. intros (_ & b & Hb' & Hc'). congruence. }
  destruct (rec i) as [[]|] eqn:Hr; [done| |done].
  by apply Hrest.
Qed.

(** When [IsContainer] returns, it returns whether the class is a
    container. *)
Lemma IsContainer_sound d path b :
  IsContainer cls_at d path = Ret b → (b = true ↔ container cls_at path).
Proof.
  revert path b. induction d as [|d IH]; intros path b; simpl; [done|].
  destruct (is_instance (cls_at path) cClass) eqn:Hc; [|done]. simpl.
  destruct (getattr (cls_at path) "name") as [n|] eqn:Hn; [|done].
  destruct (eqb n (PyStr "typing.Generic")) eqn:En.
  { intros [= <-]. split; [intros _|done].
    apply container_Generic; [done|]. by apply eqb_PyStr in En as ->. }
  destruct (getattr (cls_at path) "parents") as [parents|] eqn:Hp; [|done].
  destruct (iter parents) as [ps|] eqn:Hi; [|done].
  intros Hloop. destruct b.
  - split; [intros _|done].
    apply parents_loop_true in Hloop as (j & p & Hj & Hg & Hrec).
    eapply container_parent; [done..|]. by apply (IH _ true).
  - split; [done|]. intros Hcont. exfalso.
    inversion Hcont as [? _ Hname|? parents' ps' i p _ Hp' Hi' Hj Hg Hsub]; subst.
    + rewrite Hn in Hname. injection Hname as ->. by rewrite eqb_refl in En.
    + rewrite Hp in Hp'. injection Hp' as <-.
      rewrite Hi in Hi'. injection Hi' as <-.
      pose proof (parents_loop_false _ _ _ Hloop i p Hj Hg) as Hrec.
      simpl in Hrec. apply (IH _ false) in Hrec as [_ Hrec].
      by apply Hrec in Hsub.
Qed.

Lemma parents_loop_returns rec i ps :
  Forall (fun p => is_instance p cGenericType = true →
                   is_Some (getattr p "base_type")) ps →
  (∀ j p, ps !! j = Some p → generic_over_class p → ∃ b, rec (i + j) = Ret b) →
  ∃ b, parents_loop rec i ps = Ret b.
Proof.
  intros Hwf. revert i. induction Hwf as [|p ps Hp _ IH]; intros i Hrec.
  { by exists false. }
  assert (Hrest : ∃ b, parents_loop rec (S i) ps = Ret b).
  { apply IH. intros j q Hj Hq. replace (S i + j) with (i + S j) by lia.
    by apply (Hrec (S j) q). }
  simpl. destruct (is_instance p cGenericType) eqn:Hg; [|done].
  destruct Hp as [base Hb]; [done|]. rewrite Hb.
  destruct (is_instance base cClassType) eqn:Hc; [|done].
  destruct (Hrec 0 p) as [b Hb0]; [done|by split; eauto|].
  rewrite Nat.add_0_r in Hb0. rewrite Hb0. destruct b; [by exists true|done].
Qed.

End IsContainerProperties.

(** X7: on a hierarchy of resolved classes in which following the generic
    parents comes to an end ([rank] decreases along them), [IsContainer]
    returns, and it returns [True] exactly for the class [typing.Generic] and
    for a class one of whose parents is a generic type (a [GenericType], a
    [HomogeneousContainerType] or a [TupleType]) over a [ClassType] that
    points to a class for which it returns [True]. *)
Theorem IsContainer_decides :
  ∀ (cls_at : list nat → Node) (ok : list nat → Prop) (rank : list nat → nat),
    (∀ path, ok path →
       ∃ n ps,
         class_with (cls_at path) n ps
         ∧ Forall (fun p => is_instance p cGenericType = true →
                            is_Some (getattr p "base_type")) ps
         ∧ ∀ i p, ps !! i = Some p → generic_over_class p →
                  ok (path ++ [i]) ∧ (rank (path ++ [i]) < rank path)%nat) →
    ∀ path, ok path →
      ∃ b, IsContainer cls_at (S (rank path)) path = Ret b
           ∧ (b = true ↔ container cls_at path).
Proof.
  intros cls_at ok rank Hok.
  assert (Hret : ∀ d path, ok path → (rank path < d)%nat →
            ∃ b, IsContainer cls_at d path = Ret b).
  { induction d as [|d IH]; intros path Hpath Hd; [lia|].
    destruct (Hok path Hpath) as (n & ps & Hcls & Hwf & Hsub).
    rewrite (IsContainer_S cls_at d path _ n ps eq_refl Hcls).
    destruct (eqb n (PyStr "typing.Generic")); [by exists true|].
    apply parents_loop_returns; [done|]. intros j p Hj Hp.
    destruct (Hsub j p Hj Hp) as [Hnext Hrank]. apply IH; [done|].
    simpl. lia. }
  intros path Hpath. destruct (Hret (S (rank path)) path Hpath) as [b Hb]; [lia|].
  exists b. split; [done|]. by eapply IsContainer_sound.
Qed.

(** The class [MyList(typing.Generic[T])]. *)
Lemma IsContainer_decides_witness :
  let T := mkTypeParameter "T" PyNone in
  let generic := mkClass "typing.Generic" PyNone [] [] [] [] in
  let base := Obj cGenericType [Obj cClassType [PyStr "typing.Generic"];
                                PyTuple [T]] in
  let my_list := mkClass "MyList" PyNone [base] [] [] [] in
  let cls_at path :=
    match path with [] => my_list | [0] => generic | _ => PyNone end in
  ∃ b, IsContainer cls_at 2 [] = Ret b ∧ (b = true ↔ container cls_at []).
Proof.
  intros T generic base my_list cls_at.
  apply (IsContainer_decides cls_at (fun path => path = [] ∨ path = [0])
           (fun path => 1 - length path)); [|by left].
  intros path [-> | ->].
  - exists (PyStr "MyList"), [base]. split; [|split].
    + split; [reflexivity|]. split; [reflexivity|].
      by exists (PyTuple [base]).
    + repeat constructor. intros _. by eexists.
    + intros [|i] p Hi Hp; [|by destruct i].
      split; [by right|simpl; lia].
  - exists (PyStr "typing.Generic"), []. split; [|split].
    + split; [reflexivity|]. split; [reflexivity|]. by exists (PyTuple []).
    + constructor.
    + by intros i p ?.
Defined.

Lemma IsContainer_first_generic cls_at d path n pre p post :
  class_with (cls_at path) n (pre ++ p :: post) →
  n ≠ PyStr "typing.Generic" →
  Forall not_generic pre → generic_over_class p →
  IsContainer cls_at (S d) path
  = match IsContainer cls_at d (path ++ [length pre]) with
    | Ret true => Ret true
    | Ret false =>
        parents_loop (fun i => IsContainer cls_at d (path ++ [i]))
          (S (length pre)) post
    | Raise e => Raise e
    end.
Proof.
  intros Hcls Hn Hpre Hp.
  rewrite (IsContainer_S cls_at d path _ n _ eq_refl Hcls).
  destruct (eqb n (PyStr "typing.Generic")) eqn:En.
  { by apply eqb_PyStr in En. }
  by rewrite parents_loop_skip, parents_loop_generic.
Qed.

(** X8: [IsContainer] fails its assertion on an object that is not a class,
    so also when it comes to a generic parent over a [ClassType] that is not
    resolved (its [cls] is [None]) before a parent made it return [True].
    Parents that are not generic types are passed over: a class other than
    [typing.Generic] none of whose parents is a generic type is no container,
    whatever those parents are. *)
Theorem IsContainer_edge_cases :
  ∀ (cls_at : list nat → Node) (d : nat) (path : list nat),
    (is_instance (cls_at path) cClass = false →
     IsContainer cls_at (S d) path = Raise AssertionError)
    ∧ (∀ n ps,
         class_with (cls_at path) n ps → n ≠ PyStr "typing.Generic" →
         Forall not_generic ps →
         IsContainer cls_at (S d) path = Ret false)
    ∧ (∀ n pre p post,
         class_with (cls_at path) n (pre ++ p :: post) →
         n ≠ PyStr "typing.Generic" →
         Forall not_generic pre → generic_over_class p →
         is_instance (cls_at (path ++ [length pre])) cClass = false →
         IsContainer cls_at (S (S d)) path = Raise AssertionError).
Proof.
  intros cls_at d path.
  assert (Hnot : ∀ d path, is_instance (cls_at path) cClass = false →
            IsContainer cls_at (S d) path = Raise AssertionError).
  { intros d' path' H. simpl. by rewrite H. }
  split; [apply Hnot|]. split.
  - intros n ps Hcls Hn Hps.
    rewrite (IsContainer_S cls_at d path _ n ps eq_refl Hcls).
    destruct (eqb n (PyStr "typing.Generic")) eqn:En.
    { by apply eqb_PyStr in En. }
    rewrite <- (app_nil_r ps). by rewrite parents_loop_skip.
  - intros n pre p post Hcls Hn Hpre Hp Hnone.
    rewrite (IsContainer_first_generic cls_at (S d) path n pre p post)
      by done.
    by rewrite Hnot.
Qed.

(** The class [C(list[int])] whose base [ClassType] is not resolved, and
    the class [D(object)]. *)
Lemma IsContainer_edge_cases_witness :
  let base := Obj cGenericType [Obj cClassType [PyStr "list"];
                                PyTuple [mkNamedType "int"]] in
  let C := mkClass "C" PyNone [base] [] [] [] in
  let D := mkClass "D" PyNone [Obj cClassType [PyStr "object"]] [] [] [] in
  IsContainer (fun path => match path with [] => C | _ => PyNone end) 2 []
  = Raise AssertionError
  ∧ IsContainer (fun _ => D) 1 [] = Ret false.
Proof.
  intros base C D. split.
  - apply (proj2 (proj2 (IsContainer_edge_cases
                           (fun path => match path with [] => C | _ => PyNone end)
                           0 [])) (PyStr "C") [] base []).
    + split; [reflexivity|]. split; [reflexivity|].
      by exists (PyTuple [base]).
    + discriminate.
    + constructor.
    + split; [reflexivity|]. eexists. split; reflexivity.
    + reflexivity.
  - apply (proj1 (proj2 (IsContainer_edge_cases (fun _ => D) 0 []))
             (PyStr "D") [Obj cClassType [PyStr "object"]]).
    + split; [reflexivity|]. split; [reflexivity|]. by eexists.
    + discriminate.
    + repeat constructor.
Defined.

(** X9: on a hierarchy in which following the first generic parent of each
    class never comes to an end, as for a class that is its own generic
    base, [IsContainer] does not return: the calls nest without bound,
    whatever bound is set. *)
Theorem IsContainer_cyclic :
  ∀ (cls_at : list nat → Node) (loops : list nat → Prop),
    (∀ path, loops path →
       ∃ n pre p post,
         class_with (cls_at path) n (pre ++ p :: post)
         ∧ n ≠ PyStr "typing.Generic"
         ∧ Forall not_generic pre ∧ generic_over_class p
         ∧ loops (path ++ [length pre])) →
    ∀ d path, loops path → IsContainer cls_at d path = Raise RecursionLimit.
Proof.
  intros cls_at loops Hloops. induction d as [|d IH]; intros path Hpath.
  { done. }
  destruct (Hloops path Hpath) as (n & pre & p & post & Hcls & Hn & Hpre & Hp
                                   & Hnext).
  rewrite (IsContainer_first_generic cls_at d path n pre p post) by done.
  by rewrite IH.
Qed.

(** The class [A(A[int])]. *)
Lemma IsContainer_cyclic_witness :
  let base := Obj cGenericType [Obj cClassType [PyStr "A"];
                                PyTuple [mkNamedType "int"]] in
  let A := mkClass "A" PyNone [base] [] [] [] in
  IsContainer (fun _ => A) 1000 [] = Raise RecursionLimit.
Proof.
  intros base A.
  apply (IsContainer_cyclic (fun _ => A) (fun _ => True)); [|done].
  intros path _. exists (PyStr "A"), [], base, [].
  split; [|split; [discriminate|split; [constructor|split; [|done]]]].
  - split; [reflexivity|]. split; [reflexivity|]. by eexists.
  - split; [reflexivity|]. eexists. split; reflexivity.
Defined.

(** ** Full names of type parameters *)

Lemma append_assoc (a b c : string) : (a +:+ b) +:+ c = a +:+ (b +:+ c).
Proof.
  induction a as [|x a IH]; [done|].
  change (String x ((a +:+ b) +:+ c) = String x (a +:+ (b +:+ c))).
  by rewrite IH.
Qed.

Lemma append_cons c (s t : string) : String c s +:+ t = String c (s +:+ t).
Proof. reflexivity. Qed.

Lemma append_dot (n : string) : ("" +:+ ".") +:+ n = String dot n.
Proof. reflexivity. Qed.

Lemma scoped_not_dot_free (s n : string) : dot_free ((s +:+ ".") +:+ n) = false.
Proof.
  induction s as [|c s IH]; [done|].
  rewrite !append_cons. simpl. rewrite IH. apply andb_false_r.
Qed.

Lemma scoped_inj (s1 s2 n1 n2 : string) :
  dot_free n1 = true → dot_free n2 = true →
  (s1 +:+ ".") +:+ n1 = (s2 +:+ ".") +:+ n2 → s1 = s2 ∧ n1 = n2.
Proof.
  intros H1 H2. revert s2.
  induction s1 as [|c1 s1 IH]; intros [|c2 s2];
    rewrite ?append_cons, ?append_dot.
  - by intros [= ->].
  - intros [= <- ->]. by rewrite scoped_not_dot_free in H1.
  - intros [= -> <-]. by rewrite scoped_not_dot_free in H2.
  - intros [= -> H]. destruct (IH _ H) as [-> ->]. done.
Qed.

Lemma full_name_inj n1 sc1 n2 sc2 :
  dot_free n1 = true → dot_free n2 = true →
  is_Some (full_name (mkTypeParameter n1 sc1)) →
  full_name (mkTypeParameter n1 sc1) = full_name (mkTypeParameter n2 sc2) →
  n1 = n2 ∧ sc1 = sc2.
Proof.
  intros H1 H2 [k Hk]. unfold full_name, mkTypeParameter in *. simpl in *.
  destruct sc1 as [|s1| | |]; try discriminate Hk;
    destruct sc2 as [|s2| | |]; try discriminate.
  - intros [= E]. change (n1 = n2) in E. by rewrite E.
  - intros [= E]. change (n1 = (s2 +:+ ".") +:+ n2) in E.
    rewrite E in H1. by rewrite scoped_not_dot_free in H1.
  - intros [= E]. change ((s1 +:+ ".") +:+ n1 = n2) in E.
    rewrite <- E in H2. by rewrite scoped_not_dot_free in H2.
  - intros [= E]. by destruct (scoped_inj _ _ _ _ H1 H2 E) as [-> ->].
Qed.

(** On a module whose declarations have different names, none of them the
    full name of a type parameter, every lookup is answered from the table
    of the type parameters and then the declarations. *)
Lemma TypeDeclUnit_Lookup_table self type_params constants functions classes
    aliases :
  tuple_attr self "type_params" = Some type_params →
  tuple_attr self "constants" = Some constants →
  tuple_attr self "functions" = Some functions →
  tuple_attr self "classes" = Some classes →
  tuple_attr self "aliases" = Some aliases →
  let items := constants ++ functions ++ classes ++ aliases in
  Forall (fun x => is_Some (full_name x)) type_params →
  Forall (fun x => is_Some (name_of x)) items →
  NoDup (name_of <$> items) →
  (∀ t x, t ∈ type_params → x ∈ items → full_name t ≠ name_of x) →
  ∀ k, (∀ x, x ∈ items → name_of x ≠ Some k) →
    (TypeDeclUnit_Lookup self None k).1
    = getitem (foldl (put full_name) ∅ type_params) k.
Proof.
  intros Htp Hc Hf Hcl Ha items Hfull Hnamed Hnd Hdisj k Hk.
  unfold TypeDeclUnit_Lookup.
  rewrite Htp, Hc, Hf, Hcl, Ha, fill_type_params_foldl by done.
  fold items. rewrite fill_checked_foldl; [|done..|].
  - simpl. unfold getitem. by rewrite foldl_put_none.
  - intros x Hx kx Hkx. rewrite foldl_put_none; [done|].
    intros t Ht E. apply (Hdisj t x Ht Hx). congruence.
Qed.

(** X10: the full name of a type parameter is its name when it has no
    scope and the scope, a dot and the name otherwise.  When the names have
    no dot the full name tells the parameters apart: two type parameters
    with one full name have the same name and the same scope.  With dots it
    does not: a dotted name in a scope has the full name of its last part in
    the longer scope.  So on a module whose declarations have different
    names, none of them the full name of a type parameter, every type
    parameter is found under its full name when the names of the type
    parameters have no dot; and in general a type parameter is hidden by a
    later one with its full name, a lookup of that name returning the last
    of them. *)
Theorem full_name_of_type_parameter :
  (∀ name, full_name (mkTypeParameter name PyNone) = Some name)
  ∧ (∀ name scope,
       full_name (mkTypeParameter name (PyStr scope))
       = Some (scope +:+ "." +:+ name))
  ∧ (∀ n1 sc1 n2 sc2,
       dot_free n1 = true → dot_free n2 = true →
       is_Some (full_name (mkTypeParameter n1 sc1)) →
       full_name (mkTypeParameter n1 sc1) = full_name (mkTypeParameter n2 sc2) →
       n1 = n2 ∧ sc1 = sc2)
  ∧ (∀ scope part name,
       full_name (mkTypeParameter (part +:+ "." +:+ name) (PyStr scope))
       = full_name (mkTypeParameter name (PyStr (scope +:+ "." +:+ part))))
  ∧ (∀ self type_params constants functions classes aliases,
       tuple_attr self "type_params" = Some type_params →
       tuple_attr self "constants" = Some constants →
       tuple_attr self "functions" = Some functions →
       tuple_attr self "classes" = Some classes →
       tuple_attr self "aliases" = Some aliases →
       let items := constants ++ functions ++ classes ++ aliases in
       Forall (fun x => is_Some (full_name x)) type_params →
       Forall (fun x => is_Some (name_of x)) items →
       NoDup (name_of <$> items) →
       (∀ t x, t ∈ type_params → x ∈ items → full_name t ≠ name_of x) →
       (* type parameters with names without dots are all found *)
       ((∀ t, t ∈ type_params →
           ∃ n sc, t = mkTypeParameter n sc ∧ dot_free n = true) →
        ∀ t k, t ∈ type_params → full_name t = Some k →
          (TypeDeclUnit_Lookup self None k).1 = Ret t)
       (* a type parameter is hidden by a later one with its full name *)
       ∧ (∀ pre t1 mid t2 post k,
            type_params = pre ++ t1 :: mid ++ t2 :: post →
            full_name t1 = Some k → full_name t2 = Some k →
            t1 ∉ mid ++ t2 :: post →
            ∃ u, u ∈ t2 :: post ∧ full_name u = Some k ∧ u ≠ t1
                 ∧ (TypeDeclUnit_Lookup self None k).1 = Ret u)).
Proof.
  split; [done|]. split.
  { intros name scope. unfold full_name. simpl. by rewrite append_assoc. }
  split; [exact full_name_inj|]. split.
  { intros scope part name. unfold full_name. simpl.
    by rewrite !append_assoc. }
  intros self tps cs fs cl al Htp Hc Hf Hcl Ha items Hfull Hnamed Hnd Hdisj.
  assert (Hrun : ∀ t k, t ∈ tps → full_name t = Some k →
            (TypeDeclUnit_Lookup self None k).1
            = getitem (foldl (put full_name) ∅ tps) k).
  { intros t k Ht Hk.
    apply (TypeDeclUnit_Lookup_table self tps cs fs cl al); try done.
    intros x Hx E. apply (Hdisj t x Ht Hx). congruence. }
  split.
  - intros Hplain t k Ht Hk. rewrite (Hrun t k Ht Hk). unfold getitem.
    destruct (last_with_key full_name tps k t Ht Hk)
      as (pre & u & post & Hsplit & Hu & Hpost).
    rewrite Hsplit, (foldl_put_last full_name pre u post ∅ k) by done.
    assert (Hin : u ∈ tps).
    { rewrite Hsplit. apply elem_of_app. right. left. }
    destruct (Hplain t Ht) as (n1 & sc1 & -> & H1).
    destruct (Hplain u Hin) as (n2 & sc2 & -> & H2).
    assert (E : full_name (mkTypeParameter n1 sc1)
                = full_name (mkTypeParameter n2 sc2)) by congruence.
    assert (Hsome : is_Some (full_name (mkTypeParameter n1 sc1))).
    { rewrite Hk. eauto. }
    by destruct (full_name_inj _ _ _ _ H1 H2 Hsome E) as [-> ->].
  - intros pre t1 mid t2 post k Hsplit H1 H2 Hnotin.
    assert (Ht1 : t1 ∈ tps).
    { rewrite Hsplit. apply elem_of_app. right. left. }
    destruct (last_with_key full_name (t2 :: post) k t2) as
      (pre' & u & post' & Hsplit' & Hu & Hpost'); [left|done|].
    exists u. split; [rewrite Hsplit'; apply elem_of_app; right; left|].
    split; [done|]. split.
    + intros ->. apply Hnotin. apply elem_of_app. right.
      rewrite Hsplit'. apply elem_of_app. right. left.
    + rewrite (Hrun t1 k Ht1 H1), Hsplit. unfold getitem.
      replace (pre ++ t1 :: mid ++ t2 :: post)
        with ((pre ++ t1 :: mid ++ pre') ++ u :: post').
      * by rewrite (foldl_put_last full_name _ u post' ∅ k).
      * rewrite Hsplit', <- !app_assoc. simpl. by rewrite <- app_assoc.
Qed.

(** The type parameters [T] of the scope [m] and [T] without a scope are
    both found; [b.T] of the scope [a] is hidden by [T] of the scope
    [a.b]. *)
Lemma full_name_of_type_parameter_witness :
  let T := mkTypeParameter "T" (PyStr "m") in
  let U := mkTypeParameter "T" PyNone in
  let x := mkConstant "x" (mkNamedType "int") in
  let u := mkTypeDeclUnit PyNone [x] [T; U] [] [] [] in
  let t1 := mkTypeParameter "b.T" (PyStr "a") in
  let t2 := mkTypeParameter "T" (PyStr "a.b") in
  let v := mkTypeDeclUnit PyNone [] [t1; t2] [] [] [] in
  (TypeDeclUnit_Lookup u None "m.T").1 = Ret T
  ∧ (TypeDeclUnit_Lookup u None "T").1 = Ret U
  ∧ t1 ≠ t2 ∧ full_name t1 = full_name t2
  ∧ (TypeDeclUnit_Lookup v None "a.b.T").1 = Ret t2.
Proof.
  intros T U x u t1 t2 v.
  destruct full_name_of_type_parameter as (_ & _ & _ & _ & H).
  destruct (H u [T; U] [x] [] [] [] eq_refl eq_refl eq_refl eq_refl eq_refl)
    as [Hfound _].
  { repeat constructor; simpl; eauto. }
  { repeat constructor. simpl. eauto. }
  { simpl. apply NoDup_singleton. }
  { intros t y Ht Hy. elem_cases Ht; elem_cases Hy; discriminate. }
  destruct (H v [t1; t2] [] [] [] [] eq_refl eq_refl eq_refl eq_refl eq_refl)
    as [_ Hhidden].
  { repeat constructor; simpl; eauto. }
  { constructor. }
  { constructor. }
  { intros t y _ Hy. by apply elem_of_nil in Hy. }
  split; [|split; [|split; [|split]]].
  - apply Hfound; [|left|reflexivity].
    intros t Ht. elem_cases Ht; do 2 eexists; split; reflexivity.
  - apply Hfound; [|right; left|reflexivity].
    intros t Ht. elem_cases Ht; do 2 eexists; split; reflexivity.
  - discriminate.
  - reflexivity.
  - destruct (Hhidden [] t1 [] t2 [] "a.b.T") as (w & Hw & _ & _ & Hrun);
      [reflexivity..| |].
    + intros Hin. apply list_elem_of_singleton in Hin. discriminate Hin.
    + by apply list_elem_of_singleton in Hw as ->.
Defined.

End NodeProperties.

(** * Part VI: further properties of matcher.py *)

Module MatchingProperties.
Import Matcher Examples MatcherProperties.

#[local] Arguments bind {A B} m k st /.
#[local] Arguments ret {A} a st /.
#[local] Arguments raise {A} e st /.
#[local] Arguments get_or {A} e o st /.
#[local] Arguments assert b st /.
#[local] Arguments lift {A} o st /.
#[local] Arguments on_heap {A} f st /.
#[local] Arguments dict_copy subst st /.
#[local] Arguments dict_contains name subst st /.
#[local] Arguments dict_getitem subst name st /.
#[local] Arguments dict_setitem subst name v st /.
#[local] Arguments dict_new st /.
#[local] Arguments HashableDict subst st /.
#[local] Arguments log_error msg st /.
#[local] Arguments bindings v st /.
#[local] Arguments NewVariable st /.
#[local] Arguments AddBinding v d source_set st /.
#[local] Arguments view_getitem view v st /.
#[local] Arguments AbstractMatcher : simpl never.

(** ** The views that do not match *)

Section BadViews.
Context (ext : External) (self : Methods ext) (v : var) (other_type : Value)
  (subst : PySubst) (node : CFGNode ext).

#[local] Abbreviation one_view :=
  (match_var_against_type ext self v other_type subst node).

Lemma failed_cons view views r rs :
  failed (view :: views) (r :: rs)
  = match r with
    | None => view :: failed views rs
    | Some _ => failed views rs
    end.
Proof.
  unfold failed. simpl. rewrite filter_cons. simpl.
  destruct r; by rewrite ?decide_True, ?decide_False by done.
Qed.

Lemma bad_views_spec views bad st bad' st' :
  bad_views ext self v other_type subst node views bad st = (Ret bad', st')
  ↔ ∃ rs, all_return one_view views st rs st' ∧ bad' = bad ++ failed views rs.
Proof.
  revert bad st. induction views as [|view views IH]; intros bad st.
  - simpl. split.
    + intros [= <- <-]. exists []. split; [constructor|].
      by rewrite app_nil_r.
    + intros (rs & Hrun & ->). inversion Hrun; subst.
      by rewrite app_nil_r.
  - cbn [bad_views]. simpl.
    destruct (one_view view st) as [[r|e] st1] eqn:Hview.
    + rewrite IH. split.
      * intros (rs & Hrun & ->). exists (r :: rs).
        split; [by econstructor|]. rewrite failed_cons.
        destruct r; [done|]. by rewrite <- app_assoc.
      * intros (rs & Hrun & ->).
        inversion Hrun as [|? ? ? r' st1' rs' ? Hfirst Hrest]; subst.
        rewrite Hview in Hfirst. injection Hfirst as <- <-.
        exists rs'. split; [done|]. rewrite failed_cons.
        destruct r; [done|]. by rewrite <- app_assoc.
    + split; [done|]. intros (rs & Hrun & _).
      inversion Hrun as [|? ? ? r' st1' rs' ? Hfirst Hrest]; subst.
      by rewrite Hview in Hfirst.
Qed.

Lemma bad_views_raise pre view post bad st rs st1 e st2 :
  all_return one_view pre st rs st1 →
  one_view view st1 = (Raise e, st2) →
  bad_views ext self v other_type subst node (pre ++ view :: post) bad st
  = (Raise e, st2).
Proof.
  intros Hrun. revert bad.
  induction Hrun as [st|x l st r st1 rs st' Hx _ IH]; intros bad Hview.
  - simpl. by rewrite Hview.
  - cbn [app bad_views]. simpl. rewrite Hx. by apply IH.
Qed.

Lemma failed_sublist views rs : failed views rs `sublist_of` views.
Proof.
  revert rs. induction views as [|view views IH]; intros [|r rs];
    try apply sublist_nil_l.
  rewrite failed_cons. destruct r.
  - by apply sublist_cons.
  - by apply sublist_skip.
Qed.

End BadViews.

(** X11: [bad_matches] matches the variable in each strict view in turn,
    all against one substitution (the given one, or a new dictionary when
    [None] or a dictionary without entries is given), and returns the views
    whose match returned [None], in the order of the views.  When a match
    raises, [bad_matches] raises the same. *)
Theorem bad_matches_views :
  ∀ (ext : External)
    (get_views_strict : list var → CFGNode ext → Heap → list View * Heap)
    (self : Methods ext) (v : var) (other_type : Value) (node : CFGNode ext)
    (subst : PySubst) (st : State) s st1 views h2,
    subst_or_new subst st = (Ret s, st1) →
    get_views_strict [v] node (heap st1) = (views, h2) →
    let st2 := mkState h2 (dicts st1) (next_dict st1) (log st1) in
    let one_view := match_var_against_type ext self v other_type s node in
    let result :=
      bad_matches ext get_views_strict self v other_type node subst st in
    (∀ bad st',
        result = (Ret bad, st')
        ↔ ∃ rs, all_return one_view views st2 rs st' ∧ bad = failed views rs)
    ∧ (∀ bad st', result = (Ret bad, st') → bad `sublist_of` views)
    ∧ (∀ pre view post rs st3 e st4,
         views = pre ++ view :: post →
         all_return one_view pre st2 rs st3 →
         one_view view st3 = (Raise e, st4) →
         result = (Raise e, st4)).
Proof.
  intros ext get_views_strict self v other_type node subst st s st1 views h2
    Hsubst Hviews st2 one_view result.
  assert (Hresult : result
            = bad_views ext self v other_type s node views [] st2).
  { unfold result, bad_matches. simpl. by rewrite Hsubst, Hviews. }
  rewrite Hresult. split; [|split].
  - intros bad st'. by rewrite bad_views_spec.
  - intros bad st' (rs & _ & ->)%bad_views_spec. apply failed_sublist.
  - intros pre view post rs st3 e st4 -> Hrun Hview.
    by eapply bad_views_raise.
Qed.

(** An instance of [int] in a variable matched against [str]. *)
Lemma bad_matches_views_witness :
  ∃ st',
    bad_matches ext0 (get_views ext0) (AbstractMatcher ext0 8) 1 str tt None
      st0
    = (Ret [{[1 := an_int]}], st').
Proof.
  eexists.
  eapply (proj1 (bad_matches_views ext0 (get_views ext0)
                   (AbstractMatcher ext0 8) 1 str tt None st0
                   _ _ _ _ eq_refl eq_refl)).
  exists [None]. split; [|reflexivity].
  eapply all_return_cons; [|apply all_return_nil].
  vm_compute. reflexivity.
Defined.

(** Matching a variable without bindings adds no binding to a variable
    without bindings. *)
Lemma match_nothing_keeps_empty opts subst st v :
  bindings_of (heap st) !!! v = [] →
  bindings_of (heap (match_nothing opts subst st).2) !!! v = [].
Proof.
  revert subst st. induction opts as [|o opts IH]; intros subst st Hv.
  { done. }
  cbn [match_nothing]. destruct (is_TypeParameter o); [|by apply IH].
  simpl. destruct (name o) as [n|]; [|done]. simpl.
  destruct subst as [r|]; [|done]. simpl.
  destruct (negb _); [|by apply IH].
  apply IH. simpl. destruct (decide (v = next_var (heap st))) as [->|Hne].
  - apply lookup_total_insert_eq.
  - by rewrite lookup_total_insert_ne.
Qed.

Lemma match_var_against_type_empty ext d v other_type r node view st :
  bindings_of (heap st) !!! v = [] →
  ∃ r' st',
    match_var_against_type ext (AbstractMatcher ext (S d))
      v other_type (Some r) node view st = (Ret (Some r'), st')
    ∧ bindings_of (heap st') !!! v = [].
Proof.
  intros Hv.
  destruct (match_nothing_spec (right_side_options other_type) r st)
    as (r' & st' & Hrun & _).
  exists r', st'.
  assert (E : match_var_against_type ext (AbstractMatcher ext (S d))
                v other_type (Some r) node view st
              = match_nothing (right_side_options other_type) (Some r) st).
  { rewrite match_var_against_type_S. unfold match_var_against_type_def.
    simpl. rewrite Hv. by destruct other_type. }
  rewrite E. split; [done|].
  pose proof (match_nothing_keeps_empty (right_side_options other_type)
                (Some r) st v Hv) as H.
  by rewrite Hrun in H.
Qed.

Lemma subst_or_new_Some subst st :
  ∃ r, (subst_or_new subst st).1 = Ret (Some r)
       ∧ heap (subst_or_new subst st).2 = heap st.
Proof.
  destruct subst as [r|]; simpl.
  - destruct (bool_decide _); simpl; eauto.
  - eauto.
Qed.

Lemma bad_views_empty ext d v other_type r node views bad st :
  bindings_of (heap st) !!! v = [] →
  ∃ st',
    bad_views ext (AbstractMatcher ext (S d)) v other_type (Some r) node
      views bad st
    = (Ret bad, st').
Proof.
  revert bad st. induction views as [|view views IH]; intros bad st Hv.
  { by exists st. }
  destruct (match_var_against_type_empty ext d v other_type r node view st Hv)
    as (r' & st1 & Hrun & Hv1).
  destruct (IH bad st1 Hv1) as [st' Hrest]. exists st'.
  cbn [bad_views]. by rewrite bind_unfold, Hrun.
Qed.

(** X12: a variable without bindings has no bad view: whatever the formal
    type and the views are, [bad_matches] returns the empty list, when
    computing the views gives the variable no binding. *)
Theorem bad_matches_empty_variable :
  ∀ (ext : External)
    (get_views_strict : list var → CFGNode ext → Heap → list View * Heap)
    (d : nat) (v : var) (other_type : Value) (node : CFGNode ext)
    (subst : PySubst) (st : State),
    bindings_of (heap st) !!! v = [] →
    (∀ h, bindings_of h !!! v = [] →
          bindings_of (get_views_strict [v] node h).2 !!! v = []) →
    ∃ st',
      bad_matches ext get_views_strict (AbstractMatcher ext (S d))
        v other_type node subst st
      = (Ret [], st').
Proof.
  intros ext get_views_strict d v other_type node subst st Hv Hviews.
  destruct (subst_or_new_Some subst st) as (r & Hr & Hheap).
  unfold bad_matches. simpl.
  destruct (subst_or_new subst st) as [o st1]. simpl in Hr, Hheap.
  subst o. specialize (Hviews (heap st1)). rewrite Hheap in Hviews.
  rewrite Hheap.
  destruct (get_views_strict [v] node (heap st)) as [views h2].
  simpl in Hviews. apply bad_views_empty. simpl. by apply Hviews.
Qed.

(** The variable 5 holds nothing. *)
Lemma bad_matches_empty_variable_witness :
  ∃ st',
    bad_matches ext0 (get_views ext0) (AbstractMatcher ext0 1) 5
      (aUnion [str; aTypeParameter "T"]) tt None st0
    = (Ret [], st').
Proof.
  apply (bad_matches_empty_variable ext0 (get_views ext0) 0 5
           (aUnion [str; aTypeParameter "T"]) tt None st0).
  - reflexivity.
  - intros h Hh. exact Hh.
Defined.

(** ** What a match returns *)

Lemma given_or_new_refl b s : given_or_new b s s.
Proof. by left. Qed.

Lemma given_or_new_None b s : given_or_new b s None.
Proof. by right. Qed.

Lemma given_or_new_new b s r : (b ≤ r)%nat → given_or_new b s (Some r).
Proof. intros H. right. by intros ? [= <-]. Qed.

Lemma given_or_new_trans b s s1 s2 :
  given_or_new b s s1 → given_or_new b s1 s2 → given_or_new b s s2.
Proof. intros [->|H1] [->|H2]; [by left|by right..]. Qed.

Create HintDb gon.
#[local] Hint Resolve given_or_new_refl given_or_new_None given_or_new_new
  given_or_new_trans : gon.

Lemma returns_first_match {A} b s (f : A → M PySubst) l :
  (∀ x, keeps b (f x) (given_or_new b s)) →
  keeps b (first_match f l) (given_or_new b s).
Proof.
  intros Hf. induction l as [|x l IH]; simpl.
  { apply keeps_ret. auto with gon. }
  eapply keeps_bind; [apply Hf|].
  intros [r|] Hr; [by apply keeps_ret|exact IH].
Qed.

Lemma returns_thread {A} b s (f : A → PySubst → M PySubst) l s0 :
  (∀ x s', keeps b (f x s') (given_or_new b s')) →
  given_or_new b s s0 →
  keeps b (thread f l s0) (given_or_new b s).
Proof.
  intros Hf. revert s0.
  induction l as [|x l IH]; intros s0 H0; simpl; [by apply keeps_ret|].
  eapply keeps_bind; [apply Hf|].
  intros [r|] Hr.
  - apply IH. eauto with gon.
  - apply keeps_ret. auto with gon.
Qed.

Lemma returns_match_nothing b s opts s0 :
  given_or_new b s s0 →
  keeps b (match_nothing opts s0) (given_or_new b s).
Proof.
  revert s0. induction opts as [|o opts IH]; intros s0 H0; cbn [match_nothing].
  { by apply keeps_ret. }
  case_if; [|by apply IH].
  eapply keeps_bind; [apply keeps_get_or|]. intros n _.
  eapply keeps_bind; [apply keeps_dict_contains|]. intros bound _.
  case_if; [|by apply IH].
  eapply keeps_bind; [apply keeps_dict_copy|]. intros s1 (r & -> & Hr).
  eapply keeps_bind; [apply keeps_NewVariable|]. intros x _.
  eapply keeps_bind; [by apply keeps_dict_setitem|]. intros _ _.
  apply IH. auto with gon.
Qed.

Lemma Returns_Keeps ext (self : Methods ext) : Returns self → Keeps self.
Proof.
  intros R. split; intros; eapply keeps_weaken; try done.
  - apply (returns_match_var_against_type _ R).
  - apply (returns__match_value_against_type _ R).
  - apply (returns__match_type_against_type _ R).
  - apply (returns__instantiate_and_match _ R).
  - apply (returns__match_instance_against_type _ R).
  - apply (returns__match_instance _ R).
  - apply (returns__match_maybe_parameterized_instance _ R).
  - apply (returns__match_heterogeneous_tuple_instance _ R).
  - apply (returns__match_class_and_instance_against_type _ R).
Qed.

(** The rules, applied along the structure of a method body. *)
Ltac returns_leaf R :=
  first
    [ apply (returns_match_var_against_type _ R)
    | apply (returns__match_value_against_type _ R)
    | apply (returns__match_type_against_type _ R)
    | apply (returns__instantiate_and_match _ R)
    | apply (returns__match_instance_against_type _ R)
    | apply (returns__match_instance _ R)
    | apply (returns__match_maybe_parameterized_instance _ R)
    | apply (returns__match_heterogeneous_tuple_instance _ R)
    | apply (returns__match_class_and_instance_against_type _ R) ].

Ltac returns_auto R K :=
  first
    [ apply keeps_ret; solve [eauto with gon]
    | apply keeps_raise
    | eapply keeps_weaken; [returns_leaf R|]; solve [eauto with gon]
    | apply returns_match_nothing; solve [eauto with gon]
    | apply returns_first_match; intros ?; returns_auto R K
    | apply returns_thread;
      [intros ? ?; returns_auto R K|solve [eauto with gon]]
    | match goal with
      | |- keeps _ (if ?c then _ else _) _ =>
          destruct c eqn:?; returns_auto R K
      | |- keeps _ (match ?x with _ => _ end) _ =>
          destruct x; returns_auto R K
      | |- keeps _ (bind _ _) _ =>
          eapply keeps_bind;
          [first [returns_leaf R | solve [keeps_auto K]]
          |let a := fresh "a" in
           let Ha := fresh "Ha" in
           intros a Ha;
           try (destruct Ha as (? & -> & ?));
           returns_auto R K]
      end
    | idtac ].

Section ReturnsMethods.
Context (ext : External) (self : Methods ext) (R : Returns self).


Lemma self_keeps : Keeps self.
Proof. exact (Returns_Keeps ext self R). Qed.

Lemma returns_match_template b s left instance other_type node names s0 view :
  given_or_new b s s0 →
  keeps b (match_template ext self left instance other_type node names s0 view)
    (given_or_new b s).
Proof.
  revert s0 view.
  induction names as [|x names IH]; intros s0 view H0;
    [by apply keeps_ret|].
  cbn [match_template]. returns_auto R self_keeps. apply IH. eauto with gon.
Qed.

Lemma returns_match_slots b s class_params node view i instance_params s0 :
  given_or_new b s s0 →
  keeps b (match_slots ext self class_params node view i instance_params s0)
    (given_or_new b s).
Proof.
  revert i s0.
  induction instance_params as [|x l IH]; intros i s0 H0;
    [by apply keeps_ret|].
  cbn [match_slots]. returns_auto R self_keeps. apply IH. eauto with gon.
Qed.

Lemma Returns_step :
  Returns
    {| match_var_against_type := match_var_against_type_def ext self;
       _match_value_against_type := _match_value_against_type_def ext self;
       _match_type_against_type := _match_type_against_type_def ext self;
       _instantiate_and_match := _instantiate_and_match_def ext self;
       _match_instance_against_type :=
         _match_instance_against_type_def ext self;
       _match_instance := _match_instance_def ext self;
       _match_maybe_parameterized_instance :=
         _match_maybe_parameterized_instance_def ext self;
       _match_heterogeneous_tuple_instance :=
         _match_heterogeneous_tuple_instance_def ext self;
       _match_class_and_instance_against_type :=
         _match_class_and_instance_against_type_def ext self |}.
Proof.
  split; intros; cbn [match_var_against_type _match_value_against_type
    _match_type_against_type _instantiate_and_match
    _match_instance_against_type _match_instance
    _match_maybe_parameterized_instance _match_heterogeneous_tuple_instance
    _match_class_and_instance_against_type].
  - unfold match_var_against_type_def. returns_auto R self_keeps.
  - unfold _match_value_against_type_def.
    eapply keeps_bind; [apply keeps_assert|]. intros _ _.
    case_if; [returns_auto R self_keeps|]. case_if; [returns_auto R self_keeps|].
    case_if; [|returns_auto R self_keeps].
    eapply keeps_bind; [apply keeps_get_or|]. intros other_name _.
    eapply keeps_bind; [apply keeps_dict_contains|]. intros bound _.
    eapply (keeps_bind _ _ _
              (fun new : PySubst * var => ∃ r, new.1 = Some r ∧ (b ≤ r)%nat)).
    { case_if;
        (eapply keeps_bind; [apply keeps_dict_copy|];
         intros ? (r & -> & Hr); keeps_auto K; apply keeps_ret; eauto). }
    intros [o new_var] (r & Hr & Hle). simpl in Hr. subst o.
    returns_auto R self_keeps.
  - unfold _match_type_against_type_def. returns_auto R self_keeps.
  - unfold _instantiate_and_match_def. returns_auto R self_keeps.
  - unfold _match_instance_against_type_def. returns_auto R self_keeps.
  - unfold _match_instance_def.
    eapply (keeps_bind _ _ _ (given_or_new b s)); [returns_auto R self_keeps|].
    intros s1 H1. returns_auto R self_keeps.
  - unfold _match_maybe_parameterized_instance_def. returns_auto R self_keeps.
    all: apply returns_match_template; eauto with gon.
  - unfold _match_heterogeneous_tuple_instance_def. returns_auto R self_keeps.
    all: apply returns_match_slots; eauto with gon.
  - unfold _match_class_and_instance_against_type_def. returns_auto R self_keeps.
Qed.

End ReturnsMethods.

Lemma Returns_exhausted ext : Returns (exhausted ext).
Proof. split; intros; apply keeps_raise. Qed.

Lemma Returns_AbstractMatcher ext d : Returns (AbstractMatcher ext d).
Proof.
  induction d as [|d IH]; [apply Returns_exhausted|].
  exact (Returns_step ext _ IH).
Qed.

(** X13: a match that succeeds returns the substitution it was given, not
    modified, or a dictionary made during the call: never another
    dictionary that existed before.  This holds for the match of a value,
    of a variable and of a type, at every depth of nested calls. *)
Theorem match_returns_given_or_new :
  ∀ (ext : External) (d : nat) (other_type : Value) (subst : PySubst)
    (node : CFGNode ext) (view : View) (st : State) (r : nat) (st' : State),
    (∀ value,
        _match_value_against_type ext (AbstractMatcher ext d)
          value other_type subst node view st = (Ret (Some r), st') →
        Some r = subst ∨ (next_dict st ≤ r)%nat)
    ∧ (∀ v,
        match_var_against_type ext (AbstractMatcher ext d)
          v other_type subst node view st = (Ret (Some r), st') →
        Some r = subst ∨ (next_dict st ≤ r)%nat)
    ∧ (∀ left,
        _match_type_against_type ext (AbstractMatcher ext d)
          left other_type subst node view st = (Ret (Some r), st') →
        Some r = subst ∨ (next_dict st ≤ r)%nat).
Proof.
  intros ext d other_type subst node view st r st'.
  pose proof (Returns_AbstractMatcher ext d) as R.
  assert (Hgon : ∀ m : M PySubst,
            keeps (next_dict st) m (given_or_new (next_dict st) subst) →
            m st = (Ret (Some r), st') →
            Some r = subst ∨ (next_dict st ≤ r)%nat).
  { intros m Hm Hrun. destruct (Hm st) as [_ HQ]; [done|].
    destruct (HQ (Some r)) as [E|Hnew]; [by rewrite Hrun|by left|].
    right. by apply Hnew. }
  split; [|split]; intros x; apply Hgon.
  - apply (returns__match_value_against_type _ R).
  - apply (returns_match_var_against_type _ R).
  - apply (returns__match_type_against_type _ R).
Qed.

(** An instance of [int] matched against the parameter [K], which is bound
    in the dictionary 0: the dictionary 1 is returned. *)
Lemma match_returns_given_or_new_witness :
  Some 1 = Some 0 ∨ (next_dict st0 ≤ 1)%nat.
Proof.
  eapply (proj1 (match_returns_given_or_new ext0 2 (aTypeParameter "K")
                   (Some 0) tt view0 st0 1 _) an_int).
  vm_compute. reflexivity.
Defined.

Lemma keeps_subst_or_new b subst :
  keeps b (subst_or_new subst) (fun _ => True).
Proof.
  intros st Hb. destruct subst as [r|]; simpl.
  - destruct (bool_decide _).
    + destruct (keeps_dict_new b st Hb) as [H _]. by split.
    + split; [apply kept_below_refl|done].
  - destruct (keeps_dict_new b st Hb) as [H _]. by split.
Qed.

Lemma keeps_bad_views ext (self : Methods ext) b v other_type subst node views
    bad :
  Keeps self →
  keeps b (bad_views ext self v other_type subst node views bad)
    (fun _ => True).
Proof.
  intros K. revert bad. induction views as [|view views IH]; intros bad.
  { by apply keeps_ret. }
  cbn [bad_views]. eapply keeps_bind.
  - apply (keeps_match_var_against_type _ K).
  - intros r _. apply IH.
Qed.

(** X14: [bad_matches] modifies no dictionary that exists when it is
    called: the given substitution, also one without entries (in whose place
    a new dictionary is used), has the entries it had, whatever the call
    returns or raises. *)
Theorem bad_matches_keeps_substitutions :
  ∀ (ext : External)
    (get_views_strict : list var → CFGNode ext → Heap → list View * Heap)
    (d : nat) (v : var) (other_type : Value) (node : CFGNode ext)
    (subst : PySubst) (st : State) (a : nat),
    (a < next_dict st)%nat →
    dicts (bad_matches ext get_views_strict (AbstractMatcher ext d)
             v other_type node subst st).2 !! a
    = dicts st !! a.
Proof.
  intros ext get_views_strict d v other_type node subst st a Ha.
  assert (Hk : keeps (next_dict st)
                 (bad_matches ext get_views_strict (AbstractMatcher ext d)
                    v other_type node subst) (fun _ => True)).
  { unfold bad_matches.
    eapply keeps_bind; [apply keeps_subst_or_new|]. intros s _.
    eapply keeps_bind; [apply keeps_on_heap|]. intros views _.
    apply keeps_bad_views, Keeps_AbstractMatcher. }
  destruct (Hk st) as [[_ H] _]; [done|]. by apply H.
Qed.

Lemma bad_matches_keeps_substitutions_witness :
  dicts (bad_matches ext0 (get_views ext0) (AbstractMatcher ext0 3) 1
           (aTypeParameter "K") tt (Some 0) st0).2 !! 0
  = dicts st0 !! 0.
Proof.
  apply (bad_matches_keeps_substitutions ext0 (get_views ext0) 3 1
           (aTypeParameter "K") tt (Some 0) st0 0).
  simpl. lia.
Defined.

(** ** Instances and classes without parameters *)

Lemma mro_walk_plain other_type bases :
  plain other_type = true →
  Forall (fun base => plain base = true ∨ is_AMBIGUOUS_OR_EMPTY base = true)
    bases →
  mro_walk other_type bases
  = Ret (find (fun base => plain base && is_ other_type base) bases).
Proof.
  intros Ho Hbases. induction Hbases as [|base bases Hbase _ IH]; [done|].
  destruct other_type; try discriminate Ho.
  cbn [mro_walk find]. destruct Hbase as [Hb|Hb].
  - destruct base; try discriminate Hb. simpl.
    rewrite orb_false_r. destruct (is_ _ _); [done|]. exact IH.
  - destruct base; try discriminate Hb; exact IH.
Qed.

Lemma find_plain other_type bases base :
  find (fun base => plain base && is_ other_type base) bases = Some base →
  plain base = true.
Proof. intros [_ [H _]%andb_prop]%find_some. exact H. Qed.

Lemma find_existsb {A} (f : A → bool) l :
  existsb f l = bool_decide (is_Some (find f l)).
Proof.
  induction l as [|x l IH]; simpl; [done|].
  destruct (f x); simpl; [done|exact IH].
Qed.

Lemma class_and_instance_plain ext d left instance other_type subst node view
    st :
  plain left = true → plain other_type = true → is_Tuple instance = false →
  simple_bases left →
  _match_class_and_instance_against_type_def ext
    (AbstractMatcher ext (S (S d)))
    left instance other_type subst node view st
  = (Ret (if accepts ext other_type left then subst else None), st).
Proof.
  intros Hl Ho Hi Hbases.
  unfold _match_class_and_instance_against_type_def, accepts, inherits.
  destruct other_type as [| | | | | |oid oname omro ocls| | | | | | | | | | |];
    try discriminate Ho.
  destruct left as [| | | | | |lid lname lmro lcls| | | | | | | | | | |];
    try discriminate Hl.
  cbn [full_name mro]. simpl.
  destruct (String.eqb oname "__builtin__.object"); [done|]. simpl.
  destruct (bool_decide (compatible_builtins ext !! lname = Some oname));
    [done|]. simpl.
  unfold _match_from_mro. cbn [mro].
  rewrite mro_walk_plain by (done || by apply Hbases).
  rewrite find_existsb.
  destruct (find _ lmro) as [base|] eqn:Hfind; [|done].
  apply find_plain in Hfind. destruct base; try discriminate Hfind.
  unfold _match_instance_def. simpl. rewrite Hi. reflexivity.
Qed.

(** X15: for a formal class without parameters, matching is by name and
    inheritance only.  An instance (not a tuple) whose classes are classes
    without parameters matches when one of its classes is accepted: the
    formal class is [__builtin__.object], or the pair of names is in the map
    of compatible builtins, or the formal class is among the bases in the
    MRO of the class.  The match then returns the given substitution; it
    returns [None] otherwise, also when the instance has no class.  The
    store is not changed. *)
Theorem instance_matches_plain_class :
  ∀ (ext : External) (d : nat) (value : Binding) (c : var)
    (ps : list (string * var)) (other_type : Value) (subst : PySubst)
    (node : CFGNode ext) (view : View) (st : State),
    data value = aSimpleAbstractValue (Some c) ps →
    formal ext (data value) = false →
    plain other_type = true →
    Forall (fun b => plain (data b) = true ∧ simple_bases (data b))
      (bindings_of (heap st) !!! c) →
    _match_value_against_type ext (AbstractMatcher ext (6 + d))
      value other_type subst node view st
    = (Ret (if existsb (accepts ext other_type)
                 (data <$> bindings_of (heap st) !!! c)
            then subst else None), st).
Proof.
  intros ext d value c ps other_type subst node view st Hdata Hformal Ho
    Hclasses.
  change (6 + d) with (S (S (S (3 + d)))).
  rewrite _match_value_against_type_S. unfold _match_value_against_type_def.
  rewrite Hformal, Hdata.
  destruct other_type as [| | | | | |oid oname omro ocls| | | | | | | | | | |];
    try discriminate Ho.
  simpl. unfold _match_type_against_type_def. simpl.
  unfold _match_instance_against_type_def. simpl.
  induction Hclasses as [|b bs [Hb Hbases] _ IH]; [done|].
  simpl.
  rewrite (class_and_instance_plain ext d (data b)
             (aSimpleAbstractValue (Some c) ps) (aClass oid oname omro ocls)
             subst node view st) by done.
  destruct (accepts ext (aClass oid oname omro ocls) (data b)); simpl.
  - destruct subst; [done|]. etrans; [apply IH|]. by destruct (existsb _ _).
  - exact IH.
Qed.

(** An instance of [int] against [float], a compatible builtin, and
    against [str]. *)
Lemma instance_matches_plain_class_witness :
  _match_value_against_type ext0 (AbstractMatcher ext0 6)
    an_int float (Some 0) tt view0 st0 = (Ret (Some 0), st0)
  ∧ _match_value_against_type ext0 (AbstractMatcher ext0 6)
      an_int str (Some 0) tt view0 st0 = (Ret None, st0).
Proof.
  assert (Hclasses : Forall (fun b => plain (data b) = true
                                      ∧ simple_bases (data b))
                       (bindings_of (heap st0) !!! 0)).
  { repeat constructor. intros bases [= <-]. repeat constructor. }
  split.
  - apply (instance_matches_plain_class ext0 0 an_int 0 [] float (Some 0) tt
             view0 st0 eq_refl eq_refl eq_refl Hclasses).
  - apply (instance_matches_plain_class ext0 0 an_int 0 [] str (Some 0) tt
             view0 st0 eq_refl eq_refl eq_refl Hclasses).
Defined.

(** ** Unknown and empty values *)

(** X16: an unknown or unsolvable formal type accepts every value, and an
    unknown, unsolvable or empty value is accepted by every class without
    parameters and by the bottom type [Nothing]: the match returns the
    given substitution and leaves the store as it is. *)
Theorem ambiguous_matches :
  ∀ (ext : External) (d : nat) (value : Binding) (other_type : Value)
    (subst : PySubst) (node : CFGNode ext) (view : View) (st : State),
    formal ext (data value) = false →
    is_Unknown_or_Unsolvable other_type = true
    ∨ (is_AMBIGUOUS_OR_EMPTY (data value) = true
       ∧ (plain other_type = true ∨ other_type = aNothing)) →
    _match_value_against_type ext (AbstractMatcher ext (4 + d))
      value other_type subst node view st
    = (Ret subst, st).
Proof.
  intros ext d value other_type subst node view st Hformal Hcase.
  change (4 + d) with (S (S (S (S d)))).
  rewrite _match_value_against_type_S. unfold _match_value_against_type_def.
  rewrite Hformal. simpl.
  destruct Hcase as [Ho|[Hl [Ho| ->]]].
  - by destruct other_type.
  - destruct other_type; try discriminate Ho. simpl.
    unfold _match_type_against_type_def.
    destruct (data value); try discriminate Hl; simpl;
      unfold _match_instance_def; simpl; reflexivity.
  - simpl. destruct (data value); try discriminate Hl; simpl; try reflexivity.
Qed.

Lemma ambiguous_matches_witness :
  _match_value_against_type ext0 (AbstractMatcher ext0 4)
    (mkBinding 7 7 aUnknown []) str (Some 0) tt view0 st0
  = (Ret (Some 0), st0).
Proof.
  apply (ambiguous_matches ext0 0 (mkBinding 7 7 aUnknown []) str (Some 0) tt
           view0 st0 eq_refl).
  right. split; [reflexivity|]. by left.
Defined.

(** ** Modules, functions and methods; formal types that are no types *)

(** X17: a module, a function, a bound function, a class method or a static
    method matches a formal class by the name of the class alone: a module
    matches [__builtin__.module], [__builtin__.object] and
    [types.ModuleType]; a function [__builtin__.object] and
    [typing.Callable]; a class method [__builtin__.classmethod] and
    [__builtin__.object]; a static method [__builtin__.staticmethod] and
    [__builtin__.object].  The match returns the given substitution for
    these and [None] for every other class; the store is not changed. *)
Theorem module_and_callable_matches :
  ∀ (ext : External) (d : nat) (value : Binding) (other_type : Value)
    (other_name : string) (subst : PySubst) (node : CFGNode ext) (view : View)
    (st : State),
    formal ext (data value) = false →
    is_module_or_callable (data value) = true →
    is_Class other_type = true →
    full_name other_type = Some other_name →
    _match_value_against_type ext (AbstractMatcher ext (2 + d))
      value other_type subst node view st
    = (Ret (if in_list other_name (accepted_names (data value))
            then subst else None), st).
Proof.
  intros ext d value other_type other_name subst node view st Hformal Hkind
    Hclass Hname.
  change (2 + d) with (S (S d)).
  rewrite _match_value_against_type_S. unfold _match_value_against_type_def.
  rewrite Hformal, Hclass. simpl. unfold _match_type_against_type_def.
  destruct (data value); try discriminate Hkind; simpl; rewrite Hname; simpl;
    by destruct (in_list _ _).
Qed.

Lemma module_and_callable_matches_witness :
  _match_value_against_type ext0 (AbstractMatcher ext0 2)
    (mkBinding 7 7 aFunction []) object (Some 0) tt view0 st0
  = (Ret (Some 0), st0)
  ∧ _match_value_against_type ext0 (AbstractMatcher ext0 2)
      (mkBinding 7 7 aFunction []) str (Some 0) tt view0 st0
    = (Ret None, st0).
Proof.
  split.
  - apply (module_and_callable_matches ext0 0 (mkBinding 7 7 aFunction [])
             object "__builtin__.object" (Some 0) tt view0 st0);
      reflexivity.
  - apply (module_and_callable_matches ext0 0 (mkBinding 7 7 aFunction [])
             str "__builtin__.str" (Some 0) tt view0 st0);
      reflexivity.
Defined.

(** X18: a formal type that is neither a class, a union, a type parameter,
    unknown, unsolvable nor [Nothing] is no type to match against: for a
    value that is not unknown itself the match raises nothing; it logs one
    error and returns [None], and changes nothing else. *)
Theorem invalid_formal_type :
  ∀ (ext : External) (d : nat) (value : Binding) (other_type : Value)
    (subst : PySubst) (node : CFGNode ext) (view : View) (st : State),
    formal ext (data value) = false →
    is_Class other_type = false → is_Union other_type = false →
    is_TypeParameter other_type = false →
    is_Unknown_or_Unsolvable other_type = false →
    is_Nothing other_type = false →
    is_Unknown_or_Unsolvable (data value) = false →
    _match_value_against_type ext (AbstractMatcher ext (S d))
      value other_type subst node view st
    = (Ret None,
       mkState (heap st) (dicts st) (next_dict st) (log st ++ ["Invalid type"])).
Proof.
  intros ext d value other_type subst node view st Hformal H1 H2 H3 H4 H5 H6.
  rewrite _match_value_against_type_S. unfold _match_value_against_type_def.
  rewrite Hformal, H1, H2, H3, H4, H5, H6. reflexivity.
Qed.

Lemma invalid_formal_type_witness :
  _match_value_against_type ext0 (AbstractMatcher ext0 1)
    an_int aModule (Some 0) tt view0 st0
  = (Ret None, mkState h0 {[0 := {["K" := 3]}]} 1 ["Invalid type"]).
Proof.
  apply (invalid_formal_type ext0 0 an_int aModule (Some 0) tt view0 st0);
    reflexivity.
Defined.

(** ** A union on the left *)

(** X19: a type that is a union is matched option by option, in order,
    against the formal type: the substitution of the first option that
    matches is returned, in the store that match left, and no later option
    is tried; when every option fails the match returns [None].  A
    substitution that is returned is the one of an option before which
    every option failed. *)
Theorem left_union_first_option_wins :
  ∀ (ext : External) (d : nat) (opts : list Value) (other_type : Value)
    (subst : PySubst) (node : CFGNode ext) (view : View) (st : State),
    let self := AbstractMatcher ext d in
    let option_ o := _match_type_against_type ext self o other_type subst node view in
    let union :=
      _match_type_against_type ext (AbstractMatcher ext (S d))
        (aUnion opts) other_type subst node view st in
    (∀ pre o post r st1 st2,
        opts = pre ++ o :: post →
        all_fail option_ pre st st1 →
        option_ o st1 = (Ret (Some r), st2) →
        union = (Ret (Some r), st2))
    ∧ (∀ st', all_fail option_ opts st st' → union = (Ret None, st'))
    ∧ (∀ r st2,
        union = (Ret (Some r), st2) →
        ∃ pre o post st1,
          opts = pre ++ o :: post ∧ all_fail option_ pre st st1
          ∧ option_ o st1 = (Ret (Some r), st2)).
Proof.
  intros ext d opts other_type subst node view st self option_ union.
  assert (Hunion : union = first_match option_ opts st).
  { unfold union. rewrite _match_type_against_type_S. reflexivity. }
  rewrite Hunion. split; [|split].
  - intros pre o post r st1 st2 -> Hpre Ho.
    rewrite (first_match_app _ _ _ _ _ Hpre). by apply first_match_hit.
  - intros st'. apply first_match_all_fail.
  - intros r st2. apply first_match_Some_inv.
Qed.

(** The union of a function and a module against [types.ModuleType]. *)
Lemma left_union_first_option_wins_witness :
  _match_type_against_type ext0 (AbstractMatcher ext0 2)
    (aUnion [aFunction; aModule]) (aClass 9 "types.ModuleType" [] None)
    (Some 0) tt view0 st0
  = (Ret (Some 0), st0).
Proof.
  apply (proj1 (left_union_first_option_wins ext0 1 [aFunction; aModule]
                  (aClass 9 "types.ModuleType" [] None) (Some 0) tt view0 st0)
           [aFunction] aModule [] 0 st0 st0).
  - reflexivity.
  - eapply all_fail_cons; [|apply all_fail_nil]. reflexivity.
  - reflexivity.
Defined.

(** ** Calls without arguments or without formal parameters *)

(** X20: [compute_subst] with an empty argument map returns an empty
    substitution and no name when there is no formal parameter, without
    allocating a dictionary, and fails its assertion when there is one.
    With arguments and no formal parameter it returns the snapshot of a new
    empty dictionary. *)
Theorem compute_subst_empty :
  ∀ (ext : External) (self : Methods ext) (node : CFGNode ext)
    (formal_args : list (string * Value)) (arg_dict : gmap string Binding)
    (view : View) (st : State),
    (arg_dict = ∅ → formal_args = [] →
     compute_subst ext self node formal_args arg_dict view st
     = (Ret (Some ∅, None), st))
    ∧ (arg_dict = ∅ → formal_args ≠ [] →
       compute_subst ext self node formal_args arg_dict view st
       = (Raise AssertionError, st))
    ∧ (arg_dict ≠ ∅ → formal_args = [] →
       compute_subst ext self node formal_args arg_dict view st
       = (Ret (Some ∅, None),
          mkState (heap st) (<[next_dict st := ∅]> (dicts st))
                  (S (next_dict st)) (log st))).
Proof.
  intros ext self node formal_args arg_dict view st. unfold compute_subst.
  split; [|split].
  - intros -> ->. reflexivity.
  - intros -> Hne. rewrite map_size_empty. simpl.
    by rewrite bool_decide_eq_false_2.
  - intros Hne ->.
    destruct (size arg_dict) eqn:Hsize.
    { by apply map_size_empty_inv in Hsize. }
    simpl. by rewrite lookup_total_insert_eq.
Qed.

Lemma compute_subst_empty_witness :
  compute_subst ext0 (AbstractMatcher ext0 3) tt [("x", int)] ∅ view0 st0
  = (Raise AssertionError, st0)
  ∧ compute_subst ext0 (AbstractMatcher ext0 3) tt [] {["x" := an_int]}
      view0 st0
    = (Ret (Some ∅, None), mkState h0 {[1 := ∅; 0 := {["K" := 3]}]} 2 []).
Proof.
  split.
  - apply (proj1 (proj2 (compute_subst_empty ext0 (AbstractMatcher ext0 3) tt
                           [("x", int)] ∅ view0 st0))); done.
  - apply (proj2 (proj2 (compute_subst_empty ext0 (AbstractMatcher ext0 3) tt
                           [] {["x" := an_int]} view0 st0))); [|done].
    apply insert_non_empty.
Defined.

(** ** A failed match given as the substitution *)

Lemma keeps_dict_contains_None b n :
  keeps b (dict_contains n None) (fun _ => False).
Proof. apply keeps_raise. Qed.

Lemma absorbs_first_match {A} b (f : A → M PySubst) l :
  (∀ x, keeps b (f x) (fun s => s = None)) →
  keeps b (first_match f l) (fun s => s = None).
Proof.
  intros Hf. induction l as [|x l IH]; simpl; [by apply keeps_ret|].
  eapply keeps_bind; [apply Hf|]. intros s ->. exact IH.
Qed.

Lemma absorbs_thread {A} b (f : A → PySubst → M PySubst) l :
  (∀ x, keeps b (f x None) (fun s => s = None)) →
  keeps b (thread f l None) (fun s => s = None).
Proof.
  intros Hf. destruct l as [|x l]; simpl; [by apply keeps_ret|].
  eapply keeps_bind; [apply Hf|]. intros s ->. by apply keeps_ret.
Qed.

Lemma absorbs_match_nothing b opts :
  keeps b (match_nothing opts None) (fun s => s = None).
Proof.
  induction opts as [|o opts IH]; cbn [match_nothing]; [by apply keeps_ret|].
  case_if; [|exact IH].
  eapply keeps_bind; [apply keeps_get_or|]. intros n _.
  eapply keeps_bind; [apply keeps_dict_contains_None|]. by intros ? [].
Qed.

Ltac absorbs_leaf A :=
  first
    [ apply (absorbs_match_var_against_type _ A)
    | apply (absorbs__match_value_against_type _ A)
    | apply (absorbs__match_type_against_type _ A)
    | apply (absorbs__instantiate_and_match _ A)
    | apply (absorbs__match_instance_against_type _ A)
    | apply (absorbs__match_instance _ A)
    | apply (absorbs__match_maybe_parameterized_instance _ A)
    | apply (absorbs__match_heterogeneous_tuple_instance _ A)
    | apply (absorbs__match_class_and_instance_against_type _ A)
    | apply keeps_dict_contains_None ].

Ltac absorbs_auto A K :=
  first
    [ apply keeps_ret; reflexivity
    | apply keeps_raise
    | absorbs_leaf A
    | apply absorbs_match_nothing
    | apply absorbs_first_match; intros ?; absorbs_auto A K
    | apply absorbs_thread; intros ?; absorbs_auto A K
    | match goal with
      | |- keeps _ (if ?c then _ else _) _ =>
          destruct c eqn:?; absorbs_auto A K
      | |- keeps _ (match ?x with _ => _ end) _ =>
          destruct x; absorbs_auto A K
      | |- keeps _ (bind _ _) _ =>
          eapply keeps_bind;
          [first [absorbs_leaf A | solve [keeps_auto K]]
          |let a := fresh "a" in
           let Ha := fresh "Ha" in
           intros a Ha;
           try (by destruct Ha);
           try (hnf in Ha; subst a);
           absorbs_auto A K]
      end
    | idtac ].

Section AbsorbsMethods.
Context (ext : External) (self : Methods ext) (A : Absorbs self)
  (K : Keeps self).

Lemma absorbs_match_template b left instance other_type node names view :
  keeps b (match_template ext self left instance other_type node names None
             view) (fun s => s = None).
Proof.
  destruct names as [|x names]; [by apply keeps_ret|].
  cbn [match_template]. absorbs_auto A K.
Qed.

Lemma absorbs_match_slots b class_params node view i instance_params :
  keeps b (match_slots ext self class_params node view i instance_params None)
    (fun s => s = None).
Proof.
  destruct instance_params as [|x l]; [by apply keeps_ret|].
  cbn [match_slots]. absorbs_auto A K.
Qed.

Lemma Absorbs_step :
  Absorbs
    {| match_var_against_type := match_var_against_type_def ext self;
       _match_value_against_type := _match_value_against_type_def ext self;
       _match_type_against_type := _match_type_against_type_def ext self;
       _instantiate_and_match := _instantiate_and_match_def ext self;
       _match_instance_against_type :=
         _match_instance_against_type_def ext self;
       _match_instance := _match_instance_def ext self;
       _match_maybe_parameterized_instance :=
         _match_maybe_parameterized_instance_def ext self;
       _match_heterogeneous_tuple_instance :=
         _match_heterogeneous_tuple_instance_def ext self;
       _match_class_and_instance_against_type :=
         _match_class_and_instance_against_type_def ext self |}.
Proof.
  split; intros; cbn [match_var_against_type _match_value_against_type
    _match_type_against_type _instantiate_and_match
    _match_instance_against_type _match_instance
    _match_maybe_parameterized_instance _match_heterogeneous_tuple_instance
    _match_class_and_instance_against_type].
  - unfold match_var_against_type_def. absorbs_auto A K.
  - unfold _match_value_against_type_def. absorbs_auto A K.
  - unfold _match_type_against_type_def. absorbs_auto A K.
  - unfold _instantiate_and_match_def. absorbs_auto A K.
  - unfold _match_instance_against_type_def. absorbs_auto A K.
  - unfold _match_instance_def.
    eapply (keeps_bind _ _ _ (fun s => s = None)); [absorbs_auto A K|].
    intros s1 ->. absorbs_auto A K.
  - unfold _match_maybe_parameterized_instance_def. absorbs_auto A K.
    all: apply absorbs_match_template.
  - unfold _match_heterogeneous_tuple_instance_def. absorbs_auto A K.
    all: apply absorbs_match_slots.
  - unfold _match_class_and_instance_against_type_def. absorbs_auto A K.
Qed.

End AbsorbsMethods.

Lemma Absorbs_exhausted ext : Absorbs (exhausted ext).
Proof. split; intros; apply keeps_raise. Qed.

Lemma Absorbs_AbstractMatcher ext d : Absorbs (AbstractMatcher ext d).
Proof.
  induction d as [|d IH]; [apply Absorbs_exhausted|].
  apply Absorbs_step; solve [exact IH | apply Keeps_AbstractMatcher].
Qed.

(** X21: a match given [None] in place of a substitution never succeeds:
    it returns [None] or raises.  So when the tuple part of
    [_match_instance] fails, the match of the parameters that follows, which
    is given that [None], cannot turn the failure into a success:
    [_match_instance] returns [None] or raises. *)
Theorem failed_match_is_not_recovered :
  ∀ (ext : External) (d : nat) (other_type : Value) (node : CFGNode ext)
    (view : View) (st : State) (s : PySubst),
    (∀ value,
        (_match_value_against_type ext (AbstractMatcher ext d)
           value other_type None node view st).1 = Ret s → s = None)
    ∧ (∀ v,
        (match_var_against_type ext (AbstractMatcher ext d)
           v other_type None node view st).1 = Ret s → s = None)
    ∧ (∀ left instance subst st1,
        _match_heterogeneous_tuple_instance ext (AbstractMatcher ext d)
          left instance other_type subst node view st = (Ret None, st1) →
        is_TupleClass left || is_Tuple instance || is_TupleClass other_type
        = true →
        (_match_instance ext (AbstractMatcher ext (S d))
           left instance other_type subst node view st).1 = Ret s →
        s = None).
Proof.
  intros ext d other_type node view st s.
  pose proof (Absorbs_AbstractMatcher ext d) as A.
  split; [|split].
  - intros value.
    destruct (absorbs__match_value_against_type _ A 0 value other_type node
                view st) as [_ H]; [lia|]. apply H.
  - intros v.
    destruct (absorbs_match_var_against_type _ A 0 v other_type node view st)
      as [_ H]; [lia|]. apply H.
  - intros left instance subst st1 Htuple Hcond.
    change (_match_instance ext (AbstractMatcher ext (S d)))
      with (_match_instance_def ext (AbstractMatcher ext d)).
    unfold _match_instance_def. rewrite Hcond, bind_unfold, Htuple.
    destruct (absorbs__match_maybe_parameterized_instance _ A 0 left instance
                other_type node view st1) as [_ H]; [lia|]. apply H.
Qed.

(** An instance of [int] matched against [int] with [None] for the
    substitution: the class matches, and [None] is returned. *)
Lemma failed_match_is_not_recovered_witness :
  (_match_value_against_type ext0 (AbstractMatcher ext0 6) an_int int None tt
     view0 st0).1 = Ret None
  ∧ (None : PySubst) = None.
Proof.
  split; [by vm_compute|].
  apply (proj1 (failed_match_is_not_recovered ext0 6 int tt view0 st0 None)
           an_int).
  by vm_compute.
Defined.

(** ** A tuple of the wrong length against a tuple of type parameters *)

(** X22: when a literal tuple has not the number of elements of the formal
    tuple type, the tuple part of [_match_instance] fails, and the match of
    the parameters goes on with [None] as the substitution.  When the
    parameter of the formal tuple type is a type parameter and the variable
    of that parameter of the instance has no binding, the lookup of the name
    in [None] raises [TypeError]: the match raises where it should fail. *)
Theorem tuple_arity_mismatch_raises_TypeError :
  ∀ (ext : External) (d : nat) (left instance : Value) (elements : list var)
    (oid : nat) (oname : string) (omro : list Value) (ocls : option var)
    (base : Value) (ps : list (pkey * Value)) (tname : string)
    (rest : list string) (subst : PySubst) (node : CFGNode ext) (view : View)
    (st : State) (v : var) (h : Heap),
    let other_type := aTupleClass oid oname omro ocls base ps (tname :: rest) in
    is_Tuple instance = true →
    pyval instance = Some elements →
    Z.of_nat (length elements) ≠ (Z.of_nat (length ps) - 1)%Z →
    assoc (KStr tname) ps = Some (aTypeParameter tname) →
    is_ParameterizedClass left = false →
    is_ left base = true →
    get_type_parameter ext instance node tname (heap st) = (v, h) →
    bindings_of h !!! v = [] →
    _match_instance ext (AbstractMatcher ext (3 + d))
      left instance other_type subst node view st
    = (Raise TypeError, mkState h (dicts st) (next_dict st) (log st)).
Proof.
  intros ext d left instance elements oid oname omro ocls base ps tname rest
    subst node view st v h other_type Hi Hpyval Hlen Hparam Hleft Hbase
    Hget Hv.
  change (_match_instance ext (AbstractMatcher ext (3 + d)))
    with (_match_instance_def ext (AbstractMatcher ext (S (S d)))).
  unfold _match_instance_def. rewrite Hi, orb_true_r. simpl.
  unfold _match_heterogeneous_tuple_instance_def.
  rewrite Hi, Hpyval. simpl.
  rewrite (proj2 (Z.eqb_neq _ _) Hlen). simpl.
  unfold _match_maybe_parameterized_instance_def. simpl.
  rewrite Hleft. simpl. rewrite Hbase. simpl.
  rewrite Hparam. simpl. rewrite Hget. simpl. rewrite Hv. simpl.
  rewrite (bool_decide_eq_true_2 (Some tname = Some tname)) by done. simpl.
  rewrite Hv. simpl.
  unfold match_var_against_type_def. simpl. rewrite Hv. reflexivity.
Qed.

(** The empty tuple [()] against the one-slot tuple type [tuple[T]]. *)
Lemma tuple_arity_mismatch_raises_TypeError_witness :
  ∃ st',
    _match_instance ext0 (AbstractMatcher ext0 3) tuple_cls
      (aTuple (Some 4) [] [])
      (aTupleClass 7 "__builtin__.tuple" [tuple_cls; object] None tuple_cls
         [(KInt 0, aTypeParameter "T"); (KStr "T", aTypeParameter "T")] ["T"])
      (Some 0) tt view0 st0
    = (Raise TypeError, st').
Proof.
  eexists.
  apply (tuple_arity_mismatch_raises_TypeError ext0 0 tuple_cls
           (aTuple (Some 4) [] []) [] 7 "__builtin__.tuple"
           [tuple_cls; object] None tuple_cls
           [(KInt 0, aTypeParameter "T"); (KStr "T", aTypeParameter "T")]
           "T" [] (Some 0) tt view0 st0 6
           (mkHeap (<[6 := []]> (bindings_of h0)) 7 5));
    try reflexivity.
  simpl. lia.
Defined.

(** The same failure through the match of a value: the empty tuple, an
    instance of the class [tuple], against [tuple[T]]. *)
Example empty_tuple_against_one_slot_tuple :
  let tuple_ :=
    aClass 5 "__builtin__.tuple" [aClass 5 "__builtin__.tuple" [] None] None in
  let st := mkState (mkHeap {[0 := [mkBinding 0 0 tuple_ []]]} 1 1) ∅ 0 [] in
  (_match_value_against_type ext0 (AbstractMatcher ext0 8)
     (mkBinding 8 8 (aTuple (Some 0) [] []) [])
     (aTupleClass 7 "__builtin__.tuple" [tuple_] None tuple_
        [(KInt 0, aTypeParameter "T"); (KStr "T", aTypeParameter "T")] ["T"])
     (Some 0) tt ∅ st).1
  = Raise TypeError.
Proof. by vm_compute. Qed.

(** ** The other cases of the tuple match *)

(** X23: a literal tuple matched against a parameterized class that is not
    a tuple class, as a sequence of [T], has each of its elements matched
    against the one parameter [T] of the class, in order, each from the
    substitution of the one before: the match returns a substitution exactly
    when every element matches, and [None] in the store left by the first
    element that fails.  A class without the parameter [T] raises
    [KeyError], and a formal class without parameters leaves the substitution
    as it is. *)
Theorem literal_tuple_against_container :
  ∀ (ext : External) (self : Methods ext) (left instance other_type : Value)
    (elements : list var) (subst : PySubst) (node : CFGNode ext) (view : View)
    (st : State),
    is_Tuple instance = true →
    pyval instance = Some elements →
    is_TupleClass other_type = false →
    let result :=
      _match_heterogeneous_tuple_instance_def ext self
        left instance other_type subst node view st in
    (is_ParameterizedClass other_type = false → result = (Ret subst, st))
    ∧ (∀ class_params,
         type_parameters other_type = Some class_params →
         assoc (KStr (T ext)) class_params = None →
         result = (Raise KeyError, st))
    ∧ (∀ class_params class_param,
         type_parameters other_type = Some class_params →
         assoc (KStr (T ext)) class_params = Some class_param →
         let step v s :=
           match_var_against_type ext self v class_param s node view in
         (∀ r st',
             result = (Ret (Some r), st')
             ↔ all_match step elements subst st (Some r) st')
         ∧ (∀ pre v post subst1 st1 st2,
               elements = pre ++ v :: post →
               all_match step pre subst st subst1 st1 →
               step v subst1 st1 = (Ret None, st2) →
               result = (Ret None, st2))).
Proof.
  intros ext self left instance other_type elements subst node view st Htuple
    Hpyval Hcls result.
  unfold result, _match_heterogeneous_tuple_instance_def.
  rewrite Htuple, Hcls. split; [|split].
  - by intros ->.
  - intros class_params Hps Hnone.
    destruct other_type; try discriminate Hps; try discriminate Hcls.
    simpl in *. injection Hps as ->. by rewrite Hnone.
  - intros class_params class_param Hps Hsome.
    destruct other_type; try discriminate Hps; try discriminate Hcls.
    simpl in Hps. injection Hps as ->. simpl. rewrite Hsome, Hpyval. simpl.
    split.
    + intros r st'. apply thread_Some.
    + intros pre v post subst1 st1 st2 -> Hpre Hfail.
      by eapply thread_first_failure.
Qed.

(** The tuple of the variables 1 and 3, an [int] and a [str], against a
    sequence of [int]: the second element fails. *)
Lemma literal_tuple_against_container_witness :
  let sequence :=
    aParameterizedClass 8 "typing.Sequence" [] None
      (aClass 9 "typing.Sequence" [] None) [(KStr "T", int)] ["T"] in
  _match_heterogeneous_tuple_instance_def ext0 (AbstractMatcher ext0 8)
    tuple_cls (aTuple (Some 4) [] [1; 3]) sequence (Some 0) tt view0 st0
  = (Ret None, st0).
Proof.
  intros sequence.
  destruct (literal_tuple_against_container ext0 (AbstractMatcher ext0 8)
              tuple_cls (aTuple (Some 4) [] [1; 3]) sequence [1; 3] (Some 0) tt
              view0 st0 eq_refl eq_refl eq_refl) as (_ & _ & H).
  destruct (H [(KStr "T", int)] int eq_refl eq_refl) as [_ Hfail].
  apply (Hfail [1] 3 [] (Some 0) st0 st0); [reflexivity| |].
  - eapply all_match_cons; [|apply all_match_nil]. by vm_compute.
  - by vm_compute.
Defined.

(** X24: an instance that is not a literal tuple, matched against a tuple
    class by a class that is not a tuple class, has the variable of its
    parameter [T] matched against each slot of the tuple class in order,
    each from the substitution of the one before.  An instance without type
    parameters, as an unknown value, leaves the substitution as it is; a
    formal type that is no tuple class fails the assertion. *)
Theorem instance_against_tuple_class :
  ∀ (ext : External) (self : Methods ext) (left instance other_type : Value)
    (subst : PySubst) (node : CFGNode ext) (view : View) (st : State),
    is_Tuple instance = false →
    is_TupleClass left = false →
    let result :=
      _match_heterogeneous_tuple_instance_def ext self
        left instance other_type subst node view st in
    (is_TupleClass other_type = false → result = (Raise AssertionError, st))
    ∧ (is_TupleClass other_type = true →
       is_SimpleAbstractValue instance = false → result = (Ret subst, st))
    ∧ (∀ instance_params instance_param class_params,
         is_TupleClass other_type = true →
         is_SimpleAbstractValue instance = true →
         instance_type_parameters instance = Some instance_params →
         assoc (T ext) instance_params = Some instance_param →
         type_parameters other_type = Some class_params →
         let slots := seq 0 (Z.to_nat (Z.of_nat (length class_params) - 1)) in
         let step (i : nat) s :=
           bind (get_or KeyError (assoc (KInt (Z.of_nat i)) class_params))
             (fun class_param =>
                match_var_against_type ext self instance_param class_param s
                  node view) in
         (∀ r st',
             result = (Ret (Some r), st')
             ↔ all_match step slots subst st (Some r) st')
         ∧ (∀ pre i post subst1 st1 st2,
               slots = pre ++ i :: post →
               all_match step pre subst st subst1 st1 →
               step i subst1 st1 = (Ret None, st2) →
               result = (Ret None, st2))).
Proof.
  intros ext self left instance other_type subst node view st Htuple Hleft
    result.
  unfold result, _match_heterogeneous_tuple_instance_def.
  rewrite Htuple, Hleft. split; [|split].
  - by intros ->.
  - by intros -> ->.
  - intros instance_params instance_param class_params -> -> Hips Hip Hps.
    simpl. rewrite Hips. simpl. rewrite Hip. simpl. rewrite Hps. simpl.
    split.
    + intros r st'. apply thread_Some.
    + intros pre i post subst1 st1 st2 Hsplit Hpre Hfail.
      rewrite Hsplit. by eapply thread_first_failure.
Qed.

(** An instance whose parameter [T] is the variable 1, an [int], against
    [tuple[int, str]]: the second slot fails. *)
Lemma instance_against_tuple_class_witness :
  _match_heterogeneous_tuple_instance_def ext0 (AbstractMatcher ext0 8)
    tuple_cls (aSimpleAbstractValue (Some 4) [("T", 1)]) tuple_int_str
    (Some 0) tt view0 st0
  = (Ret None, st0).
Proof.
  destruct (instance_against_tuple_class ext0 (AbstractMatcher ext0 8)
              tuple_cls (aSimpleAbstractValue (Some 4) [("T", 1)])
              tuple_int_str (Some 0) tt view0 st0 eq_refl eq_refl)
    as (_ & _ & H).
  destruct (H [("T", 1)] 1
              [(KInt 0, int); (KInt 1, str); (KStr "T", aUnion [int; str])]
              eq_refl eq_refl eq_refl eq_refl eq_refl) as [_ Hfail].
  apply (Hfail [0] 1 [] (Some 0) st0 st0); [reflexivity| |].
  - eapply all_match_cons; [|apply all_match_nil]. by vm_compute.
  - by vm_compute.
Defined.

(** ** Classes and [super] objects as values *)

(** X25: a class that is itself the value matches the formal classes
    [__builtin__.type], [__builtin__.object] and [typing.Callable] when
    these have no parameters; against any other formal class without
    parameters a class that has no class of its own fails. *)
Theorem class_value_matches :
  ∀ (ext : External) (d : nat) (value : Binding) (other_type : Value)
    (other_name : string) (subst : PySubst) (node : CFGNode ext) (view : View)
    (st : State),
    formal ext (data value) = false →
    is_Class (data value) = true →
    plain other_type = true →
    full_name other_type = Some other_name →
    let result :=
      _match_value_against_type ext (AbstractMatcher ext (2 + d))
        value other_type subst node view st in
    let names :=
      ["__builtin__.type"; "__builtin__.object"; "typing.Callable"] in
    (in_list other_name names = true → result = (Ret subst, st))
    ∧ (in_list other_name names = false → get_class (data value) = None →
       result = (Ret None, st)).
Proof.
  intros ext d value other_type other_name subst node view st Hformal Hleft
    Hplain Hname result names.
  unfold result. change (2 + d) with (S (S d)).
  rewrite _match_value_against_type_S. unfold _match_value_against_type_def.
  rewrite Hformal.
  destruct other_type; try discriminate Hplain.
  simpl in Hname. injection Hname as ->. simpl.
  unfold _match_type_against_type_def.
  assert (Hkind : is_Empty (data value) = false
                  ∧ is_AMBIGUOUS_OR_EMPTY (data value) = false).
  { by destruct (data value). }
  destruct Hkind as [-> ->]. rewrite Hleft. simpl.
  rewrite andb_false_r. fold names. split.
  - by intros ->.
  - intros -> ->. reflexivity.
Qed.

Lemma class_value_matches_witness :
  _match_value_against_type ext0 (AbstractMatcher ext0 2)
    (mkBinding 0 0 int []) (aClass 9 "__builtin__.type" [] None) (Some 0) tt
    view0 st0
  = (Ret (Some 0), st0)
  ∧ _match_value_against_type ext0 (AbstractMatcher ext0 2)
      (mkBinding 0 0 int []) str (Some 0) tt view0 st0
    = (Ret None, st0).
Proof.
  destruct (class_value_matches ext0 0 (mkBinding 0 0 int [])
              (aClass 9 "__builtin__.type" [] None) "__builtin__.type"
              (Some 0) tt view0 st0 eq_refl eq_refl eq_refl eq_refl)
    as [H1 _].
  destruct (class_value_matches ext0 0 (mkBinding 0 0 int []) str
              "__builtin__.str" (Some 0) tt view0 st0 eq_refl eq_refl eq_refl
              eq_refl) as [_ H2].
  split; [by apply H1|by apply H2].
Defined.

(** X26: a [super] object is matched as an instance of the class it stands
    for: against a formal class without parameters the match returns the
    given substitution when that class is accepted (the formal class is
    [__builtin__.object], or a compatible builtin, or among its bases), and
    [None] otherwise; the store is not changed. *)
Theorem super_instance_matches :
  ∀ (ext : External) (d : nat) (value : Binding) (c o other_type : Value)
    (subst : PySubst) (node : CFGNode ext) (view : View) (st : State),
    data value = aSuperInstance c o →
    formal ext (data value) = false →
    plain c = true → simple_bases c → is_Tuple o = false →
    plain other_type = true →
    _match_value_against_type ext (AbstractMatcher ext (5 + d))
      value other_type subst node view st
    = (Ret (if accepts ext other_type c then subst else None), st).
Proof.
  intros ext d value c o other_type subst node view st Hdata Hformal Hc Hbases
    Ho Hplain.
  change (5 + d) with (S (S (S (S (S d))))).
  rewrite _match_value_against_type_S. unfold _match_value_against_type_def.
  rewrite Hformal, Hdata.
  destruct other_type as [| | | | | |oid oname omro ocls| | | | | | | | | | |];
    try discriminate Hplain.
  simpl. unfold _match_type_against_type_def. simpl.
  by apply class_and_instance_plain.
Qed.

(** [super(Mixed, x)] for a class that inherits from [int], against [int]
    and against [str]. *)
Lemma super_instance_matches_witness :
  let sup := aSuperInstance
               (aClass 4 "m.Mixed" [aUnknown; int; object] None)
               (aSimpleAbstractValue (Some 0) []) in
  _match_value_against_type ext0 (AbstractMatcher ext0 5)
    (mkBinding 7 7 sup []) int (Some 0) tt view0 st0 = (Ret (Some 0), st0)
  ∧ _match_value_against_type ext0 (AbstractMatcher ext0 5)
      (mkBinding 7 7 sup []) str (Some 0) tt view0 st0 = (Ret None, st0).
Proof.
  intros sup.
  assert (Hb : simple_bases (aClass 4 "m.Mixed" [aUnknown; int; object] None)).
  { intros bases [= <-]. constructor; [by right|].
    constructor; [by left|]. constructor; [by left|constructor]. }
  split.
  - apply (super_instance_matches ext0 0 (mkBinding 7 7 sup []) _ _ int
             (Some 0) tt view0 st0 eq_refl eq_refl eq_refl Hb eq_refl eq_refl).
  - apply (super_instance_matches ext0 0 (mkBinding 7 7 sup []) _ _ str
             (Some 0) tt view0 st0 eq_refl eq_refl eq_refl Hb eq_refl eq_refl).
Defined.

(** ** The parameter of an instance of a generic class *)

Lemma bind_same_result (m : M PySubst) st :
  bind m (fun s => match s with
                   | Some _ => ret s
                   | None => ret None
                   end) st
  = m st.
Proof. rewrite bind_unfold. by destruct (m st) as [[[r|]|e] st1]. Qed.

(** X27: an instance matched against a parameterized class with one
    parameter, by a class without parameters that is the base of the formal
    class, is matched by the variable of that parameter of the instance
    against the parameter of the class.  When the variable has bindings and
    the view has a binding for it, the result is that of this one match.
    When the view has none, the variable must have exactly one binding, an
    unsolvable value, which is added to the view for the match: more
    bindings raise [ValueError], and one binding that is not unsolvable
    fails the assertion.  A class that is not the base of the formal class
    fails the assertion as well. *)
Theorem parameter_of_generic_instance :
  ∀ (ext : External) (self : Methods ext) (left instance : Value)
    (oid : nat) (oname : string) (omro : list Value) (ocls : option var)
    (base : Value) (ps : list (pkey * Value)) (tname : string)
    (class_param : Value) (subst : PySubst) (node : CFGNode ext) (view : View)
    (st : State) (v : var) (h : Heap),
    let other_type := aParameterizedClass oid oname omro ocls base ps [tname] in
    let st1 := mkState h (dicts st) (next_dict st) (log st) in
    let result :=
      _match_maybe_parameterized_instance_def ext self
        left instance other_type subst node view st in
    is_ParameterizedClass left = false →
    (is_ left base = false → result = (Raise AssertionError, st))
    ∧ (is_ left base = true →
       assoc (KStr tname) ps = Some class_param →
       get_type_parameter ext instance node tname (heap st) = (v, h) →
       (∀ b, bindings_of h !!! v ≠ [] → view !! v = Some b →
          result
          = match_var_against_type ext self v class_param subst node view st1)
       ∧ (∀ b, bindings_of h !!! v = [b] → view !! v = None →
            data b = aUnsolvable →
            result
            = match_var_against_type ext self v class_param subst node
                (<[v := b]> view) st1)
       ∧ (∀ b, bindings_of h !!! v = [b] → view !! v = None →
            is_Unsolvable (data b) = false →
            result = (Raise AssertionError, st1))
       ∧ (∀ b1 b2 bs, bindings_of h !!! v = b1 :: b2 :: bs →
            view !! v = None →
            result = (Raise ValueError, st1))).
Proof.
  intros ext self left instance oid oname omro ocls base ps tname class_param
    subst node view st v h other_type st1 result Hleft.
  unfold result, _match_maybe_parameterized_instance_def. simpl.
  rewrite Hleft. simpl. split.
  { by intros ->. }
  intros -> Hparam Hget. simpl. rewrite Hparam. simpl. rewrite Hget. simpl.
  fold st1.
  split; [|split; [|split]].
  - intros b Hbs Hview.
    destruct (bindings_of h !!! v) as [|b0 bs] eqn:Hv; [done|]. simpl.
    rewrite Hv. simpl.
    rewrite (bool_decide_eq_true_2 (is_Some (view !! v))) by eauto. simpl.
    apply (bind_same_result
             (match_var_against_type ext self v class_param subst node view)).
  - intros b Hbs Hview Hdata. rewrite Hbs. simpl. rewrite Hbs. simpl.
    rewrite (bool_decide_eq_false_2 (is_Some (view !! v)))
      by (rewrite Hview; by intros [? ?]).
    simpl. rewrite Hdata. simpl.
    apply (bind_same_result
             (match_var_against_type ext self v class_param subst node
                (<[v := b]> view))).
  - intros b Hbs Hview Hdata. rewrite Hbs. simpl. rewrite Hbs. simpl.
    rewrite (bool_decide_eq_false_2 (is_Some (view !! v)))
      by (rewrite Hview; by intros [? ?]).
    simpl. by rewrite Hdata.
  - intros b1 b2 bs Hbs Hview. rewrite Hbs. simpl. rewrite Hbs. simpl.
    rewrite (bool_decide_eq_false_2 (is_Some (view !! v)))
      by (rewrite Hview; by intros [? ?]).
    reflexivity.
Qed.

(** An instance whose parameter [T] is the variable 1, an [int], against a
    list of [str]. *)
Lemma parameter_of_generic_instance_witness :
  let list_cls := aClass 9 "__builtin__.list" [] None in
  let list_str :=
    aParameterizedClass 8 "__builtin__.list" [] None list_cls
      [(KStr "T", str)] ["T"] in
  _match_maybe_parameterized_instance_def ext0 (AbstractMatcher ext0 8)
    list_cls (aSimpleAbstractValue (Some 4) [("T", 1)]) list_str (Some 0) tt
    view0 st0
  = match_var_against_type ext0 (AbstractMatcher ext0 8) 1 str (Some 0) tt
      view0 st0.
Proof.
  intros list_cls list_str.
  destruct (parameter_of_generic_instance ext0 (AbstractMatcher ext0 8)
              list_cls (aSimpleAbstractValue (Some 4) [("T", 1)])
              8 "__builtin__.list" [] None list_cls [(KStr "T", str)] "T" str
              (Some 0) tt view0 st0 1 h0 eq_refl) as [_ H].
  destruct (H eq_refl eq_refl eq_refl) as [H1 _].
  apply (H1 an_int); [|reflexivity]. by vm_compute.
Defined.

(** ** Instantiating a class to match it *)

(** X28: [_instantiate_and_match] instantiates the class and matches the
    variable of the instance in each view of it, in order, each view
    completed by the view of the caller, whose entries win over those of the
    new view.  The substitution of the first view that matches is returned
    and no later view is tried; the match returns [None] when every view
    fails, so also when there is no view.  A class matched against the
    formal type [__builtin__.type] with a parameter is matched this way
    against that parameter. *)
Theorem instantiate_and_match_views :
  ∀ (ext : External) (self : Methods ext) (left other_type : Value)
    (subst : PySubst) (node : CFGNode ext) (view : View) (st : State)
    (instance : var) (h1 : Heap) (views : list View) (h2 : Heap),
    instantiate ext left node (heap st) = (instance, h1) →
    get_views ext [instance] node h1 = (views, h2) →
    let st2 := mkState h2 (dicts st) (next_dict st) (log st) in
    let one_view (new_view : View) :=
      match_var_against_type ext self instance other_type subst node
        (view ∪ new_view) in
    let result :=
      _instantiate_and_match_def ext self left other_type subst node view st in
    (∀ pre new_view post r st3 st4,
        views = pre ++ new_view :: post →
        all_fail one_view pre st2 st3 →
        one_view new_view st3 = (Ret (Some r), st4) →
        result = (Ret (Some r), st4))
    ∧ (∀ st', all_fail one_view views st2 st' → result = (Ret None, st'))
    ∧ (views = [] → result = (Ret None, st2))
    ∧ (∀ (new_view : View) x b,
         view !! x = Some b → (view ∪ new_view) !! x = Some b)
    ∧ (∀ oid omro ocls base ps template,
         is_Class left = true →
         assoc (KStr (T ext)) ps = Some other_type →
         _match_type_against_type_def ext self left
           (aParameterizedClass oid "__builtin__.type" omro ocls base ps
              template) subst node view st
         = _instantiate_and_match ext self left other_type subst node view st).
Proof.
  intros ext self left other_type subst node view st instance h1 views h2
    Hinst Hviews st2 one_view result.
  assert (Hresult : result = first_match one_view views st2).
  { unfold result, _instantiate_and_match_def. simpl.
    rewrite Hinst. simpl. by rewrite Hviews. }
  rewrite Hresult. split; [|split; [|split; [|split]]].
  - intros pre new_view post r st3 st4 -> Hpre Hhit.
    rewrite (first_match_app _ _ _ _ _ Hpre). by apply first_match_hit.
  - intros st'. apply first_match_all_fail.
  - by intros ->.
  - intros new_view x b Hx. by apply lookup_union_Some_l.
  - intros oid omro ocls base ps template Hleft Ht.
    unfold _match_type_against_type_def.
    assert (Hkind : is_Empty left = false
                    ∧ is_AMBIGUOUS_OR_EMPTY left = false).
    { by destruct left. }
    destruct Hkind as [-> ->]. rewrite Hleft. simpl. by rewrite Ht.
Qed.

(** The class [int] matched against [type[float]]: an instance of [int] is
    made and matches [float]. *)
Lemma instantiate_and_match_views_witness :
  ∃ st',
    _instantiate_and_match_def ext0 (AbstractMatcher ext0 8) int float
      (Some 0) tt view0 st0
    = (Ret (Some 0), st').
Proof.
  eexists.
  eapply (proj1 (instantiate_and_match_views ext0 (AbstractMatcher ext0 8)
                   int float (Some 0) tt view0 st0 _ _ _ _ eq_refl eq_refl)
            [] _ []).
  - reflexivity.
  - apply all_fail_nil.
  - vm_compute. reflexivity.
Defined.

(** ** The variables that exist are not modified *)

Lemma vars_kept_refl b st : vars_kept b st st.
Proof. by split. Qed.

Lemma vars_kept_trans b st1 st2 st3 :
  vars_kept b st1 st2 → vars_kept b st2 st3 → vars_kept b st1 st3.
Proof.
  intros [Hle1 H1] [Hle2 H2]. split; [lia|].
  intros a Ha. by rewrite H2, H1.
Qed.

Lemma preserves_weaken {A} b (m : M A) (Q Q' : A → Prop) :
  preserves b m Q → (∀ a, Q a → Q' a) → preserves b m Q'.
Proof.
  intros H HQ st Hb. destruct (H st Hb) as [H1 H2]. split; [done|].
  intros a Ha. auto.
Qed.

Lemma preserves_ret {A} b (a : A) (Q : A → Prop) : Q a → preserves b (ret a) Q.
Proof.
  intros HQ st _. split; [apply vars_kept_refl|]. by intros ? [= <-].
Qed.

Lemma preserves_raise {A} b e (Q : A → Prop) : preserves b (raise e) Q.
Proof. intros st _. split; [apply vars_kept_refl|done]. Qed.

Lemma preserves_bind {A B} b (m : M A) (k : A → M B) Q Q' :
  preserves b m Q → (∀ a, Q a → preserves b (k a) Q') →
  preserves b (bind m k) Q'.
Proof.
  intros Hm Hk st Hb. destruct (Hm st Hb) as [Hkept HQ].
  unfold bind. destruct (m st) as [[a|e] st1]; simpl in *.
  - pose proof Hkept as [Hle _].
    destruct (Hk a (HQ a eq_refl) st1) as [Hkept' HQ']; [lia|].
    split; [|done]. by eapply vars_kept_trans.
  - done.
Qed.

Lemma preserves_pure {A} b (m : M A) :
  (∀ st, heap (m st).2 = heap st) → preserves b m (fun _ => True).
Proof.
  intros H st _. split; [|done]. unfold vars_kept. by rewrite H.
Qed.

Lemma preserves_get_or {A} b e (o : option A) :
  preserves b (get_or e o) (fun _ => True).
Proof. apply preserves_pure. by destruct o. Qed.

Lemma preserves_assert b c : preserves b (assert c) (fun _ => True).
Proof. apply preserves_pure. by destruct c. Qed.

Lemma preserves_lift {A} b (o : outcome A) :
  preserves b (lift o) (fun _ => True).
Proof. by apply preserves_pure. Qed.

Lemma preserves_bindings b v : preserves b (bindings v) (fun _ => True).
Proof. by apply preserves_pure. Qed.

Lemma preserves_view_getitem b view v :
  preserves b (view_getitem view v) (fun _ => True).
Proof. apply preserves_get_or. Qed.

Lemma preserves_log_error b msg : preserves b (log_error msg) (fun _ => True).
Proof. by apply preserves_pure. Qed.

Lemma preserves_dict_contains b n subst :
  preserves b (dict_contains n subst) (fun _ => True).
Proof. apply preserves_pure. by destruct subst. Qed.

Lemma preserves_dict_getitem b subst n :
  preserves b (dict_getitem subst n) (fun _ => True).
Proof.
  apply preserves_pure. intros st. destruct subst as [r|]; [|done]. simpl.
  by destruct (_ !! n).
Qed.

Lemma preserves_dict_copy b subst :
  preserves b (dict_copy subst) (fun _ => True).
Proof. apply preserves_pure. by destruct subst. Qed.

Lemma preserves_dict_setitem b subst n v :
  preserves b (dict_setitem subst n v) (fun _ => True).
Proof. apply preserves_pure. by destruct subst. Qed.

Lemma preserves_dict_new b : preserves b dict_new (fun _ => True).
Proof. by apply preserves_pure. Qed.

Lemma preserves_HashableDict b subst :
  preserves b (HashableDict subst) (fun _ => True).
Proof. apply preserves_pure. by destruct subst. Qed.

Lemma preserves_on_heap {A} b (f : Heap → A * Heap) :
  frames f → preserves b (on_heap f) (fun _ => True).
Proof.
  intros Hf st Hb. split; [|done]. unfold on_heap.
  destruct (Hf (heap st)) as [Hle Hkept].
  destruct (f (heap st)) as [a h]. simpl in *. split; [done|].
  intros v Hv. apply Hkept. lia.
Qed.

(** A new variable is not below [b]. *)
Lemma preserves_NewVariable b :
  preserves b NewVariable (fun v => (b ≤ v)%nat).
Proof.
  intros st Hb. simpl. split.
  - split; simpl; [lia|]. intros v Hv. apply lookup_total_insert_ne. lia.
  - by intros ? [= <-].
Qed.

(** A binding is added to a variable that is not below [b]. *)
Lemma preserves_AddBinding b v d source_set :
  (b ≤ v)%nat → preserves b (AddBinding v d source_set) (fun _ => True).
Proof.
  intros Hv st Hb. simpl. split; [|done].
  split; simpl; [lia|]. intros u Hu. apply lookup_total_insert_ne. lia.
Qed.

Lemma preserves_add_all b v bs :
  (b ≤ v)%nat → preserves b (add_all v bs) (fun _ => True).
Proof.
  intros Hv. induction bs as [|x bs IH]; cbn [add_all];
    [by apply preserves_ret|].
  eapply preserves_bind; [by apply preserves_AddBinding|]. intros _ _. exact IH.
Qed.

Lemma preserves_Variable_AssignToNewVariable b v :
  preserves b (Variable_AssignToNewVariable v) (fun u => (b ≤ u)%nat).
Proof.
  unfold Variable_AssignToNewVariable.
  eapply preserves_bind; [apply preserves_bindings|]. intros bs _.
  eapply preserves_bind; [apply preserves_NewVariable|]. intros new_var Hnew.
  eapply preserves_bind; [by apply preserves_add_all|]. intros _ _.
  by apply preserves_ret.
Qed.

Lemma preserves_Binding_AssignToNewVariable b value :
  preserves b (Binding_AssignToNewVariable value) (fun u => (b ≤ u)%nat).
Proof.
  unfold Binding_AssignToNewVariable.
  eapply preserves_bind; [apply preserves_NewVariable|]. intros new_var Hnew.
  eapply preserves_bind; [by apply preserves_AddBinding|]. intros _ _.
  by apply preserves_ret.
Qed.

Lemma preserves_add_same_type_key ext b new_var value type_key others :
  (b ≤ new_var)%nat →
  preserves b (add_same_type_key ext new_var value type_key others)
    (fun _ => True).
Proof.
  intros Hnew. induction others as [|o others IH]; cbn [add_same_type_key];
    [by apply preserves_ret|].
  eapply (preserves_bind _ _ _ (fun _ => True)); [|intros _ _; exact IH].
  destruct (negb _); [|by apply preserves_ret].
  destruct (bool_decide _);
    [by apply preserves_AddBinding|by apply preserves_ret].
Qed.

Lemma preserves_first_match {A} b (f : A → M PySubst) l :
  (∀ x, preserves b (f x) (fun _ => True)) →
  preserves b (first_match f l) (fun _ => True).
Proof.
  intros Hf. induction l as [|x l IH]; cbn [first_match];
    [by apply preserves_ret|].
  eapply preserves_bind; [apply Hf|].
  intros [r|] _; [by apply preserves_ret|exact IH].
Qed.

Lemma preserves_thread {A} b (f : A → PySubst → M PySubst) l subst :
  (∀ x s, preserves b (f x s) (fun _ => True)) →
  preserves b (thread f l subst) (fun _ => True).
Proof.
  intros Hf. revert subst.
  induction l as [|x l IH]; intros subst; cbn [thread];
    [by apply preserves_ret|].
  eapply preserves_bind; [apply Hf|].
  intros [r|] _; [apply IH|by apply preserves_ret].
Qed.

Lemma preserves_match_nothing b opts subst :
  preserves b (match_nothing opts subst) (fun _ => True).
Proof.
  revert subst. induction opts as [|o opts IH]; intros subst;
    cbn [match_nothing]; [by apply preserves_ret|].
  destruct (is_TypeParameter o); [|apply IH].
  eapply preserves_bind; [apply preserves_get_or|]. intros n _.
  eapply preserves_bind; [apply preserves_dict_contains|]. intros bound _.
  destruct (negb bound); [|apply IH].
  eapply preserves_bind; [apply preserves_dict_copy|]. intros s _.
  eapply preserves_bind; [apply preserves_NewVariable|]. intros v _.
  eapply preserves_bind; [apply preserves_dict_setitem|]. intros _ _. apply IH.
Qed.

Lemma preserves_done {A} b (a : A) : preserves b (ret a) (fun _ => True).
Proof. by apply preserves_ret. Qed.

(** The rules above, applied along the structure of a method body. *)
Ltac preserves_leaf P F :=
  first
    [ apply preserves_done | apply preserves_raise | apply preserves_get_or
    | apply preserves_assert | apply preserves_lift
    | apply preserves_on_heap; apply F
    | apply preserves_bindings | apply preserves_view_getitem
    | apply preserves_log_error
    | apply preserves_dict_contains | apply preserves_dict_getitem
    | apply preserves_HashableDict | apply preserves_dict_copy
    | apply preserves_dict_new | apply preserves_dict_setitem
    | apply preserves_NewVariable
    | apply preserves_AddBinding; assumption
    | apply preserves_Variable_AssignToNewVariable
    | apply preserves_Binding_AssignToNewVariable
    | apply preserves_add_same_type_key; assumption
    | apply preserves_match_nothing
    | apply (preserves_match_var_against_type _ P)
    | apply (preserves__match_value_against_type _ P)
    | apply (preserves__match_type_against_type _ P)
    | apply (preserves__instantiate_and_match _ P)
    | apply (preserves__match_instance_against_type _ P)
    | apply (preserves__match_instance _ P)
    | apply (preserves__match_maybe_parameterized_instance _ P)
    | apply (preserves__match_heterogeneous_tuple_instance _ P)
    | apply (preserves__match_class_and_instance_against_type _ P) ].

Ltac preserves_auto P F :=
  first
    [ preserves_leaf P F
    | apply preserves_first_match; intros ?; preserves_auto P F
    | apply preserves_thread; intros ? ?; preserves_auto P F
    | match goal with
      | |- preserves _ (if ?c then _ else _) _ =>
          destruct c eqn:?; preserves_auto P F
      | |- preserves _ (match ?x with _ => _ end) _ =>
          destruct x; preserves_auto P F
      | |- preserves _ (bind _ _) _ =>
          eapply preserves_bind;
          [preserves_auto P F
          |let a := fresh "a" in
           let Ha := fresh "Ha" in
           intros a Ha; hnf in Ha;
           preserves_auto P F]
      end
    | idtac ].

Section PreservesMethods.
Context (ext : External) (self : Methods ext) (P : Preserves self)
  (F : ext_frames ext).

Lemma preserves_match_template b left instance other_type node names subst
    view :
  preserves b (match_template ext self left instance other_type node names
                 subst view) (fun _ => True).
Proof.
  revert subst view.
  induction names as [|x names IH]; intros subst view;
    [apply preserves_done|].
  cbn [match_template]. preserves_auto P F. apply IH.
Qed.

Lemma preserves_match_slots b class_params node view i instance_params subst :
  preserves b (match_slots ext self class_params node view i instance_params
                 subst) (fun _ => True).
Proof.
  revert i subst.
  induction instance_params as [|x l IH]; intros i subst;
    [apply preserves_done|].
  cbn [match_slots]. preserves_auto P F. apply IH.
Qed.

Lemma preserves_compute_subst b node formal_args arg_dict view :
  preserves b (compute_subst ext self node formal_args arg_dict view)
    (fun _ => True).
Proof.
  unfold compute_subst. preserves_auto P F. clear Ha. revert a.
  induction formal_args as [|[name formal] l IH]; intros subst;
    cbn [compute_subst_loop]; preserves_auto P F. apply IH.
Qed.

Lemma Preserves_step :
  Preserves
    {| match_var_against_type := match_var_against_type_def ext self;
       _match_value_against_type := _match_value_against_type_def ext self;
       _match_type_against_type := _match_type_against_type_def ext self;
       _instantiate_and_match := _instantiate_and_match_def ext self;
       _match_instance_against_type :=
         _match_instance_against_type_def ext self;
       _match_instance := _match_instance_def ext self;
       _match_maybe_parameterized_instance :=
         _match_maybe_parameterized_instance_def ext self;
       _match_heterogeneous_tuple_instance :=
         _match_heterogeneous_tuple_instance_def ext self;
       _match_class_and_instance_against_type :=
         _match_class_and_instance_against_type_def ext self |}.
Proof.
  split; intros; cbn [match_var_against_type _match_value_against_type
    _match_type_against_type _instantiate_and_match
    _match_instance_against_type _match_instance
    _match_maybe_parameterized_instance _match_heterogeneous_tuple_instance
    _match_class_and_instance_against_type].
  - unfold match_var_against_type_def. preserves_auto P F.
  - unfold _match_value_against_type_def.
    eapply preserves_bind; [apply preserves_assert|]. intros _ _.
    destruct (is_Class t); [preserves_auto P F|].
    destruct (is_Union t); [preserves_auto P F|].
    destruct (is_TypeParameter t); [|preserves_auto P F].
    eapply preserves_bind; [apply preserves_get_or|]. intros other_name _.
    eapply preserves_bind; [apply preserves_dict_contains|]. intros bound _.
    eapply (preserves_bind _ _ _
              (fun new : PySubst * var => (b ≤ new.2)%nat)).
    { destruct bound.
      - eapply preserves_bind; [apply preserves_dict_copy|]. intros s1 _.
        eapply preserves_bind; [apply preserves_dict_getitem|].
        intros old_var _.
        eapply preserves_bind;
          [apply preserves_Variable_AssignToNewVariable|].
        intros new_var Hnew.
        eapply preserves_bind; [by apply preserves_AddBinding|]. intros _ _.
        eapply preserves_bind; [apply preserves_dict_setitem|]. intros _ _.
        by apply preserves_ret.
      - eapply preserves_bind; [apply preserves_dict_copy|]. intros s1 _.
        eapply preserves_bind;
          [apply preserves_Binding_AssignToNewVariable|].
        intros new_var Hnew.
        eapply preserves_bind; [apply preserves_dict_setitem|]. intros _ _.
        by apply preserves_ret. }
    intros [s1 new_var] Hnew. simpl in Hnew.
    eapply preserves_bind; [apply preserves_bindings|]. intros others _.
    eapply preserves_bind; [by apply preserves_add_same_type_key|].
    intros _ _. apply preserves_done.
  - unfold _match_type_against_type_def. preserves_auto P F.
  - unfold _instantiate_and_match_def. preserves_auto P F.
  - unfold _match_instance_against_type_def. preserves_auto P F.
  - unfold _match_instance_def. preserves_auto P F.
  - unfold _match_maybe_parameterized_instance_def. preserves_auto P F.
    all: apply preserves_match_template.
  - unfold _match_heterogeneous_tuple_instance_def. preserves_auto P F.
    all: apply preserves_match_slots.
  - unfold _match_class_and_instance_against_type_def. preserves_auto P F.
Qed.

End PreservesMethods.

Lemma Preserves_exhausted ext : Preserves (exhausted ext).
Proof. split; intros; apply preserves_raise. Qed.

Lemma Preserves_AbstractMatcher ext d :
  ext_frames ext → Preserves (AbstractMatcher ext d).
Proof.
  intros F. induction d as [|d IH]; [apply Preserves_exhausted|].
  by apply Preserves_step.
Qed.

(** X29: the matcher adds bindings to variables it creates only.  When the
    operations of the value model it calls (instantiating a class, computing
    views, reading a type parameter) keep the variables that exist, every
    variable that exists before a match of a value, of a variable or of the
    arguments of a call has after it the bindings it had, whatever the match
    returns or raises. *)
Theorem matcher_keeps_variables :
  ∀ (ext : External) (d : nat) (other_type : Value) (subst : PySubst)
    (node : CFGNode ext) (view : View) (st : State) (v : var),
    ext_frames ext →
    (v < next_var (heap st))%nat →
    (∀ value,
        bindings_of (heap (_match_value_against_type ext (AbstractMatcher ext d)
                             value other_type subst node view st).2) !!! v
        = bindings_of (heap st) !!! v)
    ∧ (∀ x,
        bindings_of (heap (match_var_against_type ext (AbstractMatcher ext d)
                             x other_type subst node view st).2) !!! v
        = bindings_of (heap st) !!! v)
    ∧ (∀ formal_args arg_dict,
        bindings_of (heap (compute_subst ext (AbstractMatcher ext d)
                             node formal_args arg_dict view st).2) !!! v
        = bindings_of (heap st) !!! v).
Proof.
  intros ext d other_type subst node view st v F Hv.
  pose proof (Preserves_AbstractMatcher ext d F) as P.
  split; [|split].
  - intros value.
    destruct (preserves__match_value_against_type _ P (next_var (heap st))
                value other_type subst node view st) as [[_ H] _]; [done|].
    by apply H.
  - intros x.
    destruct (preserves_match_var_against_type _ P (next_var (heap st))
                x other_type subst node view st) as [[_ H] _]; [done|].
    by apply H.
  - intros formal_args arg_dict.
    assert (Hc : preserves (next_var (heap st))
                   (compute_subst ext (AbstractMatcher ext d) node formal_args
                      arg_dict view) (fun _ => True))
      by (apply preserves_compute_subst; assumption).
    destruct (Hc st) as [[_ H] _]; [done|]. by apply H.
Qed.

Lemma alloc_frames ds : frames (alloc ds).
Proof.
  intros h. unfold alloc. simpl. split; [lia|].
  intros v Hv. apply lookup_total_insert_ne. lia.
Qed.

Lemma ext0_frames : ext_frames ext0.
Proof.
  split; [|split].
  - intros left node h. simpl. split; [lia|].
    intros v Hv. by rewrite !lookup_total_insert_ne by lia.
  - intros vs node h. by split.
  - intros instance node name h. simpl.
    destruct (_ ≫= _); [by split|]. apply alloc_frames.
Qed.

(** The variable 1 after an instance of [int] in it was matched against
    the parameter [K]. *)
Lemma matcher_keeps_variables_witness :
  bindings_of (heap (_match_value_against_type ext0 (AbstractMatcher ext0 2)
                       an_int (aTypeParameter "K") (Some 0) tt view0 st0).2)
    !!! 1
  = bindings_of (heap st0) !!! 1.
Proof.
  apply (proj1 (matcher_keeps_variables ext0 2 (aTypeParameter "K") (Some 0)
                  tt view0 st0 1 ext0_frames ltac:(simpl; lia))).
Defined.

End MatchingProperties.
